(** * Ordered map on an AVL tree with parent pointers (Ordered_map_via_Avl.cpp)

    The C++ classes [AVLNode], [AVLIterator] and [AVLMap] are embedded over an
    explicit store of nodes: a pointer is an optional address ([None] is
    [NULL]), a node is a record with the six fields of [AVLNode], and the map
    object is the store together with [root] and [avlSize].  Every member
    function is a computation in a state-and-error monad: dereferencing a
    pointer that is [NULL] or not allocated, and every failing [assert], ends
    the run with an error.  The [while] loops take fuel. *)

From stdpp Require Import gmap list sorting strings.
From Stdlib Require Import ZArith Lia.
From Stdlib Require OrdersEx.

Local Open Scope Z_scope.
Set Warnings "-clear-no-such-hyp".

(** ** Keys and items *)

(** The operators the template uses on keys: [<] and [!=]. *)
Class KeyOps (K : Type) := {
  key_lt : K → K → bool;
  key_neq : K → K → bool
}.

(** "K is totally ordered and can be compared via <, !=, and ==". *)
Class KeyLaws (K : Type) `{KeyOps K} : Prop := {
  key_neq_false a b : key_neq a b = false ↔ a = b;
  key_lt_irrefl a : key_lt a a = false;
  key_lt_trans a b c : key_lt a b = true → key_lt b c = true → key_lt a c = true;
  key_lt_total a b : key_lt a b = true ∨ a = b ∨ key_lt b a = true
}.

(** An instance of the template: integers as keys, compared by [<] and [!=]. *)
#[export] Instance Z_KeyOps : KeyOps Z := {
  key_lt a b := a <? b;
  key_neq a b := negb (a =? b)
}.

(** The instance of [main], [AVLMap<string, int>]: [std::string] under its
    lexicographic [<] and its [!=]. *)
#[export] Instance string_KeyOps : KeyOps string := {
  key_lt a b :=
    match OrdersEx.String_as_OT.compare a b with Lt => true | _ => false end;
  key_neq a b := negb (String.eqb a b)
}.

(** ** Store, errors and the monad *)

Definition loc := positive.
Definition ptr := option loc.

(** An allocator: the first address that is not in use. *)
Definition next_loc {A} (h : gmap loc A) : loc := fresh (dom h).

Definition ptr_eqb (p q : ptr) : bool := bool_decide (p = q).

Inductive error :=
| NullDeref        (* use of a NULL or dangling pointer *)
| AssertRemove     (* assert in AVLMap::remove *)
| AssertAt         (* assert in AVLMap::at *)
| AssertPluck      (* assert in AVLMap::pluckNode *)
| AssertFixUp      (* assert in AVLMap::fixUp *)
| AssertAdvance    (* assert in AVLIterator::advance *)
| OutOfFuel.       (* a loop did not finish within its fuel *)

Inductive res (A : Type) :=
| Ok (a : A)
| Err (e : error).
Arguments Ok {A} a.
Arguments Err {A} e.

(** [unsigned int] arithmetic. *)
Definition UINT_MOD : Z := 2 ^ 32.
Definition uint_incr (n : Z) : Z := (n + 1) mod UINT_MOD.
Definition uint_decr (n : Z) : Z := (n - 1) mod UINT_MOD.

Section AVL.

Context {K T : Type} {KO : KeyOps K}.

(** [T()], the default-constructed item. *)
Variable T_default : T.

Record AVLNode := mkNode {
  key : K;
  item : T;
  left : ptr;
  right : ptr;
  parent : ptr;
  height : Z
}.

Record AVLMap := mkMap {
  nodes : gmap loc AVLNode;
  root : ptr;
  avlSize : Z
}.

(** [new] returns an address that is not in use. *)
Variable alloc : gmap loc AVLNode → loc.
Hypothesis alloc_fresh : ∀ h, h !! alloc h = None.

Definition M (A : Type) : Type := AVLMap → res (A * AVLMap).

Definition ret {A} (a : A) : M A := λ m, Ok (a, m).

Definition bind {A B} (c : M A) (f : A → M B) : M B :=
  λ m, match c m with
       | Ok (a, m') => f a m'
       | Err e => Err e
       end.

Definition fail {A} (e : error) : M A := λ _, Err e.

#[export] Instance M_ret : MRet M := @ret.
#[export] Instance M_bind : MBind M := λ A B f c, bind c f.

Definition assert (b : bool) (e : error) : M unit :=
  if b then ret tt else fail e.

(** [*p] *)
Definition deref (p : ptr) : M AVLNode :=
  λ m, match p with
       | None => Err NullDeref
       | Some a => match nodes m !! a with
                   | Some n => Ok (n, m)
                   | None => Err NullDeref
                   end
       end.

(** [*p = n] *)
Definition store (p : ptr) (n : AVLNode) : M unit :=
  λ m, match p with
       | None => Err NullDeref
       | Some a => match nodes m !! a with
                   | Some _ => Ok (tt, mkMap (<[a := n]> (nodes m)) (root m) (avlSize m))
                   | None => Err NullDeref
                   end
       end.

Definition with_key (n : AVLNode) (k : K) : AVLNode :=
  mkNode k (item n) (left n) (right n) (parent n) (height n).
Definition with_item (n : AVLNode) (v : T) : AVLNode :=
  mkNode (key n) v (left n) (right n) (parent n) (height n).
Definition with_left (n : AVLNode) (q : ptr) : AVLNode :=
  mkNode (key n) (item n) q (right n) (parent n) (height n).
Definition with_right (n : AVLNode) (q : ptr) : AVLNode :=
  mkNode (key n) (item n) (left n) q (parent n) (height n).
Definition with_parent (n : AVLNode) (q : ptr) : AVLNode :=
  mkNode (key n) (item n) (left n) (right n) q (height n).
Definition with_height (n : AVLNode) (h : Z) : AVLNode :=
  mkNode (key n) (item n) (left n) (right n) (parent n) h.

(** [p->key = k], [p->item = v], [p->left = q], ... *)
Definition set_key (p : ptr) (k : K) : M unit := n ← deref p; store p (with_key n k).
Definition set_item (p : ptr) (v : T) : M unit := n ← deref p; store p (with_item n v).
Definition set_left (p q : ptr) : M unit := n ← deref p; store p (with_left n q).
Definition set_right (p q : ptr) : M unit := n ← deref p; store p (with_right n q).
Definition set_parent (p q : ptr) : M unit := n ← deref p; store p (with_parent n q).
Definition set_height (p : ptr) (h : Z) : M unit := n ← deref p; store p (with_height n h).

Definition get_root : M ptr := λ m, Ok (root m, m).
Definition set_root (q : ptr) : M unit := λ m, Ok (tt, mkMap (nodes m) q (avlSize m)).

(** [++avlSize], [--avlSize] *)
Definition incr_size : M unit :=
  λ m, Ok (tt, mkMap (nodes m) (root m) (uint_incr (avlSize m))).
Definition decr_size : M unit :=
  λ m, Ok (tt, mkMap (nodes m) (root m) (uint_decr (avlSize m))).

(** [new AVLNode<K,T>(key, item, left, right, parent, height)] *)
Definition new_node (k : K) (v : T) (l r p : ptr) (h : Z) : M ptr :=
  λ m, let a := alloc (nodes m) in
       Ok (Some a, mkMap (<[a := mkNode k v l r p h]> (nodes m)) (root m) (avlSize m)).

(** [delete p], for a node whose [left] and [right] are [NULL]: the
    destructor has no child to delete. *)
Definition delete_node (p : ptr) : M unit :=
  λ m, match p with
       | None => Ok (tt, m)
       | Some a => match nodes m !! a with
                   | Some _ => Ok (tt, mkMap (delete a (nodes m)) (root m) (avlSize m))
                   | None => Err NullDeref
                   end
       end.

(** Fuel for one loop: no loop of the class visits a node twice. *)
Definition loop_fuel : M nat := λ m, Ok (S (size (nodes m)), m).

(** ** AVLNode *)

(** [AVLNode::childHeights] *)
Definition childHeights (node : ptr) : M (Z * Z) :=
  n ← deref node;
  lh ← match left n with
       | Some _ => l ← deref (left n); ret (height l)
       | None => ret (-1)
       end;
  rh ← match right n with
       | Some _ => r ← deref (right n); ret (height r)
       | None => ret (-1)
       end;
  ret (lh, rh).

(** [AVLNode::recalcHeight] *)
Definition recalcHeight (node : ptr) : M unit :=
  '(lh, rh) ← childHeights node;
  set_height node (1 + Z.max lh rh).

(** ** AVLMap *)

(** [AVLMap::AVLMap] *)
Definition empty_map : AVLMap := mkMap ∅ None 0.

(** The loop of [AVLMap::findNode]; returns [(node, parent)] at loop exit. *)
Fixpoint findNode_loop (fuel : nat) (k : K) (node par : ptr) : M (ptr * ptr) :=
  match node with
  | None => ret (node, par)
  | Some _ =>
      n ← deref node;
      if key_neq (key n) k then
        match fuel with
        | O => fail OutOfFuel
        | S fuel' =>
            if key_lt k (key n) then findNode_loop fuel' k (left n) node
            else findNode_loop fuel' k (right n) node
        end
      else ret (node, par)
  end.

(** [AVLMap::findNode] *)
Definition findNode (k : K) : M ptr :=
  fuel ← loop_fuel;
  rt ← get_root;
  '(node, par) ← findNode_loop fuel k rt None;
  match node with
  | None => ret par
  | Some _ => ret node
  end.

(** [AVLMap::rotateRight].  The source's [assert(left != NULL)] names no
    variable of the function; it compares the stream manipulator [std::left]
    with [NULL] and always holds. *)
Definition rotateRight (node : ptr) : M ptr :=
  n ← deref node;
  let lchild := left n in
  n ← deref node;
  match parent n with
  | Some _ =>
      n ← deref node;
      p ← deref (parent n);
      if ptr_eqb node (left p) then
        n ← deref node; set_left (parent n) lchild
      else
        n ← deref node; set_right (parent n) lchild
  | None => set_root lchild
  end;;
  n ← deref node;
  set_parent lchild (parent n);;
  set_parent node lchild;;
  l ← deref lchild;
  match right l with
  | Some _ => l ← deref lchild; set_parent (right l) node
  | None => ret tt
  end;;
  l ← deref lchild;
  set_left node (right l);;
  set_right lchild node;;
  recalcHeight node;;
  recalcHeight lchild;;
  ret lchild.

(** [AVLMap::rotateLeft] *)
Definition rotateLeft (node : ptr) : M ptr :=
  n ← deref node;
  let rchild := right n in
  n ← deref node;
  match parent n with
  | Some _ =>
      n ← deref node;
      p ← deref (parent n);
      if ptr_eqb node (left p) then
        n ← deref node; set_left (parent n) rchild
      else
        n ← deref node; set_right (parent n) rchild
  | None => set_root rchild
  end;;
  n ← deref node;
  set_parent rchild (parent n);;
  set_parent node rchild;;
  r ← deref rchild;
  match left r with
  | Some _ => r ← deref rchild; set_parent (left r) node
  | None => ret tt
  end;;
  r ← deref rchild;
  set_right node (left r);;
  set_left rchild node;;
  recalcHeight node;;
  recalcHeight rchild;;
  ret rchild.

(** One iteration of the loop of [AVLMap::fixUp] at a non-null [node];
    returns the value of [node] for the next iteration. *)
Definition fixUp_body (node : ptr) : M ptr :=
  recalcHeight node;;
  '(lh, rh) ← childHeights node;
  assert (Z.abs (lh - rh) <=? 2) AssertFixUp;;
  node ← (if lh =? rh + 2 then
            n ← deref node;
            let lchild := left n in
            '(llh, lrh) ← childHeights lchild;
            (if llh <? lrh then _ ← rotateLeft lchild; ret tt else ret tt);;
            rotateRight node
          else if lh + 2 =? rh then
            n ← deref node;
            let rchild := right n in
            '(rlh, rrh) ← childHeights rchild;
            (if rlh >? rrh then _ ← rotateRight rchild; ret tt else ret tt);;
            rotateLeft node
          else ret node);
  n ← deref node;
  ret (parent n).

Fixpoint fixUp_loop (fuel : nat) (node : ptr) : M unit :=
  match node with
  | None => ret tt
  | Some _ =>
      match fuel with
      | O => fail OutOfFuel
      | S fuel' => node' ← fixUp_body node; fixUp_loop fuel' node'
      end
  end.

(** [AVLMap::fixUp] *)
Definition fixUp (node : ptr) : M unit :=
  fuel ← loop_fuel;
  fixUp_loop fuel node.

(** [AVLMap::update] *)
Definition update (k : K) (v : T) : M unit :=
  node ← findNode k;
  absent ← match node with
           | None => ret true
           | Some _ => n ← deref node; ret (key_neq (key n) k)
           end;
  if absent : bool then
    newNode ← new_node k v None None node 0;
    match node with
    | None => set_root newNode
    | Some _ =>
        n ← deref node;
        if key_lt k (key n) then set_left node newNode
        else set_right node newNode
    end;;
    incr_size;;
    fixUp newNode
  else
    set_item node v.

(** [AVLMap::pluckNode] *)
Definition pluckNode (node : ptr) : M unit :=
  n ← deref node;
  child ← match left n with
          | Some _ =>
              n ← deref node;
              c ← deref (left n);
              assert (ptr_eqb (right c) None) AssertPluck;;
              ret (left n)
          | None => n ← deref node; ret (right n)
          end;
  n ← deref node;
  match parent n with
  | None => set_root child
  | Some _ =>
      n ← deref node;
      p ← deref (parent n);
      if ptr_eqb (left p) node then
        n ← deref node; set_left (parent n) child
      else
        n ← deref node; set_right (parent n) child
  end;;
  match child with
  | Some _ => n ← deref node; set_parent child (parent n)
  | None => ret tt
  end;;
  set_right node None;;
  set_left node None;;
  delete_node node;;
  decr_size.

(** The loop of [AVLMap::remove] that walks the right spine of the left
    subtree; returns [pluck]. *)
Fixpoint pluck_loop (fuel : nat) (tmp pluck : ptr) : M ptr :=
  match tmp with
  | None => ret pluck
  | Some _ =>
      match fuel with
      | O => fail OutOfFuel
      | S fuel' => t ← deref tmp; pluck_loop fuel' (right t) tmp
      end
  end.

(** The node [AVLMap::remove] hands to [pluckNode]. *)
Definition find_pluck (node : ptr) : M ptr :=
  n ← deref node;
  fuel ← loop_fuel;
  pluck_loop fuel (left n) node.

(** [AVLMap::remove] *)
Definition remove (k : K) : M unit :=
  node ← findNode k;
  present ← match node with
            | None => ret false
            | Some _ =>
                n ← deref node;
                ret (negb (key_lt (key n) k || key_lt k (key n)))
            end;
  assert present AssertRemove;;
  pluck ← find_pluck node;
  p ← deref pluck;
  set_key node (key p);;
  p ← deref pluck;
  set_item node (item p);;
  p ← deref pluck;
  let pluckParent := parent p in
  pluckNode pluck;;
  fixUp pluckParent.

(** [AVLMap::hasKey] *)
Definition hasKey (k : K) : M bool :=
  node ← findNode k;
  match node with
  | None => ret false
  | Some _ => n ← deref node; ret (negb (key_neq (key n) k))
  end.

(** [AVLMap::operator[]]; the reference returned is the address of the node
    whose [item] it designates. *)
Definition subscript (k : K) : M ptr :=
  b ← hasKey k;
  (if b : bool then ret tt else update k T_default);;
  node ← findNode k;
  _ ← deref node;
  ret node.

(** [AVLMap::at] *)
Definition at_ (k : K) : M T :=
  node ← findNode k;
  present ← match node with
            | None => ret false
            | Some _ => n ← deref node; ret (negb (key_neq (key n) k))
            end;
  assert present AssertAt;;
  n ← deref node;
  ret (item n).

(** [AVLMap::size] *)
Definition size_ : M Z := λ m, Ok (avlSize m, m).

(** ** AVLIterator *)

(** Walk [left] pointers as long as there is one. *)
Fixpoint leftmost_loop (fuel : nat) (node : ptr) : M ptr :=
  n ← deref node;
  match left n with
  | None => ret node
  | Some _ =>
      match fuel with
      | O => fail OutOfFuel
      | S fuel' => leftmost_loop fuel' (left n)
      end
  end.

(** [AVLIterator::AVLIterator(root)]; an iterator is its [node] field. *)
Definition iterator_at (rt : ptr) : M ptr :=
  match rt with
  | None => ret None
  | Some _ => fuel ← loop_fuel; leftmost_loop fuel rt
  end.

(** The [do ... while] loop of [AVLIterator::advance]. *)
Fixpoint climb_loop (fuel : nat) (node : ptr) : M ptr :=
  let old := node in
  n ← deref node;
  let node := parent n in
  match node with
  | None => ret node
  | Some _ =>
      p ← deref node;
      if ptr_eqb (right p) old then
        match fuel with
        | O => fail OutOfFuel
        | S fuel' => climb_loop fuel' node
        end
      else ret node
  end.

(** [AVLIterator::advance] *)
Definition advance (node : ptr) : M ptr :=
  assert (negb (ptr_eqb node None)) AssertAdvance;;
  n ← deref node;
  match right n with
  | Some _ => n ← deref node; fuel ← loop_fuel; leftmost_loop fuel (right n)
  | None => fuel ← loop_fuel; climb_loop fuel node
  end.

(** [AVLIterator::operator==] *)
Definition iter_eq (it1 it2 : ptr) : M bool := ret (ptr_eqb it1 it2).

(** [AVLIterator::key], [AVLIterator::item] *)
Definition iter_key (it : ptr) : M K := n ← deref it; ret (key n).
Definition iter_item (it : ptr) : M T := n ← deref it; ret (item n).

(** [AVLMap::begin], [AVLMap::end] *)
Definition begin_ : M ptr := rt ← get_root; iterator_at rt.
Definition end_ : M ptr := iterator_at None.

(** The traversal of [printTree]:
    [for (iter = tree.begin(); iter != tree.end(); ++iter)], collecting the
    entries it visits. *)
Fixpoint traverse_loop (fuel : nat) (it : ptr) : M (list (K * T)) :=
  e ← end_;
  b ← iter_eq it e;
  if b : bool then ret []
  else
    match fuel with
    | O => fail OutOfFuel
    | S fuel' =>
        k ← iter_key it;
        v ← iter_item it;
        it' ← advance it;
        rest ← traverse_loop fuel' it';
        ret ((k, v) :: rest)
    end.

Definition traverse : M (list (K * T)) :=
  fuel ← loop_fuel;
  it ← begin_;
  traverse_loop fuel it.

(** ** Reachable states *)

(** Assignment through the reference [operator[]] returns, or through
    [AVLIterator::item()]: [ref = v]. *)
Definition assign_item (it : ptr) (v : T) : M unit := set_item it v.

(** The states of a map object: the empty map of the constructor, and every
    state a returning call of a mutating member function or an assignment
    through an item reference leaves. *)
Inductive reachable : AVLMap → Prop :=
| reach_empty : reachable empty_map
| reach_update m k v m' :
    reachable m → update k v m = Ok (tt, m') → reachable m'
| reach_remove m k m' :
    reachable m → remove k m = Ok (tt, m') → reachable m'
| reach_subscript m k p m' :
    reachable m → subscript k m = Ok (p, m') → reachable m'
| reach_assign m p v m' :
    reachable m → assign_item p v m = Ok (tt, m') → reachable m'.

(** ** The destructors *)

(** [delete p] for a non-null [p]: [AVLNode::~AVLNode] deletes the left and
    then the right subtree, and the node is released.  The fuel bounds the
    depth of the recursion. *)
Fixpoint AVLNode_delete (fuel : nat) (p : ptr) : M unit :=
  match fuel with
  | O => fail OutOfFuel
  | S fuel' =>
      n ← deref p;
      match left n with
      | Some _ => n ← deref p; AVLNode_delete fuel' (left n)
      | None => ret tt
      end;;
      n ← deref p;
      match right n with
      | Some _ => n ← deref p; AVLNode_delete fuel' (right n)
      | None => ret tt
      end;;
      delete_node p
  end.

Definition set_size (n : Z) : M unit :=
  λ m, Ok (tt, mkMap (nodes m) (root m) n).

(** [AVLMap::~AVLMap] *)
Definition AVLMap_destroy : M unit :=
  rt ← get_root;
  match rt with
  | Some _ =>
      fuel ← loop_fuel;
      rt ← get_root;
      AVLNode_delete fuel rt;;
      set_root None;;
      set_size 0
  | None => ret tt
  end.

(** ** The driver

    [printTree] and [main], which the source instantiates at
    [AVLMap<string, int>].  What the extractions [cin >> ...] of one
    iteration of the loop of [main] deliver is an [input]; what an output
    statement sends to [cout] is an [output]. *)

Inductive input :=
| InS                            (* 'S' *)
| InU (name : K) (grade : T)     (* 'U', then name and grade *)
| InF (name : K)                 (* 'F', then name *)
| InR (name : K)                 (* 'R', then name *)
| InP                            (* 'P' *)
| InQ                            (* 'Q' *)
| InOther.                       (* any other character *)

Inductive output :=
| OutSize (n : Z)                (* tree.size() *)
| OutFound (name : K) (grade : T)  (* name, found with grade, tree[name] *)
| OutNotFound (name : K)         (* name, not found *)
| OutPrinting                    (* Printing *)
| OutEntry (k : K) (v : T)       (* one line of printTree: key and item *)
| OutEndl                        (* the empty line that ends printTree *)
| OutStopping                    (* stopping *)
| OutUsage.                      (* invalid command, and the list of commands *)

(** A computation of the driver: what it printed, and its result or the
    error it ended on. *)
Definition IO (A : Type) : Type := AVLMap → list output * res (A * AVLMap).

Definition io_ret {A} (a : A) : IO A := λ m, ([], Ok (a, m)).

Definition io_bind {A B} (c : IO A) (f : A → IO B) : IO B :=
  λ m, match c m with
       | (o, Ok (a, m')) => let '(o', r) := f a m' in (o ++ o', r)
       | (o, Err e) => (o, Err e)
       end.

#[export] Instance IO_ret : MRet IO := @io_ret.
#[export] Instance IO_bind : MBind IO := λ A B f c, io_bind c f.

(** A call of a member function. *)
Definition call {A} (c : M A) : IO A := λ m, ([], c m).

(** [cout << ...] *)
Definition print (o : output) : IO unit := λ m, ([o], Ok (tt, m)).

(** [AVLIterator::operator!=] *)
Definition iter_neq (it1 it2 : ptr) : M bool := ret (negb (ptr_eqb it1 it2)).

(** [AVLIterator::operator++()], the prefix operator; the iterator it
    returns is a copy of the one advanced. *)
Definition iter_incr (it : ptr) : M ptr := advance it.

(** The loop of [printTree]. *)
Fixpoint printTree_loop (fuel : nat) (iter : ptr) : IO unit :=
  e ← call end_;
  b ← call (iter_neq iter e);
  if b : bool then
    match fuel with
    | O => call (fail OutOfFuel)
    | S fuel' =>
        k ← call (iter_key iter);
        v ← call (iter_item iter);
        print (OutEntry k v);;
        iter ← call (iter_incr iter);
        printTree_loop fuel' iter
    end
  else mret tt.

(** [printTree] *)
Definition printTree : IO unit :=
  fuel ← call loop_fuel;
  iter ← call begin_;
  printTree_loop fuel iter;;
  print OutEndl.

(** One iteration of the loop of [main]; [true] is [return 0]. *)
Definition main_step (i : input) : IO bool :=
  match i with
  | InS =>
      n ← call size_;
      print (OutSize n);;
      mret false
  | InU name grade =>
      p ← call (subscript name);
      call (assign_item p grade);;
      mret false
  | InF name =>
      b ← call (hasKey name);
      (if b : bool then
         p ← call (subscript name);
         v ← call (iter_item p);
         print (OutFound name v)
       else print (OutNotFound name));;
      mret false
  | InR name =>
      b ← call (hasKey name);
      (if negb b then print (OutNotFound name) else mret tt);;
      call (remove name);;
      mret false
  | InP =>
      print OutPrinting;;
      printTree;;
      mret false
  | InQ =>
      print OutStopping;;
      mret true
  | InOther =>
      print OutUsage;;
      mret false
  end.

(** How a run of [main] goes:
    - [Exited m]: it returned on [Q], and the destructor of [tree] left the
      state [m];
    - [Aborted e]: an assertion stopped it;
    - [Undefined m]: in state [m] the extraction [cin >> cmd] failed (the
      input ended, or an earlier extraction left the stream failed).
      [main] never tests [cin]: it goes on with a [cmd] that holds no value
      read, and the source does not determine what the run does from
      there. *)
Inductive outcome :=
| Exited (m : AVLMap)
| Aborted (e : error)
| Undefined (m : AVLMap).

(** The loop of [main].  [ins] lists, iteration by iteration, what the
    extractions delivered, up to the first iteration in which [cin >> cmd]
    fails. *)
Fixpoint main_loop (ins : list input) (m : AVLMap) : list output * outcome :=
  match ins with
  | [] => ([], Undefined m)
  | i :: ins' =>
      match main_step i m with
      | (o, Ok (true, m')) =>
          match AVLMap_destroy m' with
          | Ok (_, m'') => (o, Exited m'')
          | Err e => (o, Aborted e)
          end
      | (o, Ok (false, m')) =>
          let '(o', r) := main_loop ins' m' in (o ++ o', r)
      | (o, Err e) => (o, Aborted e)
      end
  end.

(** [main] on an input whose extractions deliver [ins] and then fail:
    [AVLMap<string, int> tree;] and then the loop. *)
Definition main (ins : list input) : list output * outcome :=
  main_loop ins empty_map.

(** ** Properties of a store, read off the pointers *)

(** [subtree_height h p z]: the tree hanging from [p] has height [z]; an
    absent child has height -1. *)
Inductive subtree_height (h : gmap loc AVLNode) : ptr → Z → Prop :=
| sh_null : subtree_height h None (-1)
| sh_node a n hl hr :
    h !! a = Some n →
    subtree_height h (left n) hl →
    subtree_height h (right n) hr →
    subtree_height h (Some a) (1 + Z.max hl hr).

(** [inorder h p es]: [es] lists the entries of the tree hanging from [p],
    left subtree, node, right subtree. *)
Inductive inorder (h : gmap loc AVLNode) : ptr → list (K * T) → Prop :=
| io_null : inorder h None []
| io_node a n el er :
    h !! a = Some n →
    inorder h (left n) el →
    inorder h (right n) er →
    inorder h (Some a) (el ++ (key n, item n) :: er).

(** [reaches h p a]: node [a] is in the tree hanging from [p]. *)
Inductive reaches (h : gmap loc AVLNode) : ptr → loc → Prop :=
| reaches_here a n : h !! a = Some n → reaches h (Some a) a
| reaches_left a n b : h !! a = Some n → reaches h (left n) b → reaches h (Some a) b
| reaches_right a n b : h !! a = Some n → reaches h (right n) b → reaches h (Some a) b.

Definition klt (a b : K) : Prop := key_lt a b = true.

(** ** The tree a store represents *)

Inductive tree :=
| Leaf
| Node (l : tree) (a : loc) (k : K) (v : T) (h : Z) (r : tree).

Definition root_ptr (t : tree) : ptr :=
  match t with Leaf => None | Node _ a _ _ _ _ => Some a end.

(** The height a node records; -1 for no node. *)
Definition rheight (t : tree) : Z :=
  match t with Leaf => -1 | Node _ _ _ _ h _ => h end.

Fixpoint addrs (t : tree) : gset loc :=
  match t with
  | Leaf => ∅
  | Node l a _ _ _ r => {[a]} ∪ addrs l ∪ addrs r
  end.

Fixpoint addr_list (t : tree) : list loc :=
  match t with
  | Leaf => []
  | Node l a _ _ _ r => addr_list l ++ a :: addr_list r
  end.

Fixpoint entries (t : tree) : list (K * T) :=
  match t with
  | Leaf => []
  | Node l _ k v _ r => entries l ++ (k, v) :: entries r
  end.

Fixpoint count (t : tree) : nat :=
  match t with
  | Leaf => O
  | Node l _ _ _ _ r => S (count l + count r)
  end.

Fixpoint depth (t : tree) : nat :=
  match t with
  | Leaf => O
  | Node l _ _ _ _ r => S (depth l `max` depth r)
  end.

Fixpoint distinct (t : tree) : Prop :=
  match t with
  | Leaf => True
  | Node l a _ _ _ r =>
      (a ∉ addrs l) ∧ (a ∉ addrs r) ∧ (addrs l ## addrs r) ∧ distinct l ∧ distinct r
  end.

(** The store holds the nodes of [t], linked as [t] says, under parent [par]. *)
Fixpoint tree_wf (h : gmap loc AVLNode) (par : ptr) (t : tree) : Prop :=
  match t with
  | Leaf => True
  | Node l a k v ht r =>
      h !! a = Some (mkNode k v (root_ptr l) (root_ptr r) par ht)
      ∧ tree_wf h (Some a) l ∧ tree_wf h (Some a) r
  end.

Record Rep (m : AVLMap) (t : tree) : Prop := mkRep {
  rep_wf : tree_wf (nodes m) None t;
  rep_root : root m = root_ptr t;
  rep_distinct : distinct t;
  rep_dom : dom (nodes m) = addrs t;
  rep_size : avlSize m = Z.of_nat (count t) mod UINT_MOD
}.

(** Recorded heights are right and every node is balanced. *)
Fixpoint avl (t : tree) : Prop :=
  match t with
  | Leaf => True
  | Node l _ _ _ h r =>
      avl l ∧ avl r ∧ h = 1 + Z.max (rheight l) (rheight r)
      ∧ Z.abs (rheight l - rheight r) ≤ 1
  end.

Definition keys (t : tree) : list K := (entries t).*1.

(** Entries by key. *)
Definition elt (e1 e2 : K * T) : Prop := klt e1.1 e2.1.

(** The binary-search-tree order: the in-order list of entries ascends. *)
Definition bst (t : tree) : Prop := StronglySorted elt (entries t).

(** *** Positions in a tree *)

Inductive frame :=
| FL (a : loc) (k : K) (v : T) (h : Z) (r : tree)   (* the hole is the left child *)
| FR (l : tree) (a : loc) (k : K) (v : T) (h : Z).  (* the hole is the right child *)

Definition plug_frame (f : frame) (s : tree) : tree :=
  match f with
  | FL a k v h r => Node s a k v h r
  | FR l a k v h => Node l a k v h s
  end.

(** A context lists the frames from the hole up to the root. *)
Fixpoint plug (c : list frame) (s : tree) : tree :=
  match c with
  | [] => s
  | f :: c' => plug c' (plug_frame f s)
  end.

Definition faddr (f : frame) : loc :=
  match f with FL a _ _ _ _ => a | FR _ a _ _ _ => a end.

Definition fheight (f : frame) : Z :=
  match f with FL _ _ _ h _ => h | FR _ _ _ _ h => h end.

Definition fsibling (f : frame) : tree :=
  match f with FL _ _ _ _ r => r | FR l _ _ _ _ => l end.

Definition cpar (c : list frame) : ptr :=
  match c with [] => None | f :: _ => Some (faddr f) end.

Fixpoint croot (c : list frame) (p : ptr) : ptr :=
  match c with [] => p | f :: c' => croot c' (Some (faddr f)) end.

Fixpoint caddrs (c : list frame) : gset loc :=
  match c with
  | [] => ∅
  | f :: c' => {[faddr f]} ∪ addrs (fsibling f) ∪ caddrs c'
  end.

Fixpoint ccount (c : list frame) : nat :=
  match c with
  | [] => O
  | f :: c' => S (count (fsibling f) + ccount c')
  end.

Fixpoint cdistinct (c : list frame) : Prop :=
  match c with
  | [] => True
  | f :: c' =>
      (faddr f ∉ addrs (fsibling f)) ∧ distinct (fsibling f)
      ∧ (faddr f ∉ caddrs c') ∧ (addrs (fsibling f) ## caddrs c') ∧ cdistinct c'
  end.

Definition frame_wf (h : gmap loc AVLNode) (f : frame) (p par : ptr) : Prop :=
  match f with
  | FL a k v ht r =>
      h !! a = Some (mkNode k v p (root_ptr r) par ht) ∧ tree_wf h (Some a) r
  | FR l a k v ht =>
      h !! a = Some (mkNode k v (root_ptr l) p par ht) ∧ tree_wf h (Some a) l
  end.

(** The store holds the nodes of the context, with [p] in the hole. *)
Fixpoint ctx_wf (h : gmap loc AVLNode) (c : list frame) (p : ptr) : Prop :=
  match c with
  | [] => True
  | f :: c' => frame_wf h f p (cpar c') ∧ ctx_wf h c' (Some (faddr f))
  end.

(** Entries before and after the hole, in order. *)
Fixpoint ebefore (c : list frame) : list (K * T) :=
  match c with
  | [] => []
  | FL _ _ _ _ _ :: c' => ebefore c'
  | FR l _ k v _ :: c' => ebefore c' ++ entries l ++ [(k, v)]
  end.

Fixpoint eafter (c : list frame) : list (K * T) :=
  match c with
  | [] => []
  | FL _ k v _ r :: c' => (k, v) :: entries r ++ eafter c'
  | FR _ _ _ _ _ :: c' => eafter c'
  end.

(** A context of balanced frames around a hole that held height [h0]. *)
Fixpoint cavl (c : list frame) (h0 : Z) : Prop :=
  match c with
  | [] => True
  | f :: c' =>
      avl (fsibling f) ∧ Z.abs (h0 - rheight (fsibling f)) ≤ 1
      ∧ fheight f = 1 + Z.max h0 (rheight (fsibling f))
      ∧ cavl c' (fheight f)
  end.

(** *** The operations on trees *)

(** The descent of [findNode]. *)
Fixpoint descend (k : K) (c : list frame) (t : tree) : list frame * tree :=
  match t with
  | Leaf => (c, Leaf)
  | Node l a k' v h r =>
      if key_neq k' k then
        if key_lt k k' then descend k (FL a k' v h r :: c) l
        else descend k (FR l a k' v h :: c) r
      else (c, t)
  end.

Definition rot_right (s : tree) : option tree :=
  match s with
  | Node (Node ll la kl vl _ lr) a k v _ r =>
      let h' := 1 + Z.max (rheight lr) (rheight r) in
      Some (Node ll la kl vl (1 + Z.max (rheight ll) h') (Node lr a k v h' r))
  | _ => None
  end.

Definition rot_left (s : tree) : option tree :=
  match s with
  | Node l a k v _ (Node rl ra kr vr _ rr) =>
      let h' := 1 + Z.max (rheight l) (rheight rl) in
      Some (Node (Node l a k v h' rl) ra kr vr (1 + Z.max h' (rheight rr)) rr)
  | _ => None
  end.

(** One iteration of [fixUp] at the root of [s]. *)
Definition fix_tree (s : tree) : option tree :=
  match s with
  | Leaf => None
  | Node l a k v _ r =>
      let lh := rheight l in
      let rh := rheight r in
      let hn := 1 + Z.max lh rh in
      if Z.abs (lh - rh) <=? 2 then
        if lh =? rh + 2 then
          match l with
          | Leaf => None
          | Node ll _ _ _ _ lr =>
              l' ← (if rheight ll <? rheight lr then rot_left l else Some l);
              rot_right (Node l' a k v hn r)
          end
        else if lh + 2 =? rh then
          match r with
          | Leaf => None
          | Node rl _ _ _ _ rr =>
              r' ← (if rheight rl >? rheight rr then rot_right r else Some r);
              rot_left (Node l a k v hn r')
          end
        else Some (Node l a k v hn r)
      else None
  end.

(** [fixUp] from the root of [s] in context [c], up to the root. *)
Fixpoint fixup_tree (c : list frame) (s : tree) : option tree :=
  s' ← fix_tree s;
  match c with
  | [] => Some s'
  | f :: c' => fixup_tree c' (plug_frame f s')
  end.

(** [fixUp] from the parent of the hole. *)
Definition fixup_above (c : list frame) (s : tree) : option tree :=
  match c with
  | [] => Some s
  | f :: c' => fixup_tree c' (plug_frame f s)
  end.

(** [update], with [anew] the address [new] returns. *)
Definition update_tree (anew : loc) (k : K) (v : T) (t : tree) : option tree :=
  let '(c, s) := descend k [] t in
  match s with
  | Node l a k' _ h r => Some (plug c (Node l a k' v h r))
  | Leaf => fixup_tree c (Node Leaf anew k v 0 Leaf)
  end.

(** The walk down the right spine in [remove]. *)
Fixpoint descend_max (c : list frame) (t : tree) : list frame * tree :=
  match t with
  | Leaf => (c, Leaf)
  | Node l a k v h r =>
      match r with
      | Leaf => (c, t)
      | Node _ _ _ _ _ _ => descend_max (FR l a k v h :: c) r
      end
  end.

(** What [pluckNode] leaves in the place of the node it deletes; nothing
    when its assertion fails or the node has two children. *)
Definition pluck_tree (s : tree) : option tree :=
  match s with
  | Leaf => None
  | Node Leaf _ _ _ _ r => Some r
  | Node (Node _ _ _ _ _ Leaf as l) _ _ _ _ Leaf => Some l
  | Node _ _ _ _ _ _ => None
  end.

(** [remove] *)
Definition remove_tree (k : K) (t : tree) : option tree :=
  let '(c, s) := descend k [] t in
  match s with
  | Leaf => None
  | Node Leaf _ _ _ _ _ => s' ← pluck_tree s; fixup_above c s'
  | Node l a _ _ h r =>
      let '(cs, p) := descend_max [] l in
      match p with
      | Leaf => None
      | Node _ _ kp vp _ _ =>
          s' ← pluck_tree p; fixup_above (cs ++ FL a kp vp h r :: c) s'
      end
  end.

(** The nodes in order: address and entry. *)
Fixpoint inodes (t : tree) : list (loc * (K * T)) :=
  match t with
  | Leaf => []
  | Node l a k v _ r => inodes l ++ (a, (k, v)) :: inodes r
  end.

Fixpoint ibefore (c : list frame) : list (loc * (K * T)) :=
  match c with
  | [] => []
  | FL _ _ _ _ _ :: c' => ibefore c'
  | FR l a k v _ :: c' => ibefore c' ++ inodes l ++ [(a, (k, v))]
  end.

Fixpoint iafter (c : list frame) : list (loc * (K * T)) :=
  match c with
  | [] => []
  | FL a k v _ r :: c' => (a, (k, v)) :: inodes r ++ iafter c'
  | FR _ _ _ _ _ :: c' => iafter c'
  end.

(** The node [AVLIterator(root)] stops on. *)
Fixpoint first_addr (t : tree) : ptr :=
  match t with
  | Leaf => None
  | Node l a _ _ _ _ =>
      match l with
      | Leaf => Some a
      | Node _ _ _ _ _ _ => first_addr l
      end
  end.

(** The node the climb of [advance] stops on. *)
Fixpoint climb (c : list frame) : ptr :=
  match c with
  | [] => None
  | FL a _ _ _ _ :: _ => Some a
  | FR _ _ _ _ _ :: c' => climb c'
  end.

(** The item the descent for [k] ends on. *)
Definition tree_find (k : K) (t : tree) : option T :=
  match (descend k [] t).2 with
  | Leaf => None
  | Node _ _ _ v _ _ => Some v
  end.

(** The invariant of the class: the store represents a balanced search tree. *)
Definition Inv (m : AVLMap) (t : tree) : Prop := Rep m t ∧ avl t ∧ bst t.

(** What [fixUp] needs at the root of [s], a subtree in a place that held
    height [h0]: balanced children whose heights differ by at most 2, and a
    height after the iteration within 1 of [h0]. *)
Definition fix_pre (s : tree) (h0 : Z) : Prop :=
  match s with
  | Leaf => False
  | Node l _ _ _ _ r =>
      let lh := rheight l in
      let rh := rheight r in
      avl l ∧ avl r ∧
      ((Z.abs (lh - rh) ≤ 1 ∧ Z.abs (1 + Z.max lh rh - h0) ≤ 1)
       ∨ (Z.abs (lh - rh) = 2 ∧ (h0 = 1 + Z.max lh rh ∨ h0 = Z.max lh rh)))
  end.

(** [wp c m Q]: from [m], [c] returns, with a result and a state in [Q]. *)
Definition wp {A} (c : M A) (m : AVLMap) (Q : A → AVLMap → Prop) : Prop :=
  ∃ a m', c m = Ok (a, m') ∧ Q a m'.

(** The pointer [findNode] returns, from where the descent ends. *)
Definition found_ptr (cs : list frame * tree) : ptr :=
  match cs.2 with
  | Leaf => cpar cs.1
  | Node _ a _ _ _ _ => Some a
  end.

(** A frame the descent for [k] went through. *)
Definition fgood (k : K) (f : frame) : Prop :=
  match f with
  | FL _ k' _ _ _ => key_neq k' k = true ∧ key_lt k k' = true
  | FR _ _ k' _ _ => key_neq k' k = true ∧ key_lt k k' = false
  end.

(** The key order on the nodes in order. *)
Definition ilt (x y : loc * (K * T)) : Prop := klt x.2.1 y.2.1.

(** ** Running a call

    [exec c m] is the state a call leaves: the state it returns, and [m]
    itself when the call ends on an error. *)
Definition exec {A} (c : M A) (m : AVLMap) : AVLMap :=
  match c m with
  | Ok (_, m') => m'
  | Err _ => m
  end.

(** ** Nodes that stay in place

    [keeps_data m m']: every node of [m] is still allocated in [m'], at the
    same address and with the same key and item. *)
Definition keeps_data (m m' : AVLMap) : Prop :=
  ∀ a n, nodes m !! a = Some n →
         ∃ n', nodes m' !! a = Some n' ∧ key n' = key n ∧ item n' = item n.

(** A computation that, when it returns, has kept the nodes in place. *)
Definition data_safe {A} (c : M A) : Prop :=
  ∀ m a m', c m = Ok (a, m') → keeps_data m m'.

(** * Proofs *)

Context {KL : KeyLaws K}.

(** ** Running the monad *)

Lemma bind_Ok {A B} (c : M A) (f : A → M B) m a m' :
  c m = Ok (a, m') → (x ← c; f x) m = f a m'.
Proof. intros E. unfold mbind, M_bind, bind. by rewrite E. Qed.

Lemma bind_Err {A B} (c : M A) (f : A → M B) m e :
  c m = Err e → (x ← c; f x) m = Err e.
Proof. intros E. unfold mbind, M_bind, bind. by rewrite E. Qed.

Lemma deref_Ok h rt sz a n :
  h !! a = Some n → deref (Some a) (mkMap h rt sz) = Ok (n, mkMap h rt sz).
Proof. intros E. unfold deref. simpl. by rewrite E. Qed.

Lemma store_Ok h rt sz a n0 n :
  h !! a = Some n0 →
  store (Some a) n (mkMap h rt sz) = Ok (tt, mkMap (<[a := n]> h) rt sz).
Proof. intros E. unfold store. simpl. by rewrite E. Qed.

Lemma uint_incr_of_nat sz n :
  sz = Z.of_nat n mod UINT_MOD → uint_incr sz = Z.of_nat (S n) mod UINT_MOD.
Proof.
  intros ->. unfold uint_incr. rewrite Zplus_mod_idemp_l. f_equal. lia.
Qed.

Lemma uint_decr_of_nat sz n :
  sz = Z.of_nat (S n) mod UINT_MOD → uint_decr sz = Z.of_nat n mod UINT_MOD.
Proof.
  intros ->. unfold uint_decr. rewrite Zminus_mod_idemp_l. f_equal. lia.
Qed.

(** ** Trees and contexts *)

Lemma addrs_plug c s : addrs (plug c s) = addrs s ∪ caddrs c.
Proof.
  revert s. induction c as [|f c IH]; intros s; simpl.
  - set_solver.
  - rewrite IH. destruct f; simpl; set_solver.
Qed.

Lemma count_plug c s : count (plug c s) = (count s + ccount c)%nat.
Proof.
  revert s. induction c as [|f c IH]; intros s; simpl; [lia|].
  rewrite IH. destruct f; simpl; lia.
Qed.

Lemma root_ptr_plug c s : root_ptr (plug c s) = croot c (root_ptr s).
Proof.
  revert s. induction c as [|f c IH]; intros s; simpl; [done|].
  rewrite IH. by destruct f.
Qed.

Lemma entries_plug c s :
  entries (plug c s) = ebefore c ++ entries s ++ eafter c.
Proof.
  revert s. induction c as [|f c IH]; intros s; simpl.
  - by rewrite app_nil_r.
  - rewrite IH. destruct f; simpl; by rewrite <- ?app_assoc.
Qed.

Lemma distinct_plug c s :
  distinct (plug c s) ↔ distinct s ∧ cdistinct c ∧ addrs s ## caddrs c.
Proof.
  revert s. induction c as [|f c IH]; intros s; simpl.
  - set_solver.
  - rewrite IH. destruct f; simpl; set_solver.
Qed.

Lemma tree_wf_plug h c s :
  tree_wf h None (plug c s) ↔ ctx_wf h c (root_ptr s) ∧ tree_wf h (cpar c) s.
Proof.
  revert s. induction c as [|f c IH]; intros s; simpl.
  - tauto.
  - rewrite IH. destruct f; simpl; tauto.
Qed.

Lemma tree_wf_insert h par t a n :
  a ∉ addrs t → tree_wf h par t → tree_wf (<[a := n]> h) par t.
Proof.
  revert par. induction t as [|l IHl b k v ht r IHr]; intros par Hn; simpl; [done|].
  simpl in Hn. intros (E & Hl & Hr). split_and!.
  - rewrite lookup_insert_ne; [done|set_solver].
  - apply IHl; [set_solver|done].
  - apply IHr; [set_solver|done].
Qed.

Lemma tree_wf_delete h par t a :
  a ∉ addrs t → tree_wf h par t → tree_wf (delete a h) par t.
Proof.
  revert par. induction t as [|l IHl b k v ht r IHr]; intros par Hn; simpl; [done|].
  simpl in Hn. intros (E & Hl & Hr). split_and!.
  - rewrite lookup_delete_ne; [done|set_solver].
  - apply IHl; [set_solver|done].
  - apply IHr; [set_solver|done].
Qed.

Lemma ctx_wf_insert h c p a n :
  a ∉ caddrs c → ctx_wf h c p → ctx_wf (<[a := n]> h) c p.
Proof.
  revert p. induction c as [|f c IH]; intros p Hn; simpl; [done|].
  simpl in Hn. intros (Hf & Hc). split.
  - destruct f; simpl in *; destruct Hf as [E Hs]; split.
    + rewrite lookup_insert_ne; [done|set_solver].
    + apply tree_wf_insert; [set_solver|done].
    + rewrite lookup_insert_ne; [done|set_solver].
    + apply tree_wf_insert; [set_solver|done].
  - apply IH; [set_solver|done].
Qed.

Lemma ctx_wf_delete h c p a :
  a ∉ caddrs c → ctx_wf h c p → ctx_wf (delete a h) c p.
Proof.
  revert p. induction c as [|f c IH]; intros p Hn; simpl; [done|].
  simpl in Hn. intros (Hf & Hc). split.
  - destruct f; simpl in *; destruct Hf as [E Hs]; split.
    + rewrite lookup_delete_ne; [done|set_solver].
    + apply tree_wf_delete; [set_solver|done].
    + rewrite lookup_delete_ne; [done|set_solver].
    + apply tree_wf_delete; [set_solver|done].
  - apply IH; [set_solver|done].
Qed.

Lemma root_ptr_Some t a : root_ptr t = Some a → a ∈ addrs t.
Proof. destruct t; simpl; [done|]. intros [= ->]. set_solver. Qed.

(** What [Rep] says at a position. *)
Lemma Rep_plug m c s :
  Rep m (plug c s) ↔
    ctx_wf (nodes m) c (root_ptr s) ∧ tree_wf (nodes m) (cpar c) s
    ∧ root m = croot c (root_ptr s)
    ∧ (distinct s ∧ cdistinct c ∧ addrs s ## caddrs c)
    ∧ dom (nodes m) = addrs s ∪ caddrs c
    ∧ avlSize m = Z.of_nat (count s + ccount c) mod UINT_MOD.
Proof.
  split.
  - intros [Hw Hr Hd Hdom Hsz].
    rewrite tree_wf_plug in Hw. rewrite root_ptr_plug in Hr.
    rewrite distinct_plug in Hd. rewrite addrs_plug in Hdom.
    rewrite count_plug in Hsz. tauto.
  - intros (Hc & Hw & Hr & Hd & Hdom & Hsz). split.
    + rewrite tree_wf_plug. tauto.
    + by rewrite root_ptr_plug.
    + by rewrite distinct_plug.
    + by rewrite addrs_plug.
    + by rewrite count_plug.
Qed.

Ltac unfold_m :=
  unfold set_key, set_item, set_left, set_right, set_parent, set_height,
    get_root, set_root, incr_size, decr_size, new_node, delete_node,
    loop_fuel, assert, fail, mbind, M_bind, bind, mret, M_ret, ret,
    deref, store in *.

(** Resolve the lookups of the goal in a store built by insertions. *)
Ltac lookups :=
  simpl;
  repeat (first
    [ rewrite lookup_insert_eq
    | rewrite lookup_insert_ne by congruence
    | rewrite lookup_delete_ne by congruence
    | match goal with
      | E : ?h !! ?a = Some _ |- context [?h !! ?a] => rewrite E
      end ];
    simpl).

(** Break the facts on addresses into facts on single addresses and on the
    address sets of whole subtrees. *)
Ltac addr_norm_hyps :=
  repeat match goal with
  | Hx : _ ∧ _ |- _ => destruct Hx
  | Hx : True |- _ => clear Hx
  | Hx : _ ∉ ∅ |- _ => clear Hx
  | Hx : ∅ ## _ |- _ => clear Hx
  | Hx : _ ## ∅ |- _ => clear Hx
  | Hx : _ ∉ _ ∪ _ |- _ => apply not_elem_of_union in Hx
  | Hx : _ ∪ _ ## _ |- _ => apply disjoint_union_l in Hx
  | Hx : _ ## _ ∪ _ |- _ => apply disjoint_union_r in Hx
  | Hx : {[_]} ## _ |- _ => apply disjoint_singleton_l in Hx
  | Hx : _ ## {[_]} |- _ => apply disjoint_singleton_r in Hx
  | Hx : _ ∉ {[_]} |- _ => apply not_elem_of_singleton in Hx
  end.

Ltac addr_solve :=
  repeat match goal with
  | |- _ ∧ _ => split
  | |- True => exact I
  | |- _ ∉ ∅ => apply not_elem_of_empty
  | |- ∅ ## _ => apply disjoint_empty_l
  | |- _ ## ∅ => apply disjoint_empty_r
  | |- _ ∉ _ ∪ _ => apply not_elem_of_union
  | |- _ ∪ _ ## _ => apply disjoint_union_l
  | |- _ ## _ ∪ _ => apply disjoint_union_r
  | |- {[_]} ## _ => apply disjoint_singleton_l
  | |- _ ## {[_]} => apply disjoint_singleton_r
  | |- _ ∉ {[_]} => apply not_elem_of_singleton
  end;
  first [ assumption | by symmetry | congruence ].

(** Close one conjunct of a [Rep] goal over a store built by insertions. *)
Ltac rep_side :=
  simpl;
  lazymatch goal with
  | |- tree_wf (<[_ := _]> _) _ _ =>
      first [ apply tree_wf_insert; [addr_solve | rep_side] | simpl; split_and!; rep_side ]
  | |- tree_wf (delete _ _) _ _ => apply tree_wf_delete; [addr_solve | rep_side]
  | |- ctx_wf (delete _ _) _ _ => apply ctx_wf_delete; [addr_solve | rep_side]
  | |- tree_wf _ _ _ => first [ done | simpl; split_and!; rep_side ]
  | |- ctx_wf (<[_ := _]> _) _ _ =>
      first [ apply ctx_wf_insert; [addr_solve | rep_side] | simpl; split_and!; rep_side ]
  | |- ctx_wf _ _ _ => first [ done | simpl; split_and!; rep_side ]
  | |- _ !! _ = Some _ => by lookups
  | |- dom (delete _ _) = _ =>
      rewrite dom_delete_L, ?dom_insert_L;
      match goal with Hd : dom _ = _ |- _ => rewrite Hd end;
      repeat match goal with
             | Hx : tree_wf _ _ _ |- _ => clear Hx
             | Hx : ctx_wf _ _ _ |- _ => clear Hx
             | Hx : _ !! _ = _ |- _ => clear Hx
             | Hx : distinct _ |- _ => clear Hx
             | Hx : cdistinct _ |- _ => clear Hx
             end;
      set_solver
  | |- dom _ = _ =>
      rewrite ?dom_insert_L;
      match goal with Hd : dom _ = _ |- _ => rewrite Hd end;
      repeat match goal with Hx : _ |- _ => clear Hx end;
      set_solver
  | |- uint_incr _ = Z.of_nat _ mod UINT_MOD =>
      first [ erewrite uint_incr_of_nat by eassumption; f_equal; lia
            | apply uint_incr_of_nat; f_equal; lia ]
  | |- uint_decr _ = Z.of_nat _ mod UINT_MOD =>
      first [ eapply uint_decr_of_nat; etrans; [eassumption|]; f_equal; lia
            | apply uint_decr_of_nat; f_equal; lia ]
  | |- _ = Z.of_nat _ mod UINT_MOD =>
      first [ done | etrans; [eassumption|]; f_equal; lia ]
  | |- _ ∉ _ => addr_solve
  | |- _ ## _ => addr_solve
  | |- distinct _ => first [ done | simpl; split_and!; rep_side ]
  | |- cdistinct _ => first [ done | simpl; split_and!; rep_side ]
  | |- _ => first [ done | congruence | lia ]
  end.

Lemma childHeights_wf h rt sz par l a k v ht r :
  tree_wf h par (Node l a k v ht r) →
  childHeights (Some a) (mkMap h rt sz)
  = Ok ((rheight l, rheight r), mkMap h rt sz).
Proof.
  simpl. intros (Ea & Hl & Hr). unfold childHeights. unfold_m. simpl.
  rewrite Ea. simpl.
  destruct l, r; simpl in *; destruct_and?; lookups; done.
Qed.

Lemma recalcHeight_wf h rt sz par l a k v ht r :
  tree_wf h par (Node l a k v ht r) →
  recalcHeight (Some a) (mkMap h rt sz)
  = Ok (tt, mkMap (<[a := mkNode k v (root_ptr l) (root_ptr r) par
                           (1 + Z.max (rheight l) (rheight r))]> h) rt sz).
Proof.
  intros Hw. unfold recalcHeight.
  erewrite bind_Ok by (by eapply childHeights_wf).
  simpl in Hw. destruct Hw as (Ea & _). unfold_m. by lookups.
Qed.

(** Writing the data fields of the node at a position. *)
Lemma Rep_set_node m c l a k v ht r k' v' ht' :
  Rep m (plug c (Node l a k v ht r)) →
  Rep (mkMap (<[a := mkNode k' v' (root_ptr l) (root_ptr r) (cpar c) ht']> (nodes m))
             (root m) (avlSize m))
      (plug c (Node l a k' v' ht' r)).
Proof.
  rewrite !Rep_plug. simpl.
  intros ?. addr_norm_hyps. split_and!; rep_side.
Qed.

Lemma recalcHeight_Rep m c l a k v ht r :
  Rep m (plug c (Node l a k v ht r)) →
  ∃ m', recalcHeight (Some a) m = Ok (tt, m')
        ∧ Rep m' (plug c (Node l a k v (1 + Z.max (rheight l) (rheight r)) r)).
Proof.
  intros HR. eexists. split; [|by eapply Rep_set_node].
  apply Rep_plug in HR as (_ & Hw & _). destruct m. by eapply recalcHeight_wf.
Qed.

(** ** Weakest preconditions *)

Lemma wp_bind {A B} (c : M A) (f : A → M B) m Q :
  wp c m (λ a m', wp (f a) m' Q) → wp (x ← c; f x) m Q.
Proof.
  intros (a & m' & E & (b & m'' & E' & HQ)). exists b, m''.
  split; [|done]. by rewrite (bind_Ok _ _ _ _ _ E).
Qed.

Lemma wp_ret {A} (a : A) m (Q : A → AVLMap → Prop) : Q a m → wp (mret a) m Q.
Proof. intros HQ. by exists a, m. Qed.

Lemma wp_conseq {A} (c : M A) m (Q Q' : A → AVLMap → Prop) :
  wp c m Q → (∀ a m', Q a m' → Q' a m') → wp c m Q'.
Proof. intros (a & m' & E & HQ) HI. exists a, m'. auto. Qed.

Lemma wp_deref a n m Q :
  nodes m !! a = Some n → Q n m → wp (deref (Some a)) m Q.
Proof. intros E HQ. exists n, m. split; [|done]. unfold deref. by rewrite E. Qed.

Lemma wp_store a n0 n m (Q : unit → AVLMap → Prop) :
  nodes m !! a = Some n0 →
  Q tt (mkMap (<[a := n]> (nodes m)) (root m) (avlSize m)) →
  wp (store (Some a) n) m Q.
Proof. intros E HQ. eexists _, _. split; [|done]. unfold store. by rewrite E. Qed.

Lemma wp_set_root q m (Q : unit → AVLMap → Prop) :
  Q tt (mkMap (nodes m) q (avlSize m)) → wp (set_root q) m Q.
Proof. intros HQ. by eexists _, _. Qed.

Lemma wp_get_root m (Q : ptr → AVLMap → Prop) : Q (root m) m → wp get_root m Q.
Proof. intros HQ. by eexists _, _. Qed.

Lemma wp_loop_fuel m (Q : nat → AVLMap → Prop) :
  Q (S (size (nodes m))) m → wp loop_fuel m Q.
Proof. intros HQ. by eexists _, _. Qed.

Lemma wp_incr_size m (Q : unit → AVLMap → Prop) :
  Q tt (mkMap (nodes m) (root m) (uint_incr (avlSize m))) → wp incr_size m Q.
Proof. intros HQ. by eexists _, _. Qed.

Lemma wp_decr_size m (Q : unit → AVLMap → Prop) :
  Q tt (mkMap (nodes m) (root m) (uint_decr (avlSize m))) → wp decr_size m Q.
Proof. intros HQ. by eexists _, _. Qed.

Lemma wp_new_node k v l r p ht m (Q : ptr → AVLMap → Prop) :
  Q (Some (alloc (nodes m)))
    (mkMap (<[alloc (nodes m) := mkNode k v l r p ht]> (nodes m)) (root m) (avlSize m)) →
  wp (new_node k v l r p ht) m Q.
Proof. intros HQ. by eexists _, _. Qed.

Lemma wp_new_node_eq anew k v l r p ht m (Q : ptr → AVLMap → Prop) :
  anew = alloc (nodes m) →
  Q (Some anew) (mkMap (<[anew := mkNode k v l r p ht]> (nodes m)) (root m) (avlSize m)) →
  wp (new_node k v l r p ht) m Q.
Proof. intros ->. apply wp_new_node. Qed.

Lemma wp_delete_node a n m (Q : unit → AVLMap → Prop) :
  nodes m !! a = Some n →
  Q tt (mkMap (delete a (nodes m)) (root m) (avlSize m)) →
  wp (delete_node (Some a)) m Q.
Proof. intros E HQ. eexists _, _. split; [|done]. unfold delete_node. by rewrite E. Qed.

Lemma wp_assert e m (Q : unit → AVLMap → Prop) :
  Q tt m → wp (assert true e) m Q.
Proof. intros HQ. by eexists _, _. Qed.

Ltac wp_simpl :=
  cbn [key item left right parent height nodes root avlSize
       with_key with_item with_left with_right with_parent with_height
       root_ptr cpar faddr negb orb andb].

Lemma ptr_eqb_refl p : ptr_eqb p p = true.
Proof. unfold ptr_eqb. by rewrite bool_decide_eq_true_2. Qed.

(** Decide a comparison of pointers from the facts on addresses. *)
Ltac wp_case_eq :=
  let Hb := fresh "Hb" in
  wp_simpl; case_bool_decide as Hb;
  [ try (exfalso;
         first [ discriminate Hb
               | apply root_ptr_Some in Hb; contradiction
               | symmetry in Hb; apply root_ptr_Some in Hb; contradiction ])
  | try done ].

(** One step of the program at the head of a [wp] goal. *)
Ltac wp_step :=
  wp_simpl;
  lazymatch goal with
  | |- wp (mbind _ _) _ _ => apply wp_bind
  | |- wp (deref (Some _)) _ _ => eapply wp_deref; [lookups; reflexivity|]
  | |- wp (store (Some _) _) _ _ => eapply wp_store; [lookups; reflexivity|]
  | |- wp (mret _) _ _ => apply wp_ret
  | |- wp (ret _) _ _ => apply wp_ret
  | |- wp (set_key _ _) _ _ => unfold set_key
  | |- wp (set_item _ _) _ _ => unfold set_item
  | |- wp (set_left _ _) _ _ => unfold set_left
  | |- wp (set_right _ _) _ _ => unfold set_right
  | |- wp (set_parent _ _) _ _ => unfold set_parent
  | |- wp (set_height _ _) _ _ => unfold set_height
  | |- wp (set_root _) _ _ => apply wp_set_root
  | |- wp get_root _ _ => apply wp_get_root
  | |- wp loop_fuel _ _ => apply wp_loop_fuel
  | |- wp incr_size _ _ => apply wp_incr_size
  | |- wp decr_size _ _ => apply wp_decr_size
  | |- wp (new_node _ _ _ _ _ _) _ _ =>
      first [ eapply wp_new_node_eq; [eassumption|] | apply wp_new_node ]
  | |- wp (delete_node (Some _)) _ _ => eapply wp_delete_node; [lookups; reflexivity|]
  | |- wp (assert true _) _ _ => apply wp_assert
  | |- wp (if ptr_eqb _ _ then _ else _) _ _ => unfold ptr_eqb; wp_case_eq
  | |- wp (if bool_decide _ then _ else _) _ _ => wp_case_eq
  | |- wp (assert (ptr_eqb _ _) _) _ _ => rewrite ptr_eqb_refl
  end.

Ltac wp_run := repeat wp_step.

Lemma wp_recalcHeight m c l a k v ht r :
  Rep m (plug c (Node l a k v ht r)) →
  wp (recalcHeight (Some a)) m
     (λ _ m', Rep m' (plug c (Node l a k v (1 + Z.max (rheight l) (rheight r)) r))).
Proof.
  intros HR. destruct (recalcHeight_Rep _ _ _ _ _ _ _ _ HR) as (m' & E & HR').
  by exists tt, m'.
Qed.

Lemma wp_childHeights m c l a k v ht r (Q : Z * Z → AVLMap → Prop) :
  Rep m (plug c (Node l a k v ht r)) →
  Q (rheight l, rheight r) m →
  wp (childHeights (Some a)) m Q.
Proof.
  intros HR HQ. apply Rep_plug in HR as (_ & Hw & _).
  destruct m. eexists _, _. split; [by eapply childHeights_wf|done].
Qed.

(** ** Rotations *)

Ltac rep_plug :=
  lazymatch goal with
  | |- Rep _ (plug _ _) => apply Rep_plug
  | |- Rep _ _ => apply (Rep_plug _ [] _)
  end;
  simpl; split_and!; rep_side.

Lemma wp_rotateRight m c s s' :
  Rep m (plug c s) → rot_right s = Some s' →
  wp (rotateRight (root_ptr s)) m (λ p m', p = root_ptr s' ∧ Rep m' (plug c s')).
Proof.
  intros HR Hs.
  destruct s as [|[|ll la kl vl hl lr] a k v ht r]; simplify_eq/=.
  assert (Htail : ∀ m1,
    Rep m1 (plug (FR ll la kl vl hl :: c) (Node lr a k v ht r)) →
    wp (recalcHeight (Some a)) m1 (λ _ m2,
      wp (recalcHeight (Some la);; mret (Some la)) m2 (λ p m',
        p = Some la ∧
        Rep m' (plug c (Node ll la kl vl
                  (1 + Z.max (rheight ll) (1 + Z.max (rheight lr) (rheight r)))
                  (Node lr a k v (1 + Z.max (rheight lr) (rheight r)) r)))))).
  { intros m1 HR1. eapply wp_conseq; [exact (wp_recalcHeight _ _ _ _ _ _ _ _ HR1)|].
    intros ? m2 HR2. apply wp_bind. simpl in HR2.
    eapply wp_conseq; [exact (wp_recalcHeight _ _ _ _ _ _ _ _ HR2)|].
    intros ? m3 HR3. by apply wp_ret. }
  apply Rep_plug in HR as (Hc & Hw & Hrt & Hd & Hdom & Hsz).
  destruct m as [h rt sz]. simpl in *. destruct_and?.
  unfold rotateRight.
  destruct c as [|[pa pk pv ph sib|sib pa pk pv ph] c'];
    destruct lr as [|lrl lra lrk lrv lrh lrr]; simpl in *; addr_norm_hyps;
    wp_run; apply Htail; rep_plug.
Qed.

Lemma wp_rotateLeft m c s s' :
  Rep m (plug c s) → rot_left s = Some s' →
  wp (rotateLeft (root_ptr s)) m (λ p m', p = root_ptr s' ∧ Rep m' (plug c s')).
Proof.
  intros HR Hs.
  destruct s as [|l a k v ht [|rl ra kr vr hr rr]]; simplify_eq/=.
  assert (Htail : ∀ m1,
    Rep m1 (plug (FL ra kr vr hr rr :: c) (Node l a k v ht rl)) →
    wp (recalcHeight (Some a)) m1 (λ _ m2,
      wp (recalcHeight (Some ra);; mret (Some ra)) m2 (λ p m',
        p = Some ra ∧
        Rep m' (plug c (Node (Node l a k v (1 + Z.max (rheight l) (rheight rl)) rl)
                  ra kr vr
                  (1 + Z.max (1 + Z.max (rheight l) (rheight rl)) (rheight rr))
                  rr))))).
  { intros m1 HR1. eapply wp_conseq; [exact (wp_recalcHeight _ _ _ _ _ _ _ _ HR1)|].
    intros ? m2 HR2. apply wp_bind. simpl in HR2.
    eapply wp_conseq; [exact (wp_recalcHeight _ _ _ _ _ _ _ _ HR2)|].
    intros ? m3 HR3. by apply wp_ret. }
  apply Rep_plug in HR as (Hc & Hw & Hrt & Hd & Hdom & Hsz).
  destruct m as [h rt sz]. simpl in *. destruct_and?.
  unfold rotateLeft.
  destruct c as [|[pa pk pv ph sib|sib pa pk pv ph] c'];
    destruct rl as [|rll rla rlk rlv rlh rlr]; simpl in *; addr_norm_hyps;
    wp_run; apply Htail; rep_plug.
Qed.

(** ** fixUp *)

Local Arguments rot_right : simpl never.
Local Arguments rot_left : simpl never.

Lemma wp_deref_focus m c l a k v ht r (Q : AVLNode → AVLMap → Prop) :
  Rep m (plug c (Node l a k v ht r)) →
  Q (mkNode k v (root_ptr l) (root_ptr r) (cpar c) ht) m →
  wp (deref (Some a)) m Q.
Proof.
  intros HR HQ. apply Rep_plug in HR as (_ & (E & _) & _).
  by eapply wp_deref.
Qed.

Lemma rot_right_root s s' : rot_right s = Some s' → ∃ l a k v h r, s' = Node l a k v h r.
Proof. unfold rot_right. destruct s as [|[|] ? ? ? ? ?]; intros; simplify_eq; eauto 10. Qed.

Lemma rot_left_root s s' : rot_left s = Some s' → ∃ l a k v h r, s' = Node l a k v h r.
Proof. unfold rot_left. destruct s as [|? ? ? ? ? [|]]; intros; simplify_eq; eauto 10. Qed.

Lemma fix_tree_root s s' : fix_tree s = Some s' → ∃ l a k v h r, s' = Node l a k v h r.
Proof.
  destruct s as [|l a k v ht r]; simpl; [done|].
  repeat case_match; try done; intros Hs; simplify_option_eq;
    eauto 10 using rot_right_root, rot_left_root.
Qed.

Lemma wp_fixUp_body m c s s' :
  Rep m (plug c s) → fix_tree s = Some s' →
  wp (fixUp_body (root_ptr s)) m (λ p m', p = cpar c ∧ Rep m' (plug c s')).
Proof.
  intros HR Hs. destruct s as [|l a k v ht r]; [done|]. simpl in Hs.
  set (hn := 1 + Z.max (rheight l) (rheight r)) in *.
  assert (Hend : ∀ m1 p, p = root_ptr s' → Rep m1 (plug c s') →
    wp (n ← deref p; mret (parent n)) m1 (λ p m', p = cpar c ∧ Rep m' (plug c s'))).
  { intros m1 p -> HR1. destruct (fix_tree_root (Node l a k v ht r) s') as (?&?&?&?&?&?&->).
    { done. }
    apply wp_bind. eapply wp_deref_focus; [done|]. by apply wp_ret. }
  unfold fixUp_body. simpl root_ptr.
  wp_step. eapply wp_conseq; [exact (wp_recalcHeight _ _ _ _ _ _ _ _ HR)|].
  intros ? m1 HR1. cbv beta in HR1. fold hn in HR1.
  wp_step. eapply wp_childHeights; [done|]. wp_simpl.
  destruct (Z.abs _ <=? 2) eqn:Habs; [|done].
  wp_step. wp_step. wp_step.
  destruct (rheight l =? rheight r + 2) eqn:E1.
  - destruct l as [|ll la kl vl hl lr]; [done|].
    wp_step. eapply wp_deref_focus; [done|]. wp_simpl.
    wp_step. eapply (wp_childHeights _ (FL a k v hn r :: c)); [done|]. wp_simpl.
    wp_step. simpl rheight.
    destruct (rheight ll <? rheight lr) eqn:E2.
    + destruct (rot_left (Node ll la kl vl hl lr)) as [l'|] eqn:E3; [|done].
      simpl in Hs. wp_step.
      eapply wp_conseq; [by eapply (wp_rotateLeft _ (FL a k v hn r :: c) (Node ll la kl vl hl lr))|].
      intros ? m2 (_ & HR2). simpl in HR2. wp_step.
      eapply wp_conseq; [by eapply (wp_rotateRight _ c (Node l' a k v hn r))|].
      intros ? m3 (-> & HR3). by apply Hend.
    + simpl in Hs. wp_step.
      eapply wp_conseq; [by eapply (wp_rotateRight _ c (Node _ a k v hn r))|].
      intros ? m3 (-> & HR3). by apply Hend.
  - destruct (rheight l + 2 =? rheight r) eqn:E4.
    + destruct r as [|rl ra kr vr hr rr]; [done|].
      wp_step. eapply wp_deref_focus; [done|]. wp_simpl.
      wp_step. eapply (wp_childHeights _ (FR l a k v hn :: c)); [done|]. wp_simpl.
      wp_step. simpl rheight.
      destruct (rheight rl >? rheight rr) eqn:E2.
      * destruct (rot_right (Node rl ra kr vr hr rr)) as [r'|] eqn:E3; [|done].
        simpl in Hs. wp_step.
        eapply wp_conseq; [by eapply (wp_rotateRight _ (FR l a k v hn :: c) (Node rl ra kr vr hr rr))|].
        intros ? m2 (_ & HR2). simpl in HR2. wp_step.
        eapply wp_conseq; [by eapply (wp_rotateLeft _ c (Node l a k v hn r'))|].
        intros ? m3 (-> & HR3). by apply Hend.
      * simpl in Hs. wp_step.
        eapply wp_conseq; [by eapply (wp_rotateLeft _ c (Node l a k v hn _))|].
        intros ? m3 (-> & HR3). by apply Hend.
    + simplify_eq. wp_step. by apply Hend.
Qed.

Local Arguments fix_tree : simpl never.

Lemma size_addrs t : distinct t → size (addrs t) = count t.
Proof.
  induction t as [|l IHl a k v h r IHr]; simpl; [done|].
  intros (Hl & Hr & Hlr & Hdl & Hdr).
  rewrite !size_union, size_singleton, IHl, IHr by set_solver. lia.
Qed.

Lemma Rep_size m t : Rep m t → size (nodes m) = count t.
Proof.
  intros [_ _ Hd Hdom _]. rewrite <- size_dom, Hdom. by apply size_addrs.
Qed.

Lemma length_ccount c : (length c ≤ ccount c)%nat.
Proof. induction c as [|f c IH]; simpl; lia. Qed.

Lemma Rep_fuel m c s : Rep m (plug c s) → (length c < S (size (nodes m)))%nat.
Proof.
  intros HR. rewrite (Rep_size _ _ HR), count_plug.
  pose proof (length_ccount c). lia.
Qed.

Lemma wp_fixUp_loop c : ∀ s t fuel m,
  Rep m (plug c s) → fixup_tree c s = Some t → (length c < fuel)%nat →
  wp (fixUp_loop fuel (root_ptr s)) m (λ _ m', Rep m' t).
Proof.
  induction c as [|f c IH]; intros s t fuel m HR Ht Hf;
    simpl in Ht; destruct (fix_tree s) as [s'|] eqn:Hs; simplify_eq/=;
    (destruct s as [|l a k v ht r]; [done|]);
    (destruct fuel as [|fuel]; [lia|]); simpl.
  - wp_step. eapply wp_conseq; [by eapply (wp_fixUp_body _ [] (Node l a k v ht r))|].
    intros ? m' (-> & HR'). simpl. destruct fuel; by apply wp_ret.
  - wp_step. eapply wp_conseq; [by eapply (wp_fixUp_body _ (f :: c) (Node l a k v ht r))|].
    intros ? m' (-> & HR'). simpl in HR'.
    replace (cpar (f :: c)) with (root_ptr (plug_frame f s')) by by destruct f.
    apply IH; [done|done|lia].
Qed.

Lemma wp_fixUp m c s t :
  Rep m (plug c s) → fixup_tree c s = Some t →
  wp (fixUp (root_ptr s)) m (λ _ m', Rep m' t).
Proof.
  intros HR Ht. unfold fixUp. wp_step. wp_step.
  eapply wp_fixUp_loop; [done|done|]. by eapply Rep_fuel.
Qed.

Lemma wp_fixUp_above m c s t :
  Rep m (plug c s) → fixup_above c s = Some t →
  wp (fixUp (cpar c)) m (λ _ m', Rep m' t).
Proof.
  intros HR Ht. destruct c as [|f c]; simplify_eq/=.
  - unfold fixUp. wp_step. wp_step. simpl. by apply wp_ret.
  - replace (Some (faddr f)) with (root_ptr (plug_frame f s)) by by destruct f.
    by eapply wp_fixUp.
Qed.

(** ** findNode *)

Lemma depth_count t : (depth t ≤ count t)%nat.
Proof. induction t; simpl; lia. Qed.

Lemma plug_app c1 c2 s : plug (c1 ++ c2) s = plug c2 (plug c1 s).
Proof. revert s. induction c1 as [|f c1 IH]; intros s; simpl; [done|]. by rewrite IH. Qed.

Lemma descend_plug k c t c' s : descend k c t = (c', s) → plug c' s = plug c t.
Proof.
  revert c. induction t as [|l IHl a k' v h r IHr]; intros c; simpl.
  - by intros [= <- <-].
  - destruct (key_neq k' k); [|by intros [= <- <-]].
    destruct (key_lt k k'); intros E.
    + by rewrite (IHl _ E).
    + by rewrite (IHr _ E).
Qed.

Lemma wp_findNode_loop t : ∀ c fuel m k,
  Rep m (plug c t) → (depth t ≤ fuel)%nat →
  wp (findNode_loop fuel k (root_ptr t) (cpar c)) m
     (λ res m', m' = m ∧ res = (root_ptr (descend k c t).2, cpar (descend k c t).1)).
Proof.
  induction t as [|l IHl a k' v h r IHr]; intros c fuel m k HR Hf.
  - destruct fuel; by apply wp_ret.
  - destruct fuel as [|fuel]; [simpl in Hf; lia|].
    simpl findNode_loop. wp_step. eapply wp_deref_focus; [done|]. wp_simpl.
    simpl descend. destruct (key_neq k' k); [|by apply wp_ret].
    simpl in Hf. destruct (key_lt k k').
    + apply (IHl (FL a k' v h r :: c)); [done|lia].
    + apply (IHr (FR l a k' v h :: c)); [done|lia].
Qed.

Lemma wp_findNode m t k :
  Rep m t →
  wp (findNode k) m (λ p m', m' = m ∧ p = found_ptr (descend k [] t)).
Proof.
  intros HR. unfold findNode. wp_step. wp_step. wp_step. wp_step. wp_step.
  rewrite (rep_root _ _ HR).
  eapply wp_conseq.
  { apply (wp_findNode_loop t []); [done|].
    rewrite (Rep_size _ _ HR). pose proof (depth_count t). lia. }
  intros ? m' (-> & ->). unfold found_ptr.
  destruct (descend k [] t) as [c' [|]]; simpl; by apply wp_ret.
Qed.

Lemma descend_frames k c t :
  Forall (fgood k) c → Forall (fgood k) (descend k c t).1.
Proof.
  revert c. induction t as [|l IHl a k' v h r IHr]; intros c Hc; simpl; [done|].
  destruct (key_neq k' k) eqn:E1; [|done].
  destruct (key_lt k k') eqn:E2; [apply IHl|apply IHr]; by constructor.
Qed.

Lemma descend_found k c t c' l a k' v h r :
  descend k c t = (c', Node l a k' v h r) → k' = k.
Proof.
  revert c. induction t as [|l0 IHl a0 k0 v0 h0 r0 IHr]; intros c; simpl; [done|].
  destruct (key_neq k0 k) eqn:E1.
  - destruct (key_lt k k0); eauto.
  - intros [= <- <- <- <- <- <- <-]. by apply key_neq_false.
Qed.

Lemma wp_set_key_focus m c l a k v ht r k2 :
  Rep m (plug c (Node l a k v ht r)) →
  wp (set_key (Some a) k2) m (λ _ m', Rep m' (plug c (Node l a k2 v ht r))).
Proof.
  intros HR. pose proof HR as (_ & (E & _) & _)%Rep_plug.
  unfold set_key. wp_step. eapply wp_deref; [done|].
  eapply wp_store; [done|]. by eapply Rep_set_node.
Qed.

Lemma wp_set_item_focus m c l a k v ht r v2 :
  Rep m (plug c (Node l a k v ht r)) →
  wp (set_item (Some a) v2) m (λ _ m', Rep m' (plug c (Node l a k v2 ht r))).
Proof.
  intros HR. pose proof HR as (_ & (E & _) & _)%Rep_plug.
  unfold set_item. wp_step. eapply wp_deref; [done|].
  eapply wp_store; [done|]. by eapply Rep_set_node.
Qed.

(** ** update *)

Local Arguments fixup_tree : simpl never.
Local Arguments fixup_above : simpl never.

Lemma wp_update m t k v t' :
  Rep m t → update_tree (alloc (nodes m)) k v t = Some t' →
  wp (update k v) m (λ _ m', Rep m' t').
Proof.
  intros HR Ht. unfold update. wp_step.
  eapply wp_conseq; [by apply wp_findNode|]. intros ? ? (-> & ->).
  unfold update_tree in Ht. pose proof (descend_frames k [] t (Forall_nil_2 _)) as Hfr.
  destruct (descend k [] t) as [c s] eqn:Ed.
  apply descend_plug in Ed as Hp. simpl in Hp. subst t. unfold found_ptr. simpl in *.
  destruct s as [|l a k' v' h r].
  - (* the key is absent *)
    assert (Hfresh : alloc (nodes m) ∉ dom (nodes m)) by apply not_elem_of_dom, alloc_fresh.
    apply Rep_plug in HR as (Hc & Hw & Hrt & Hd & Hdom & Hsz).
    destruct m as [hp rt sz]. simpl in *. remember (alloc hp) as anew eqn:Hanew.
    rewrite Hdom in Hfresh. clear Ed.
    destruct c as [|[pa pk pv ph sib|sib pa pk pv ph] c'];
      simpl in *; addr_norm_hyps; try apply Forall_cons_1 in Hfr as [[Hn Hlt] _].
    + wp_run.
      eapply (wp_fixUp _ [] (Node Leaf anew k v 0 Leaf)); [|done]. rep_plug.
    + wp_run. rewrite Hn. wp_run. wp_simpl. rewrite Hlt. wp_run.
      eapply (wp_fixUp _ (FL pa pk pv ph sib :: c') (Node Leaf anew k v 0 Leaf)); [|done].
      rep_plug.
    + wp_run. rewrite Hn. wp_run. wp_simpl. rewrite Hlt. wp_run.
      eapply (wp_fixUp _ (FR sib pa pk pv ph :: c') (Node Leaf anew k v 0 Leaf)); [|done].
      rep_plug.
  - (* the key is present *)
    pose proof (descend_found _ _ _ _ _ _ _ _ _ _ Ed) as ->. simplify_eq.
    wp_step. wp_step. eapply wp_deref_focus; [done|]. wp_simpl.
    replace (key_neq k k) with false by (symmetry; by apply key_neq_false).
    wp_step. by eapply wp_set_item_focus.
Qed.

(** ** pluckNode and remove *)

Lemma wp_pluckNode m c s s' p :
  Rep m (plug c s) → root_ptr s = Some p → pluck_tree s = Some s' →
  wp (pluckNode (Some p)) m (λ _ m', Rep m' (plug c s')).
Proof.
  intros HR Hp Hok.
  apply Rep_plug in HR as (Hc & Hw & Hrt & Hd & Hdom & Hsz).
  destruct m as [h rt sz]. unfold pluckNode.
  destruct s as [|[|pll pla plk plv plh plr] p' kp vp hp pr]; simplify_eq/=.
  - destruct c as [|[pa pk pv ph sib|sib pa pk pv ph] c'];
      destruct s' as [|prl pra prk prv prh prr]; simpl in *; addr_norm_hyps;
      wp_run; rep_plug.
  - destruct plr; [|done]. destruct pr; [|done]. simplify_eq.
    destruct c as [|[pa pk pv ph sib|sib pa pk pv ph] c'];
      simpl in *; addr_norm_hyps; wp_run; rep_plug.
Qed.

Lemma descend_max_app c t :
  descend_max c t = ((descend_max [] t).1 ++ c, (descend_max [] t).2).
Proof.
  revert c. induction t as [|l IHl a k v h r IHr]; intros c; simpl; [done|].
  destruct r as [|rl ra rk rv rh rr]; [done|].
  rewrite IHr. rewrite (IHr [_]). simpl. by rewrite <- app_assoc.
Qed.

Lemma descend_max_plug c t : plug (descend_max c t).1 (descend_max c t).2 = plug c t.
Proof.
  revert c. induction t as [|l IHl a k v h r IHr]; intros c; simpl; [done|].
  destruct r as [|rl ra rk rv rh rr]; [done|]. by rewrite IHr.
Qed.

Lemma descend_max_node c l a k v h r :
  ∃ pl pa pk pv ph, (descend_max c (Node l a k v h r)).2 = Node pl pa pk pv ph Leaf.
Proof.
  revert c l a k v h. induction r as [|rl IHl ra rk rv rh rr IHr]; intros c l a k v h.
  - simpl. eauto 10.
  - simpl in *. apply IHr.
Qed.

Lemma wp_pluck_loop r : ∀ c l a k v h fuel m,
  Rep m (plug c (Node l a k v h r)) → (depth r ≤ fuel)%nat →
  wp (pluck_loop fuel (root_ptr r) (Some a)) m
     (λ p m', m' = m ∧ p = root_ptr (descend_max c (Node l a k v h r)).2).
Proof.
  induction r as [|rl IHl ra rk rv rh rr IHr]; intros c l a k v h fuel m HR Hf.
  - destruct fuel; by apply wp_ret.
  - destruct fuel as [|fuel]; [simpl in Hf; lia|].
    simpl pluck_loop. wp_step.
    eapply (wp_deref_focus _ (FR l a k v h :: c)); [done|]. wp_simpl.
    apply (IHr (FR l a k v h :: c)); [done|]. simpl in Hf. lia.
Qed.

Lemma wp_find_pluck m c l a k v h r :
  Rep m (plug c (Node l a k v h r)) →
  wp (find_pluck (Some a)) m
     (λ p m', m' = m ∧
        p = match l with
            | Leaf => Some a
            | Node _ _ _ _ _ _ => root_ptr (descend_max (FL a k v h r :: c) l).2
            end).
Proof.
  intros HR. unfold find_pluck. wp_step. eapply wp_deref_focus; [done|]. wp_simpl.
  wp_step. wp_step.
  destruct l as [|ll la kl vl hl lr]; simpl; [by apply wp_ret|].
  wp_step. eapply (wp_deref_focus _ (FL a k v h r :: c)); [done|]. wp_simpl.
  pose proof (Rep_size _ _ HR) as Hsz. rewrite count_plug in Hsz. simpl in Hsz.
  pose proof (depth_count lr).
  apply (wp_pluck_loop lr (FL a k v h r :: c)); [done|lia].
Qed.

Lemma wp_remove m t k t' :
  Rep m t → remove_tree k t = Some t' →
  wp (remove k) m (λ _ m', Rep m' t').
Proof.
  intros HR Ht. unfold remove. wp_step.
  eapply wp_conseq; [by apply wp_findNode|]. intros ? ? (-> & ->).
  unfold remove_tree in Ht.
  destruct (descend k [] t) as [c s] eqn:Ed.
  apply descend_plug in Ed as Hp. simpl in Hp. subst t. unfold found_ptr. simpl.
  destruct s as [|l a k' v' h r]; [done|].
  pose proof (descend_found _ _ _ _ _ _ _ _ _ _ Ed) as ->. clear Ed.
  wp_step. wp_step. eapply wp_deref_focus; [done|]. wp_simpl.
  rewrite key_lt_irrefl. simpl. wp_step. wp_step. wp_step. wp_step.
  eapply wp_conseq; [exact (wp_find_pluck _ _ _ _ _ _ _ _ HR)|]. intros ? ? (-> & ->).
  destruct l as [|ll la kl vl hl lr].
  - (* no left child: pluck the node itself *)
    destruct (pluck_tree _) as [s'|] eqn:Hs'; [|done]. simpl in Ht.
    wp_step. eapply wp_deref_focus; [done|]. wp_simpl.
    wp_step. eapply wp_conseq; [by eapply wp_set_key_focus|]. intros ? m1 HR1; cbv beta in HR1.
    wp_step. eapply wp_deref_focus; [done|]. wp_simpl.
    wp_step. eapply wp_conseq; [by eapply wp_set_item_focus|]. intros ? m2 HR2; cbv beta in HR2.
    wp_step. eapply wp_deref_focus; [done|]. wp_simpl.
    wp_step. eapply wp_conseq; [by eapply (wp_pluckNode _ c (Node Leaf a k v' h r))|].
    intros ? m3 HR3; cbv beta in HR3. by eapply wp_fixUp_above.
  - (* pluck the maximum of the left subtree *)
    set (l := Node ll la kl vl hl lr) in *.
    rewrite (descend_max_app (FL a k v' h r :: c)).
    pose proof (descend_max_plug [] l) as Hpl.
    destruct (descend_max_node [] ll la kl vl hl lr) as (pl & pa & pk & pv & ph & Hnode).
    fold l in Hnode.
    destruct (descend_max [] l) as [cs p]. simpl in *. subst p.
    destruct (pluck_tree _) as [s'|] eqn:Hs'; [|done]. simpl in Ht.
    assert (Hfocus : ∀ m1 k1 v1, Rep m1 (plug c (Node l a k1 v1 h r)) →
                     Rep m1 (plug (cs ++ FL a k1 v1 h r :: c) (Node pl pa pk pv ph Leaf))).
    { intros m1 k1 v1 HR1. by rewrite plug_app, Hpl. }
    wp_step. eapply wp_deref_focus; [by apply Hfocus|]. wp_simpl.
    wp_step. eapply wp_conseq; [by eapply wp_set_key_focus|]. intros ? m1 HR1; cbv beta in HR1.
    wp_step. eapply wp_deref_focus; [by apply Hfocus|]. wp_simpl.
    wp_step. eapply wp_conseq; [by eapply wp_set_item_focus|]. intros ? m2 HR2; cbv beta in HR2.
    wp_step. eapply wp_deref_focus; [by apply Hfocus|]. wp_simpl.
    wp_step. eapply wp_conseq.
    { eapply (wp_pluckNode _ _ (Node pl pa pk pv ph Leaf)); [by apply Hfocus|done|done]. }
    intros ? m3 HR3; cbv beta in HR3. by eapply wp_fixUp_above.
Qed.

(** ** Balance *)

Lemma avl_rheight t : avl t → -1 ≤ rheight t.
Proof.
  induction t as [|l IHl a k v h r IHr]; simpl; [lia|].
  intros (Hl & Hr & -> & _). specialize (IHl Hl). lia.
Qed.

Lemma avl_neg_leaf t : avl t → rheight t < 0 → t = Leaf.
Proof.
  destruct t as [|l a k v h r]; [done|]. simpl. intros (Hl & Hr & -> & _).
  apply avl_rheight in Hl. lia.
Qed.

Local Arguments fix_tree : simpl nomatch.

Lemma fix_tree_avl l a k v h r :
  avl l → avl r → Z.abs (rheight l - rheight r) ≤ 2 →
  ∃ s', fix_tree (Node l a k v h r) = Some s' ∧ avl s' ∧
    (Z.abs (rheight l - rheight r) ≤ 1 →
     rheight s' = 1 + Z.max (rheight l) (rheight r)) ∧
    (rheight s' = 1 + Z.max (rheight l) (rheight r)
     ∨ rheight s' = Z.max (rheight l) (rheight r)).
Proof.
  intros Hl Hr Hd. unfold fix_tree.
  pose proof (avl_rheight _ Hl). pose proof (avl_rheight _ Hr).
  rewrite (proj2 (Z.leb_le _ _) Hd).
  destruct (Z.eqb_spec (rheight l) (rheight r + 2)) as [E1|E1].
  - destruct l as [|ll la kl vl hl lr]; [simpl in *; lia|].
    simpl in Hl. destruct Hl as (Hll & Hlr & -> & Hb).
    pose proof (avl_rheight _ Hll). pose proof (avl_rheight _ Hlr). simpl in *.
    destruct (Z.ltb_spec (rheight ll) (rheight lr)) as [E2|E2].
    + destruct lr as [|lrl lra lrk lrv lrh lrr]; [simpl in *; lia|].
      simpl in Hlr. destruct Hlr as (Hlrl & Hlrr & -> & Hb').
      pose proof (avl_rheight _ Hlrl). pose proof (avl_rheight _ Hlrr).
      unfold rot_left, rot_right. simpl in *.
      eexists. split; [done|]. simpl. split_and!; try done; lia.
    + unfold rot_right. simpl. eexists. split; [done|]. simpl.
      split_and!; try done; lia.
  - destruct (Z.eqb_spec (rheight l + 2) (rheight r)) as [E3|E3].
    + destruct r as [|rl ra kr vr hr rr]; [simpl in *; lia|].
      simpl in Hr. destruct Hr as (Hrl & Hrr & -> & Hb).
      pose proof (avl_rheight _ Hrl). pose proof (avl_rheight _ Hrr). simpl in *.
      destruct (Z.gtb_spec (rheight rl) (rheight rr)) as [E2|E2].
      * destruct rl as [|rll rla rlk rlv rlh rlr]; [simpl in *; lia|].
        simpl in Hrl. destruct Hrl as (Hrll & Hrlr & -> & Hb').
        pose proof (avl_rheight _ Hrll). pose proof (avl_rheight _ Hrlr).
        unfold rot_left, rot_right. simpl in *.
        eexists. split; [done|]. simpl. split_and!; try done; lia.
      * unfold rot_left. simpl. eexists. split; [done|]. simpl.
        split_and!; try done; lia.
    + eexists. split; [done|]. simpl. split_and!; try done; lia.
Qed.

Lemma avl_plug c s : avl (plug c s) ↔ avl s ∧ cavl c (rheight s).
Proof.
  revert s. induction c as [|f c IH]; intros s; simpl; [tauto|].
  rewrite IH. destruct f; simpl; split; intros; destruct_and?; subst;
    split_and!; try done; lia.
Qed.

Lemma fix_pre_fix s h0 :
  fix_pre s h0 →
  ∃ s', fix_tree s = Some s' ∧ avl s' ∧ Z.abs (rheight s' - h0) ≤ 1.
Proof.
  destruct s as [|l a k v h r]; [done|]. simpl. intros (Hl & Hr & Hc).
  destruct (fix_tree_avl l a k v h r Hl Hr) as (s' & Hs & Ha & H1 & H2); [lia|].
  exists s'. split_and!; [done|done|]. lia.
Qed.

(** One level up: the frame's node is fit for the next iteration. *)
Lemma fix_pre_frame f c s h0 :
  avl s → Z.abs (rheight s - h0) ≤ 1 → cavl (f :: c) h0 →
  fix_pre (plug_frame f s) (fheight f) ∧ cavl c (fheight f).
Proof.
  intros Hs Hh (Hsib & Hb & Hf & Hc). split; [|done].
  destruct f; simpl in *; split_and!; try done; lia.
Qed.

Lemma fixup_tree_avl c : ∀ s h0,
  cavl c h0 → fix_pre s h0 → ∃ t, fixup_tree c s = Some t ∧ avl t.
Proof.
  induction c as [|f c IH]; intros s h0 Hc Hp;
    destruct (fix_pre_fix _ _ Hp) as (s' & Hs & Ha & Hh);
    unfold fixup_tree; fold fixup_tree; rewrite Hs; simpl.
  - eauto.
  - destruct (fix_pre_frame f c s' h0) as [Hp' Hc']; [done..|]. by eapply IH.
Qed.

Lemma fixup_above_avl c s h0 :
  cavl c h0 → avl s → Z.abs (rheight s - h0) ≤ 1 →
  ∃ t, fixup_above c s = Some t ∧ avl t.
Proof.
  intros Hc Hs Hh. destruct c as [|f c]; unfold fixup_above; [eauto|].
  destruct (fix_pre_frame f c s h0) as [Hp' Hc']; [done..|].
  by eapply fixup_tree_avl.
Qed.

(** ** Order *)

Lemma rot_right_entries s s' : rot_right s = Some s' → entries s' = entries s.
Proof.
  unfold rot_right. destruct s as [|[|ll la kl vl hl lr] a k v h r]; intros; simplify_eq/=.
  by rewrite <- app_assoc.
Qed.

Lemma rot_left_entries s s' : rot_left s = Some s' → entries s' = entries s.
Proof.
  unfold rot_left. destruct s as [|l a k v h [|rl ra kr vr hr rr]]; intros; simplify_eq/=.
  by rewrite <- app_assoc.
Qed.

Lemma fix_tree_entries s s' : fix_tree s = Some s' → entries s' = entries s.
Proof.
  unfold fix_tree. destruct s as [|l a k v h r]; [done|].
  repeat case_match; try done; intros Hs; simplify_option_eq;
    repeat match goal with
    | Hx : rot_right _ = Some _ |- _ => apply rot_right_entries in Hx
    | Hx : rot_left _ = Some _ |- _ => apply rot_left_entries in Hx
    end; simpl in *; congruence.
Qed.

Lemma fixup_tree_entries c : ∀ s t,
  fixup_tree c s = Some t → entries t = entries (plug c s).
Proof.
  induction c as [|f c IH]; intros s t; unfold fixup_tree; fold fixup_tree;
    destruct (fix_tree s) as [s'|] eqn:Hs; simpl; try done;
    apply fix_tree_entries in Hs.
  - by intros [= <-].
  - intros Ht. rewrite (IH _ _ Ht), !entries_plug.
    destruct f; simpl; by rewrite Hs.
Qed.

Lemma fixup_above_entries c s t :
  fixup_above c s = Some t → entries t = entries (plug c s).
Proof.
  destruct c as [|f c]; unfold fixup_above; [by intros [= <-]|].
  apply (fixup_tree_entries c (plug_frame f s)).
Qed.

Lemma count_entries t : count t = length (entries t).
Proof.
  induction t as [|l IHl a k v h r IHr]; simpl; [done|].
  rewrite length_app. simpl. lia.
Qed.

#[local] Instance elt_trans : Transitive elt.
Proof. intros x y z. unfold elt, klt. apply key_lt_trans. Qed.

Lemma klt_irrefl k : ¬ klt k k.
Proof. unfold klt. by rewrite key_lt_irrefl. Qed.

Lemma klt_not_lt k k' : key_neq k' k = true → key_lt k k' = false → klt k' k.
Proof.
  intros Hn Hl. destruct (key_lt_total k k') as [E|[E|E]]; [congruence| |done].
  subst. assert (key_neq k' k' = false) by by apply key_neq_false. congruence.
Qed.

(** The entries around the place where the descent for [k] stands. *)
Lemma descend_bounds k c : ∀ s,
  bst (plug c s) → Forall (fgood k) c →
  Forall (λ e, klt e.1 k) (ebefore c) ∧ Forall (λ e, klt k e.1) (eafter c).
Proof.
  induction c as [|f c IH]; intros s Hb Hg; simpl; [done|].
  apply Forall_cons_1 in Hg as [Hf Hg]. simpl in Hb.
  destruct (IH _ Hb Hg) as [IH1 IH2].
  unfold bst in Hb. rewrite entries_plug in Hb.
  apply StronglySorted_app in Hb as (_ & _ & Hb).
  apply StronglySorted_app in Hb as (_ & Hb & _).
  destruct f as [a k' v h r|l a k' v h]; simpl in *; destruct Hf as [Hn Hl].
  - split; [done|].
    apply StronglySorted_app in Hb as (_ & _ & Hb).
    apply StronglySorted_cons in Hb as [Hb _].
    constructor; [done|]. apply Forall_app. split; [|done].
    eapply Forall_impl; [done|]. intros e He. unfold elt, klt in *; simpl in *.
    by eapply key_lt_trans.
  - split; [|done].
    apply StronglySorted_app in Hb as (Hb & _ & _).
    apply klt_not_lt in Hl; [|done].
    rewrite !Forall_app. split_and!; [done| |by repeat constructor].
    apply Forall_forall. intros e He. unfold elt, klt in *; simpl in *.
    eapply key_lt_trans; [|done]. apply (Hb e (k', v)); [done|set_solver].
Qed.

Lemma bst_insert L1 L2 k v :
  StronglySorted elt (L1 ++ L2) →
  Forall (λ e, klt e.1 k) L1 → Forall (λ e, klt k e.1) L2 →
  StronglySorted elt (L1 ++ (k, v) :: L2).
Proof.
  rewrite !StronglySorted_app, StronglySorted_cons. intros (H12 & H1 & H2) F1 F2.
  rewrite Forall_forall in F1, F2. split_and!; try done.
  - intros x1 x2 Hx1 [->|Hx2]%elem_of_cons; [by apply F1|by apply H12].
  - apply Forall_forall. intros e He. by apply F2.
Qed.

Lemma bst_replace L1 L2 k v v' :
  StronglySorted elt (L1 ++ (k, v) :: L2) → StronglySorted elt (L1 ++ (k, v') :: L2).
Proof.
  rewrite !StronglySorted_app, !StronglySorted_cons. intros (H12 & H1 & H2 & H3).
  split_and!; try done.
  intros x1 x2 Hx1 [->|Hx2]%elem_of_cons.
  - apply (H12 x1 (k, v) Hx1). set_solver.
  - apply H12; set_solver.
Qed.

Lemma bst_delete L1 L2 e :
  StronglySorted elt (L1 ++ e :: L2) → StronglySorted elt (L1 ++ L2).
Proof.
  rewrite !StronglySorted_app, !StronglySorted_cons. intros (H12 & H1 & H2 & H3).
  split_and!; try done. intros x1 x2 Hx1 Hx2. apply H12; set_solver.
Qed.

Lemma bst_delete_eq L L' L1 e L2 :
  StronglySorted elt L → L = L1 ++ e :: L2 → L' = L1 ++ L2 →
  StronglySorted elt L'.
Proof. intros Hs -> ->. by eapply bst_delete. Qed.

(** In an ascending list an entry's key occurs once. *)
Lemma bst_key_unique L1 L2 k v :
  StronglySorted elt (L1 ++ (k, v) :: L2) → k ∉ (L1 ++ L2).*1.
Proof.
  rewrite !StronglySorted_app, !StronglySorted_cons. intros (H12 & H1 & H2 & H3).
  rewrite fmap_app, elem_of_app, !list_elem_of_fmap.
  intros [([k' v'] & -> & He)|([k' v'] & -> & He)]; simpl in *.
  - apply (klt_irrefl k'). apply (H12 (k', v') (k', v) He). set_solver.
  - rewrite Forall_forall in H2. apply (klt_irrefl k'). by apply (H2 (k', v')).
Qed.

(** ** The operations on trees keep balance and order *)

Lemma descend_leaf_absent k t c :
  bst t → descend k [] t = (c, Leaf) →
  entries t = ebefore c ++ eafter c ∧ (k ∉ keys t)
  ∧ Forall (λ e, klt e.1 k) (ebefore c) ∧ Forall (λ e, klt k e.1) (eafter c).
Proof.
  intros Hb Ed. pose proof (descend_frames k [] t (Forall_nil_2 _)) as Hg.
  rewrite Ed in Hg. simpl in Hg.
  apply descend_plug in Ed. simpl in Ed. subst t.
  destruct (descend_bounds k c Leaf Hb Hg) as [F1 F2].
  rewrite entries_plug. simpl. split_and!; try done.
  unfold keys. rewrite entries_plug. simpl.
  rewrite fmap_app, elem_of_app, !list_elem_of_fmap.
  rewrite Forall_forall in F1, F2.
  intros [(e & -> & He)|(e & -> & He)]; eapply klt_irrefl; eauto.
Qed.

Lemma update_tree_spec anew k v t :
  avl t → bst t →
  ∃ t' L1 L2,
    update_tree anew k v t = Some t' ∧ avl t' ∧ bst t'
    ∧ entries t' = L1 ++ (k, v) :: L2
    ∧ ((entries t = L1 ++ L2 ∧ (k ∉ keys t))
       ∨ (∃ v0, entries t = L1 ++ (k, v0) :: L2)).
Proof.
  intros Ha Hb. unfold update_tree.
  destruct (descend k [] t) as [c s] eqn:Ed.
  destruct s as [|l a k' v0 h r].
  - destruct (descend_leaf_absent k t c Hb Ed) as (He & Hk & F1 & F2).
    apply descend_plug in Ed. simpl in Ed. subst t.
    apply avl_plug in Ha as [_ Hc]. simpl in Hc.
    destruct (fixup_tree_avl c (Node Leaf anew k v 0 Leaf) (-1)) as (t' & Ht & Ha');
      [done|simpl; split_and!; try done; lia|].
    exists t', (ebefore c), (eafter c).
    apply fixup_tree_entries in Ht as He'. rewrite entries_plug in He'. simpl in He'.
    split_and!; try done; [|by left].
    unfold bst. rewrite He'. apply bst_insert; [|done..].
    unfold bst in Hb. by rewrite He in Hb.
  - pose proof (descend_found _ _ _ _ _ _ _ _ _ _ Ed) as ->.
    apply descend_plug in Ed. simpl in Ed. subst t.
    exists (plug c (Node l a k v h r)), (ebefore c ++ entries l), (entries r ++ eafter c).
    unfold bst in *. rewrite !entries_plug in *. simpl in *.
    rewrite <- !app_assoc in *. simpl in *.
    split_and!; try done.
    + apply avl_plug. by apply avl_plug in Ha.
    + rewrite app_assoc in Hb |- *. by eapply bst_replace.
    + right. exists v0. by rewrite <- app_assoc.
Qed.

Lemma ebefore_app c1 c2 : ebefore (c1 ++ c2) = ebefore c2 ++ ebefore c1.
Proof.
  induction c1 as [|[] c1 IH]; simpl; rewrite ?app_nil_r; [done|done|].
  by rewrite IH, <- !app_assoc.
Qed.

Lemma eafter_app c1 c2 : eafter (c1 ++ c2) = eafter c1 ++ eafter c2.
Proof.
  induction c1 as [|[] c1 IH]; simpl; [done| |done].
  by rewrite IH, <- !app_assoc.
Qed.

Lemma descend_max_eafter c t : eafter (descend_max c t).1 = eafter c.
Proof.
  revert c. induction t as [|l IHl a k v h r IHr]; intros c; simpl; [done|].
  destruct r; [done|]. by rewrite IHr.
Qed.

Lemma cavl_data cs a k v k' v' h r c h0 :
  cavl (cs ++ FL a k v h r :: c) h0 → cavl (cs ++ FL a k' v' h r :: c) h0.
Proof.
  revert h0. induction cs as [|f cs IH]; intros h0; simpl; [done|].
  intros (? & ? & ? & ?). split_and!; auto.
Qed.

Lemma remove_tree_spec k t :
  avl t → bst t → k ∈ keys t →
  ∃ t' L1 v0 L2,
    remove_tree k t = Some t' ∧ avl t' ∧ bst t'
    ∧ entries t = L1 ++ (k, v0) :: L2 ∧ entries t' = L1 ++ L2.
Proof.
  intros Ha Hb Hk. unfold remove_tree.
  destruct (descend k [] t) as [c s] eqn:Ed.
  destruct s as [|l a k' v0 h r].
  { by destruct (descend_leaf_absent k t c Hb Ed) as (_ & ? & _). }
  pose proof (descend_found _ _ _ _ _ _ _ _ _ _ Ed) as ->.
  apply descend_plug in Ed. simpl in Ed. subst t.
  destruct l as [|ll la kl vl hl lr].
  - (* the node has no left child *)
    apply avl_plug in Ha as [(_ & Hr & Hh & _) Hc]. simpl in Hh, Hc.
    pose proof (avl_rheight _ Hr).
    destruct (fixup_above_avl c r h) as (t' & Ht & Ha'); [done|done|lia|].
    exists t', (ebefore c), v0, (entries r ++ eafter c).
    apply fixup_above_entries in Ht as He'. rewrite entries_plug in He'.
    unfold bst in *. rewrite entries_plug in *. simpl in *.
    split_and!; try done. rewrite He'. by eapply bst_delete.
  - (* the node has a left child: its maximum moves up *)
    set (l := Node ll la kl vl hl lr) in *.
    pose proof (descend_max_plug [] l) as Hpl.
    pose proof (descend_max_eafter [] l) as Hea.
    destruct (descend_max_node [] ll la kl vl hl lr) as (pl & pa & pk & pv & ph & Hnode).
    fold l in Hnode. destruct (descend_max [] l) as [cs p]. simpl in *. subst p.
    assert (Ht : plug c (Node l a k v0 h r)
                 = plug (cs ++ FL a k v0 h r :: c) (Node pl pa pk pv ph Leaf)).
    { by rewrite plug_app, Hpl. }
    rewrite Ht in Ha, Hb |- *. clearbody l. clear Hk Ht Hpl.
    apply avl_plug in Ha as [(Hpl & _ & Hh & Hbal) Hc]. simpl in Hh, Hbal, Hc.
    pose proof (avl_rheight _ Hpl).
    assert (Hpluck : pluck_tree (Node pl pa pk pv ph Leaf) = Some pl).
    { destruct pl as [|pll pla plk plv plh plr]; [done|].
      simpl in Hpl, Hbal. destruct Hpl as (Hpll & Hplr & -> & _).
      pose proof (avl_rheight _ Hpll).
      rewrite (avl_neg_leaf plr); [done|done|lia]. }
    rewrite Hpluck. simpl.
    destruct (fixup_above_avl (cs ++ FL a pk pv h r :: c) pl ph) as (t' & Ht & Ha');
      [by eapply cavl_data|done|lia|].
    exists t', (ebefore c ++ ebefore cs ++ entries pl ++ [(pk, pv)]), v0,
           (entries r ++ eafter c).
    apply fixup_above_entries in Ht as He'.
    unfold bst in *. rewrite entries_plug, ebefore_app, eafter_app in *.
    simpl in *. rewrite Hea in *. simpl in *.
    rewrite <- !app_assoc in *. simpl in *.
    split_and!; try done. rewrite He'.
    eapply (bst_delete_eq _ _ (ebefore c ++ ebefore cs ++ entries pl ++ [(pk, pv)])
              (k, v0) (entries r ++ eafter c)); [done|..];
      by rewrite <- !app_assoc.
Qed.

(** ** The observers *)

Lemma wp_Err {A B} (c : M A) (f : A → M B) m e :
  wp c m (λ a m', f a m' = Err e) → (x ← c; f x) m = Err e.
Proof. intros (a & m' & E & Hf). by rewrite (bind_Ok _ _ _ _ _ E). Qed.

Lemma wp_Ok {A} (c : M A) m a m' (Q : A → AVLMap → Prop) :
  wp c m Q → c m = Ok (a, m') → Q a m'.
Proof. intros (a' & m'' & E & HQ) E'. congruence. Qed.

(** After the descent for an absent key: the key test on the node found. *)
Lemma descend_leaf_frame k t f c :
  descend k [] t = (f :: c, Leaf) → fgood k f.
Proof.
  intros Ed. pose proof (descend_frames k [] t (Forall_nil_2 _)) as Hg.
  rewrite Ed in Hg. by apply Forall_cons_1 in Hg as [? _].
Qed.

Lemma fgood_key k f :
  fgood k f →
  key_neq (match f with FL _ k' _ _ _ => k' | FR _ _ k' _ _ => k' end) k = true
  ∧ (key_lt (match f with FL _ k' _ _ _ => k' | FR _ _ k' _ _ => k' end) k
     || key_lt k (match f with FL _ k' _ _ _ => k' | FR _ _ k' _ _ => k' end)) = true.
Proof.
  destruct f as [a k' v h r|l a k' v h]; simpl; intros [Hn Hl]; split; try done.
  - rewrite Hl. apply orb_true_r.
  - apply klt_not_lt in Hl; [|done]. unfold klt in Hl. by rewrite Hl.
Qed.

Lemma wp_deref_frame m f c s (Q : AVLNode → AVLMap → Prop) :
  Rep m (plug (f :: c) s) →
  (∀ n, key n = match f with FL _ k' _ _ _ => k' | FR _ _ k' _ _ => k' end → Q n m) →
  wp (deref (Some (faddr f))) m Q.
Proof.
  intros HR HQ. destruct f; simpl in *; (eapply wp_deref_focus; [done|]); by apply HQ.
Qed.

Lemma wp_hasKey m t k :
  Rep m t →
  wp (hasKey k) m (λ b m', m' = m ∧ b = bool_decide (is_Some (tree_find k t))).
Proof.
  intros HR. unfold hasKey. wp_step.
  eapply wp_conseq; [by apply wp_findNode|]. intros ? ? (-> & ->).
  unfold tree_find, found_ptr.
  destruct (descend k [] t) as [c s] eqn:Ed.
  apply descend_plug in Ed as Hp. simpl in Hp. subst t. simpl.
  destruct s as [|l a k' v' h r].
  - destruct c as [|f c]; simpl; [by apply wp_ret|].
    wp_step. eapply wp_deref_frame; [done|]. intros n ->.
    apply descend_leaf_frame, fgood_key in Ed as [-> _]. by apply wp_ret.
  - pose proof (descend_found _ _ _ _ _ _ _ _ _ _ Ed) as ->.
    wp_step. eapply wp_deref_focus; [done|]. wp_simpl.
    replace (key_neq k k) with false by (symmetry; by apply key_neq_false).
    by apply wp_ret.
Qed.

Lemma wp_at m t k v :
  Rep m t → tree_find k t = Some v →
  wp (at_ k) m (λ x m', m' = m ∧ x = v).
Proof.
  intros HR Hf. unfold at_. wp_step.
  eapply wp_conseq; [by apply wp_findNode|]. intros ? ? (-> & ->).
  unfold tree_find, found_ptr in *.
  destruct (descend k [] t) as [c s] eqn:Ed.
  apply descend_plug in Ed as Hp. simpl in Hp. subst t. simpl in *.
  destruct s as [|l a k' v' h r]; simplify_eq.
  pose proof (descend_found _ _ _ _ _ _ _ _ _ _ Ed) as ->.
  wp_step. wp_step. eapply wp_deref_focus; [done|]. wp_simpl.
  replace (key_neq k k) with false by (symmetry; by apply key_neq_false).
  wp_step. wp_step. wp_step. wp_step. eapply wp_deref_focus; [done|]. wp_simpl.
  by apply wp_ret.
Qed.

Lemma at_absent m t k :
  Rep m t → tree_find k t = None → at_ k m = Err AssertAt.
Proof.
  intros HR Hf. unfold at_. apply wp_Err.
  eapply wp_conseq; [by apply wp_findNode|]. intros ? ? (-> & ->).
  unfold tree_find, found_ptr in *.
  destruct (descend k [] t) as [c s] eqn:Ed.
  apply descend_plug in Ed as Hp. simpl in Hp. subst t. simpl in *.
  destruct s as [|l a k' v' h r]; simplify_eq.
  destruct c as [|f c]; simpl; [done|].
  apply wp_Err. apply wp_bind. eapply wp_deref_frame; [done|]. intros n ->.
  apply descend_leaf_frame, fgood_key in Ed as [-> _]. by apply wp_ret.
Qed.

Lemma remove_absent m t k :
  Rep m t → tree_find k t = None → remove k m = Err AssertRemove.
Proof.
  intros HR Hf. unfold remove. apply wp_Err.
  eapply wp_conseq; [by apply wp_findNode|]. intros ? ? (-> & ->).
  unfold tree_find, found_ptr in *.
  destruct (descend k [] t) as [c s] eqn:Ed.
  apply descend_plug in Ed as Hp. simpl in Hp. subst t. simpl in *.
  destruct s as [|l a k' v' h r]; simplify_eq.
  destruct c as [|f c]; simpl; [done|].
  apply wp_Err. apply wp_bind. eapply wp_deref_frame; [done|]. intros n ->.
  apply descend_leaf_frame, fgood_key in Ed as [_ ->]. by apply wp_ret.
Qed.

(** [tree_find] reads the in-order list. *)
Lemma tree_find_entries k t v :
  bst t → tree_find k t = Some v ↔ (k, v) ∈ entries t.
Proof.
  intros Hb. unfold tree_find.
  destruct (descend k [] t) as [c s] eqn:Ed.
  destruct s as [|l a k' v' h r]; simpl.
  - destruct (descend_leaf_absent k t c Hb Ed) as (_ & Hk & _).
    split; [done|]. intros He. destruct Hk.
    unfold keys. apply list_elem_of_fmap. by exists (k, v).
  - pose proof (descend_found _ _ _ _ _ _ _ _ _ _ Ed) as ->.
    apply descend_plug in Ed. simpl in Ed. subst t.
    unfold bst in Hb. rewrite entries_plug in *. simpl in *.
    pose proof (bst_key_unique (ebefore c ++ entries l) (entries r ++ eafter c) k v') as Hu.
    rewrite <- !app_assoc in Hu, Hb. simpl in Hu, Hb. specialize (Hu Hb).
    split.
    + intros [= ->]. set_solver.
    + rewrite !elem_of_app, elem_of_cons. intros He.
      destruct He as [He|[[He|[He|He]]|He]]; try by simplify_eq.
      all: destruct Hu; rewrite !fmap_app, !elem_of_app, !list_elem_of_fmap.
      * left; left. by exists (k, v).
      * left; right. by exists (k, v).
      * right; left. by exists (k, v).
      * right; right. by exists (k, v).
Qed.

Lemma tree_find_keys k t :
  bst t → is_Some (tree_find k t) ↔ k ∈ keys t.
Proof.
  intros Hb. unfold keys. rewrite list_elem_of_fmap. split.
  - intros [v Hv]. exists (k, v). split; [done|]. by apply tree_find_entries.
  - intros ([k' v] & -> & He). exists v. by apply tree_find_entries.
Qed.

(** ** Every reachable state satisfies the invariant *)

Lemma Rep_empty : Rep empty_map Leaf.
Proof. split; simpl; done. Qed.

(** Every node of the tree is at some position. *)
Lemma addrs_position t a :
  a ∈ addrs t → ∃ c l k v h r, t = plug c (Node l a k v h r).
Proof.
  induction t as [|l IHl b k v h r IHr]; simpl; [set_solver|].
  rewrite !elem_of_union, elem_of_singleton. intros [[->|Hl]|Hr].
  - by exists [], l, k, v, h, r.
  - destruct (IHl Hl) as (c & l' & k' & v' & h' & r' & ->).
    exists (c ++ [FL b k v h r]), l', k', v', h', r'. by rewrite plug_app.
  - destruct (IHr Hr) as (c & l' & k' & v' & h' & r' & ->).
    exists (c ++ [FR l b k v h]), l', k', v', h', r'. by rewrite plug_app.
Qed.

Lemma Rep_position m t a n :
  Rep m t → nodes m !! a = Some n →
  ∃ c l k v h r, t = plug c (Node l a k v h r)
                 ∧ n = mkNode k v (root_ptr l) (root_ptr r) (cpar c) h.
Proof.
  intros HR Hn. destruct (addrs_position t a) as (c & l & k & v & h & r & ->).
  { rewrite <- (rep_dom _ _ HR). apply elem_of_dom. eauto. }
  exists c, l, k, v, h, r. split; [done|].
  apply Rep_plug in HR as (_ & (E & _) & _). congruence.
Qed.

Lemma Inv_update m t k v m' :
  Inv m t → update k v m = Ok (tt, m') →
  ∃ t' L1 L2, Inv m' t'
    ∧ entries t' = L1 ++ (k, v) :: L2
    ∧ ((entries t = L1 ++ L2 ∧ (k ∉ keys t))
       ∨ (∃ v0, entries t = L1 ++ (k, v0) :: L2)).
Proof.
  intros (HR & Ha & Hb) Hu.
  destruct (update_tree_spec (alloc (nodes m)) k v t Ha Hb)
    as (t' & L1 & L2 & Ht & Ha' & Hb' & He).
  exists t', L1, L2. split; [|done]. split_and!; try done.
  exact (wp_Ok _ _ _ _ _ (wp_update _ _ _ _ _ HR Ht) Hu).
Qed.

Lemma Inv_remove m t k m' :
  Inv m t → remove k m = Ok (tt, m') →
  ∃ t' L1 v0 L2, Inv m' t'
    ∧ entries t = L1 ++ (k, v0) :: L2 ∧ entries t' = L1 ++ L2.
Proof.
  intros (HR & Ha & Hb) Hu.
  destruct (tree_find k t) as [v|] eqn:Hf.
  - destruct (remove_tree_spec k t Ha Hb) as (t' & L1 & v0 & L2 & Ht & Ha' & Hb' & He).
    { apply tree_find_keys; eauto. }
    exists t', L1, v0, L2. split; [|done]. split_and!; try done.
    by pose proof (wp_Ok _ _ _ _ _ (wp_remove _ _ _ _ HR Ht) Hu).
  - rewrite (remove_absent _ _ _ HR Hf) in Hu. done.
Qed.

Lemma Inv_assign m t p v m' :
  Inv m t → assign_item p v m = Ok (tt, m') →
  ∃ c l a k v0 h r,
    p = Some a ∧ t = plug c (Node l a k v0 h r)
    ∧ Inv m' (plug c (Node l a k v h r)).
Proof.
  intros (HR & Ha & Hb) Hu. unfold assign_item, set_item in Hu.
  destruct p as [a|]; [|done].
  destruct (nodes m !! a) as [n|] eqn:Hn.
  2:{ unfold_m. simpl in Hu. by rewrite Hn in Hu. }
  destruct (Rep_position _ _ _ _ HR Hn) as (c & l & k & v0 & h & r & -> & ->).
  exists c, l, a, k, v0, h, r. split_and!; try done. unfold Inv. split_and!.
  - by pose proof (wp_Ok _ _ _ _ _ (wp_set_item_focus _ _ _ _ _ _ _ _ v HR) Hu).
  - apply avl_plug. by apply avl_plug in Ha.
  - unfold bst in *. rewrite entries_plug in *. simpl in *.
    rewrite <- !app_assoc in *. simpl in *.
    rewrite app_assoc in Hb |- *. by eapply bst_replace.
Qed.

(** [operator[]] changes the state by a call of [update], or not at all. *)
Lemma subscript_state m t k p m' :
  Inv m t → subscript k m = Ok (p, m') →
  (tree_find k t ≠ None ∧ m' = m)
  ∨ (tree_find k t = None ∧ update k T_default m = Ok (tt, m')).
Proof.
  intros (HR & Ha & Hb) Hs. unfold subscript in Hs.
  destruct (wp_hasKey _ _ k HR) as (b & ? & Eh & -> & ->).
  rewrite (bind_Ok _ _ _ _ _ Eh) in Hs. case_bool_decide as Hf.
  - left. split; [by destruct Hf as [? ->]|].
    rewrite (bind_Ok _ _ _ _ _ (eq_refl : ret tt m = Ok (tt, m))) in Hs.
    destruct (wp_findNode _ _ k HR) as (q & ? & Ef & -> & ->).
    rewrite (bind_Ok _ _ _ _ _ Ef) in Hs.
    unfold_m. simpl in Hs. repeat case_match; by simplify_eq.
  - right. split; [by apply eq_None_not_Some|].
    destruct (update_tree_spec (alloc (nodes m)) k T_default t Ha Hb)
      as (t1 & _ & _ & Ht & _).
    destruct (wp_update _ _ _ _ _ HR Ht) as ([] & m1 & Eu & HR1).
    rewrite (bind_Ok _ _ _ _ _ Eu) in Hs.
    destruct (wp_findNode _ _ k HR1) as (q & ? & Ef & -> & ->).
    rewrite (bind_Ok _ _ _ _ _ Ef) in Hs.
    unfold_m. simpl in Hs. repeat case_match; by simplify_eq.
Qed.

Theorem reachable_Inv m : reachable m → ∃ t, Inv m t.
Proof.
  induction 1 as [|m k v m' _ [t HI] Hu|m k m' _ [t HI] Hu
                  |m k p m' _ [t HI] Hu|m p v m' _ [t HI] Hu].
  - exists Leaf. split_and!; [apply Rep_empty|done|constructor].
  - destruct (Inv_update _ _ _ _ _ HI Hu) as (t' & _ & _ & HI' & _). eauto.
  - destruct (Inv_remove _ _ _ _ HI Hu) as (t' & _ & _ & _ & HI' & _). eauto.
  - destruct (subscript_state _ _ _ _ _ HI Hu) as [[_ ->]|[_ Hu']]; [eauto|].
    destruct (Inv_update _ _ _ _ _ HI Hu') as (t' & _ & _ & HI' & _). eauto.
  - destruct (Inv_assign _ _ _ _ _ HI Hu) as (c & l & a & k & v0 & h & r & _ & _ & HI').
    eauto.
Qed.

(** ** Iterators *)

Lemma inodes_entries t : (inodes t).*2 = entries t.
Proof.
  induction t as [|l IHl a k v h r IHr]; simpl; [done|].
  by rewrite fmap_app, fmap_cons, IHl, IHr.
Qed.

Lemma inodes_plug c s : inodes (plug c s) = ibefore c ++ inodes s ++ iafter c.
Proof.
  revert s. induction c as [|f c IH]; intros s; simpl.
  - by rewrite app_nil_r.
  - rewrite IH. destruct f; simpl; by rewrite <- ?app_assoc.
Qed.

Lemma first_addr_head t : first_addr t = fst <$> head (inodes t).
Proof.
  induction t as [|l IHl a k v h r _]; simpl; [done|].
  destruct l as [|ll la lk lv lh lr]; [done|].
  rewrite IHl. simpl. by destruct (inodes ll).
Qed.

Lemma climb_head c : climb c = fst <$> head (iafter c).
Proof. induction c as [|[] c IH]; simpl; done. Qed.

Lemma succ_head c r :
  match r with Leaf => climb c | Node _ _ _ _ _ _ => first_addr r end
  = fst <$> head (inodes r ++ iafter c).
Proof.
  rewrite climb_head. destruct r as [|rl ra rk rv rh rr]; [done|].
  rewrite first_addr_head. simpl. by destruct (inodes rl).
Qed.

Lemma leftmost_loop_unfold fuel node :
  leftmost_loop fuel node =
  (n ← deref node;
   match left n with
   | None => ret node
   | Some _ =>
       match fuel with
       | O => fail OutOfFuel
       | S fuel' => leftmost_loop fuel' (left n)
       end
   end).
Proof. by destruct fuel. Qed.

Lemma climb_loop_unfold fuel node :
  climb_loop fuel node =
  (let old := node in
   n ← deref node;
   let node := parent n in
   match node with
   | None => ret node
   | Some _ =>
       p ← deref node;
       if ptr_eqb (right p) old then
         match fuel with
         | O => fail OutOfFuel
         | S fuel' => climb_loop fuel' node
         end
       else ret node
   end).
Proof. by destruct fuel. Qed.

Lemma wp_leftmost_loop s : ∀ c fuel m,
  Rep m (plug c s) → s ≠ Leaf → (depth s ≤ S fuel)%nat →
  wp (leftmost_loop fuel (root_ptr s)) m (λ p m', m' = m ∧ p = first_addr s).
Proof.
  induction s as [|l IHl a k v h r _]; intros c fuel m HR Hs Hf; [done|].
  rewrite leftmost_loop_unfold. simpl root_ptr.
  wp_step. eapply wp_deref_focus; [done|]. wp_simpl.
  destruct l as [|ll la lk lv lh lr]; [by apply wp_ret|].
  destruct fuel as [|fuel]; [simpl in Hf; lia|].
  apply (IHl (FL a k v h r :: c)); [done|done|]. simpl in *. lia.
Qed.

Lemma wp_climb_loop c : ∀ l x k v h r fuel m,
  Rep m (plug c (Node l x k v h r)) → (length c ≤ fuel)%nat →
  wp (climb_loop fuel (Some x)) m (λ p m', m' = m ∧ p = climb c).
Proof.
  induction c as [|f c IH]; intros l x k v h r fuel m HR Hf;
    rewrite climb_loop_unfold; cbv zeta;
    wp_step; (eapply wp_deref_focus; [done|]); wp_simpl.
  - by apply wp_ret.
  - wp_step.
    pose proof HR as (_ & _ & _ & Hd & _)%Rep_plug. simpl in Hd. addr_norm_hyps.
    destruct f as [pa pk pv ph sib|sib pa pk pv ph]; simpl in *; addr_norm_hyps.
    + eapply (wp_deref_focus _ c); [done|]. wp_simpl.
      wp_step. by apply wp_ret.
    + eapply (wp_deref_focus _ c); [done|]. wp_simpl.
      rewrite ptr_eqb_refl.
      destruct fuel as [|fuel]; [simpl in Hf; lia|].
      eapply IH; [done|simpl in Hf; lia].
Qed.

Lemma ptr_eqb_Some_None x : ptr_eqb (Some x) None = false.
Proof. unfold ptr_eqb. by rewrite bool_decide_eq_false_2. Qed.

Lemma ibefore_app c1 c2 : ibefore (c1 ++ c2) = ibefore c2 ++ ibefore c1.
Proof.
  induction c1 as [|[] c1 IH]; simpl; rewrite ?app_nil_r; [done|done|].
  by rewrite IH, <- !app_assoc.
Qed.

Lemma iafter_app c1 c2 : iafter (c1 ++ c2) = iafter c1 ++ iafter c2.
Proof.
  induction c1 as [|[] c1 IH]; simpl; [done| |done].
  by rewrite IH, <- !app_assoc.
Qed.

Lemma wp_advance m c l x k v h r :
  Rep m (plug c (Node l x k v h r)) →
  wp (advance (Some x)) m
     (λ p m', m' = m ∧ p = fst <$> head (inodes r ++ iafter c)).
Proof.
  intros HR. unfold advance. rewrite <- succ_head, ptr_eqb_Some_None.
  wp_step. wp_step. wp_step. eapply wp_deref_focus; [done|]. wp_simpl.
  pose proof (Rep_size _ _ HR) as Hsz. rewrite count_plug in Hsz. simpl in Hsz.
  destruct r as [|rl ra rk rv rh rr]; simpl root_ptr; cbv iota.
  - wp_step. wp_step. eapply wp_climb_loop; [done|].
    pose proof (length_ccount c). lia.
  - wp_step. eapply wp_deref_focus; [done|]. wp_simpl. wp_step. wp_step.
    apply (wp_leftmost_loop (Node rl ra rk rv rh rr) (FR l x k v h :: c)); [done|done|].
    pose proof (depth_count (Node rl ra rk rv rh rr)). simpl in *. lia.
Qed.

Lemma wp_begin m t :
  Rep m t → wp begin_ m (λ p m', m' = m ∧ p = fst <$> head (inodes t)).
Proof.
  intros HR. unfold begin_. wp_step. wp_step. rewrite (rep_root _ _ HR).
  rewrite <- first_addr_head. unfold iterator_at.
  destruct t as [|l a k v h r]; simpl root_ptr; cbv iota; [by apply wp_ret|].
  wp_step. wp_step.
  apply (wp_leftmost_loop (Node l a k v h r) []); [done|done|].
  rewrite (Rep_size _ _ HR). pose proof (depth_count (Node l a k v h r)). lia.
Qed.

(** A place in the in-order list is a position in the tree. *)
Lemma inodes_position t : ∀ P x e R,
  inodes t = P ++ (x, e) :: R →
  ∃ c l h r, t = plug c (Node l x e.1 e.2 h r)
             ∧ P = ibefore c ++ inodes l ∧ R = inodes r ++ iafter c.
Proof.
  induction t as [|l IHl a k v h r IHr]; intros P x e R Ht; simpl in Ht.
  { by destruct P. }
  apply app_eq_inv in Ht as [(L & HP & HL)|(L & HP & HL)].
  - destruct L as [|y L]; simpl in HL.
    + rewrite app_nil_r in HP. simplify_eq. exists [], l, h, r. simpl.
      by rewrite !app_nil_r.
    + simplify_eq.
      destruct (IHl _ _ _ _ HP) as (c & l' & h' & r' & -> & -> & ->).
      exists (c ++ [FL a k v h r]), l', h', r'.
      rewrite plug_app, ibefore_app, iafter_app. simpl.
      by rewrite app_nil_r, <- !app_assoc.
  - destruct L as [|y L]; simpl in HL.
    + rewrite app_nil_r in HP. simplify_eq. exists [], l, h, r. simpl.
      by rewrite !app_nil_r.
    + injection HL as <- Hr. subst P.
      destruct (IHr _ _ _ _ Hr) as (c & l' & h' & r' & -> & -> & ->).
      exists (c ++ [FR l a k v h]), l', h', r'.
      rewrite plug_app, ibefore_app, iafter_app. simpl.
      by rewrite app_nil_r, <- !app_assoc.
Qed.

Lemma traverse_loop_unfold fuel it :
  traverse_loop fuel it =
  (e ← end_;
   b ← iter_eq it e;
   if b : bool then ret []
   else
     match fuel with
     | O => fail OutOfFuel
     | S fuel' =>
         k ← iter_key it;
         v ← iter_item it;
         it' ← advance it;
         rest ← traverse_loop fuel' it';
         ret ((k, v) :: rest)
     end).
Proof. by destruct fuel. Qed.

Lemma wp_traverse_loop R : ∀ P fuel m t,
  Rep m t → inodes t = P ++ R → (length R ≤ fuel)%nat →
  wp (traverse_loop fuel (fst <$> head R)) m (λ es m', m' = m ∧ es = R.*2).
Proof.
  induction R as [|[x [k v]] R IH]; intros P fuel m t HR Ht Hf;
    rewrite traverse_loop_unfold; unfold end_, iterator_at, iter_eq;
    wp_step; wp_step; wp_step; wp_step; simpl.
  - by apply wp_ret.
  - rewrite ?ptr_eqb_Some_None.
    destruct fuel as [|fuel]; [simpl in Hf; lia|].
    destruct (inodes_position _ _ _ _ _ Ht) as (c & l & h & r & -> & -> & ->).
    simpl in *. unfold iter_key, iter_item.
    wp_step. wp_step. eapply wp_deref_focus; [done|]. wp_simpl. wp_step.
    wp_step. wp_step. eapply wp_deref_focus; [done|]. wp_simpl. wp_step.
    wp_step. eapply wp_conseq; [exact (wp_advance _ _ _ _ _ _ _ _ HR)|].
    intros ? ? (-> & ->).
    wp_step. eapply wp_conseq.
    { eapply (IH ((ibefore c ++ inodes l) ++ [(x, (k, v))])); [done| |lia].
      by rewrite Ht, <- !app_assoc. }
    intros ? ? (-> & ->). by apply wp_ret.
Qed.

Lemma count_inodes t : count t = length (inodes t).
Proof. by rewrite count_entries, <- inodes_entries, length_fmap. Qed.

Lemma wp_traverse m t :
  Rep m t → wp traverse m (λ es m', m' = m ∧ es = entries t).
Proof.
  intros HR. unfold traverse. wp_step. wp_step. wp_step.
  eapply wp_conseq; [by apply wp_begin|]. intros ? ? (-> & ->).
  rewrite <- inodes_entries.
  apply (wp_traverse_loop (inodes t) [] _ _ t); [done|done|].
  rewrite (Rep_size _ _ HR), count_inodes. lia.
Qed.

(** ** Reading the invariant off the store *)

Lemma tree_wf_height hp par s :
  tree_wf hp par s → avl s → subtree_height hp (root_ptr s) (rheight s).
Proof.
  revert par. induction s as [|l IHl a k v h r IHr]; intros par; simpl.
  - intros _ _. constructor.
  - intros (E & Hl & Hr) (Al & Ar & -> & _).
    eapply sh_node; [done|..]; simpl; eauto.
Qed.

Lemma subtree_height_unique hp p z1 z2 :
  subtree_height hp p z1 → subtree_height hp p z2 → z1 = z2.
Proof.
  intros H1. revert z2. induction H1 as [|a n hl hr E _ IHl _ IHr]; intros z2 H2.
  - by inversion H2.
  - inversion H2 as [|a' n' hl' hr' E' Hl' Hr']; simplify_eq.
    by rewrite (IHl _ Hl'), (IHr _ Hr').
Qed.

Lemma tree_wf_inorder hp par s :
  tree_wf hp par s → inorder hp (root_ptr s) (entries s).
Proof.
  revert par. induction s as [|l IHl a k v h r IHr]; intros par; simpl.
  - intros _. constructor.
  - intros (E & Hl & Hr).
    apply (io_node hp a (mkNode k v (root_ptr l) (root_ptr r) par h)); simpl; eauto.
Qed.

Lemma tree_wf_reaches hp par s b :
  tree_wf hp par s → reaches hp (root_ptr s) b ↔ b ∈ addrs s.
Proof.
  revert par. induction s as [|l IHl a k v h r IHr]; intros par; simpl.
  - intros _. split; [by inversion 1|set_solver].
  - intros (E & Hl & Hr). rewrite !elem_of_union, elem_of_singleton.
    rewrite <- (IHl _ Hl), <- (IHr _ Hr). split.
    + inversion 1; simplify_eq; simpl in *; auto.
    + intros [[->|?]|?].
      * by eapply reaches_here.
      * by eapply reaches_left.
      * by eapply reaches_right.
Qed.

Lemma tree_wf_entry hp par s b nb :
  tree_wf hp par s → b ∈ addrs s → hp !! b = Some nb →
  (key nb, item nb) ∈ entries s.
Proof.
  revert par. induction s as [|l IHl a k v h r IHr]; intros par; simpl; [set_solver|].
  intros (E & Hl & Hr). rewrite !elem_of_union, elem_of_singleton.
  intros [[->|?]|?] Hb.
  - simplify_eq. set_solver.
  - apply elem_of_app. left. eauto.
  - apply elem_of_app. right. apply elem_of_cons. right. eauto.
Qed.

Lemma inodes_addrs t b e : (b, e) ∈ inodes t → b ∈ addrs t.
Proof.
  induction t as [|l IHl a k v h r IHr]; simpl; [by inversion 1|].
  rewrite elem_of_app, elem_of_cons. intros [?|[?|?]]; simplify_eq; set_solver.
Qed.

Lemma Rep_inodes m t b nb :
  Rep m t → nodes m !! b = Some nb → (b, (key nb, item nb)) ∈ inodes t.
Proof.
  intros HR Hb.
  destruct (Rep_position _ _ _ _ HR Hb) as (c & l & k & v & h & r & -> & ->).
  rewrite inodes_plug. simpl. set_solver.
Qed.

Lemma inodes_Rep m t b e :
  Rep m t → (b, e) ∈ inodes t →
  ∃ nb, nodes m !! b = Some nb ∧ key nb = e.1 ∧ item nb = e.2.
Proof.
  intros HR [P [R Ht]]%list_elem_of_split.
  destruct (inodes_position _ _ _ _ _ Ht) as (c & l & h & r & -> & _).
  apply Rep_plug in HR as (_ & (E & _) & _). eauto.
Qed.

(** The nodes of the store are the nodes under [root]. *)
Lemma Rep_reaches m t b :
  Rep m t → reaches (nodes m) (root m) b ↔ is_Some (nodes m !! b).
Proof.
  intros HR. rewrite (rep_root _ _ HR).
  rewrite (tree_wf_reaches _ _ _ _ (rep_wf _ _ HR)).
  by rewrite <- (rep_dom _ _ HR), elem_of_dom.
Qed.

(** ** The member functions on a state that satisfies the invariant *)

Lemma wp_run_Ok {A} (c : M A) m (Q : A → AVLMap → Prop) :
  wp c m Q → ∃ a m', c m = Ok (a, m') ∧ Q a m'.
Proof. done. Qed.

Lemma Inv_hasKey m t k :
  Inv m t → ∃ b, hasKey k m = Ok (b, m) ∧ (b = true ↔ k ∈ keys t).
Proof.
  intros (HR & _ & Hb).
  destruct (wp_hasKey _ _ k HR) as (b & ? & E & -> & ->).
  eexists. split; [done|]. rewrite bool_decide_eq_true. by apply tree_find_keys.
Qed.

Lemma Inv_hasKey_true m t k :
  Inv m t → k ∈ keys t → hasKey k m = Ok (true, m).
Proof.
  intros HI Hk. destruct (Inv_hasKey m t k HI) as ([] & E & Hb); [done|].
  by apply Hb in Hk.
Qed.

Lemma Inv_hasKey_false m t k :
  Inv m t → k ∉ keys t → hasKey k m = Ok (false, m).
Proof.
  intros HI Hk. destruct (Inv_hasKey m t k HI) as ([] & E & Hb); [|done].
  destruct Hk. by apply Hb.
Qed.

Lemma Inv_at m t k v :
  Inv m t → (k, v) ∈ entries t → at_ k m = Ok (v, m).
Proof.
  intros (HR & _ & Hb) He. apply tree_find_entries in He; [|done].
  by destruct (wp_at _ _ _ _ HR He) as (? & ? & E & -> & ->).
Qed.

Lemma Inv_at_absent m t k :
  Inv m t → k ∉ keys t → at_ k m = Err AssertAt.
Proof.
  intros (HR & _ & Hb) Hk. eapply at_absent; [done|].
  apply eq_None_not_Some. by rewrite tree_find_keys.
Qed.

Lemma Inv_traverse m t : Inv m t → traverse m = Ok (entries t, m).
Proof.
  intros (HR & _). by destruct (wp_traverse _ _ HR) as (? & ? & E & -> & ->).
Qed.

Lemma Inv_size m t : Inv m t → avlSize m = Z.of_nat (length (entries t)) mod UINT_MOD.
Proof. intros (HR & _). by rewrite <- count_entries, (rep_size _ _ HR). Qed.

Lemma Inv_update_total m t k v :
  Inv m t →
  ∃ m' t' L1 L2,
    update k v m = Ok (tt, m') ∧ Inv m' t'
    ∧ entries t' = L1 ++ (k, v) :: L2
    ∧ ((entries t = L1 ++ L2 ∧ (k ∉ keys t))
       ∨ (∃ v0, entries t = L1 ++ (k, v0) :: L2)).
Proof.
  intros (HR & Ha & Hb).
  destruct (update_tree_spec (alloc (nodes m)) k v t Ha Hb)
    as (t' & L1 & L2 & Ht & Ha' & Hb' & He & Hc).
  destruct (wp_update _ _ _ _ _ HR Ht) as ([] & m' & E & HR').
  exists m', t', L1, L2. unfold Inv. by split_and!.
Qed.

Lemma Inv_remove_total m t k :
  Inv m t → k ∈ keys t →
  ∃ m' t' L1 v0 L2,
    remove k m = Ok (tt, m') ∧ Inv m' t'
    ∧ entries t = L1 ++ (k, v0) :: L2 ∧ entries t' = L1 ++ L2.
Proof.
  intros (HR & Ha & Hb) Hk.
  destruct (remove_tree_spec k t Ha Hb Hk)
    as (t' & L1 & v0 & L2 & Ht & Ha' & Hb' & He & He').
  destruct (wp_remove _ _ _ _ HR Ht) as ([] & m' & E & HR').
  exists m', t', L1, v0, L2. unfold Inv. by split_and!.
Qed.

Lemma Inv_remove_absent m t k :
  Inv m t → k ∉ keys t → remove k m = Err AssertRemove.
Proof.
  intros (HR & _ & Hb) Hk. eapply remove_absent; [done|].
  apply eq_None_not_Some. by rewrite tree_find_keys.
Qed.

Lemma bst_keys_unique t L1 L2 k v :
  bst t → entries t = L1 ++ (k, v) :: L2 → k ∉ (L1 ++ L2).*1.
Proof. unfold bst. intros Hb He. rewrite He in Hb. by eapply bst_key_unique. Qed.

Lemma UINT_MOD_eq : UINT_MOD = 4294967296.
Proof. reflexivity. Qed.

Lemma Inv_update_absent_size m t k v m' :
  Inv m t → k ∉ keys t → update k v m = Ok (tt, m') →
  avlSize m' = uint_incr (avlSize m).
Proof.
  intros HI Hk Eu.
  destruct (Inv_update_total m t k v HI) as (m1 & t' & L1 & L2 & Eu' & HI' & He' & Hc).
  assert (m1 = m') by congruence. subst m1.
  destruct Hc as [[He _]|[v0 He]].
  - rewrite (Inv_size _ _ HI), (Inv_size _ _ HI'), He, He'.
    unfold uint_incr. rewrite Zplus_mod_idemp_l. f_equal.
    rewrite !length_app. simpl. lia.
  - destruct Hk. unfold keys. rewrite He. apply list_elem_of_fmap.
    exists (k, v0). set_solver.
Qed.

Lemma uint_incr_small sz :
  0 ≤ sz < UINT_MOD - 1 → uint_incr sz = sz + 1.
Proof. intros Hs. unfold uint_incr. apply Z.mod_small. lia. Qed.

Lemma uint_decr_small sz :
  0 < sz < UINT_MOD → uint_decr sz = sz - 1.
Proof. intros Hs. unfold uint_decr. apply Z.mod_small. lia. Qed.

Lemma Inv_size_bound m t : Inv m t → 0 ≤ avlSize m < UINT_MOD.
Proof. intros HI. rewrite (Inv_size _ _ HI). by apply Z.mod_pos_bound. Qed.

Lemma findNode_present m t k v :
  Rep m t → tree_find k t = Some v →
  ∃ a n, findNode k m = Ok (Some a, m) ∧ nodes m !! a = Some n
         ∧ key n = k ∧ item n = v.
Proof.
  intros HR Hf. destruct (wp_findNode _ _ k HR) as (p & ? & E & -> & ->).
  unfold tree_find, found_ptr in *.
  destruct (descend k [] t) as [c s] eqn:Ed.
  apply descend_plug in Ed as Hp. simpl in Hp. subst t. simpl in *.
  destruct s as [|l a k' v' h r]; simplify_eq.
  pose proof (descend_found _ _ _ _ _ _ _ _ _ _ Ed) as ->.
  apply Rep_plug in HR as (_ & (En & _) & _). eauto 10.
Qed.

Lemma Inv_subscript m t k :
  Inv m t →
  ∃ a n m' t',
    subscript k m = Ok (Some a, m') ∧ Inv m' t'
    ∧ nodes m' !! a = Some n ∧ key n = k ∧ (k, item n) ∈ entries t'
    ∧ ((k ∈ keys t ∧ m' = m ∧ t' = t)
       ∨ ((k ∉ keys t) ∧ update k T_default m = Ok (tt, m') ∧ item n = T_default)).
Proof.
  intros HI. pose proof HI as (HR & Ha & Hb). unfold subscript.
  destruct (Inv_hasKey m t k HI) as (b & Eh & Hbk).
  rewrite (bind_Ok _ _ _ _ _ Eh). destruct b.
  - assert (Hk : k ∈ keys t) by by apply Hbk.
    rewrite (bind_Ok _ _ _ _ _ (eq_refl : ret tt m = Ok (tt, m))).
    apply tree_find_keys in Hk as Hf; [|done]. destruct Hf as [v Hf].
    destruct (findNode_present _ _ _ _ HR Hf) as (a & n & Ef & En & Hkn & Hvn).
    rewrite (bind_Ok _ _ _ _ _ Ef).
    exists a, n, m, t. split_and!; try done.
    + unfold_m. simpl. by rewrite En.
    + rewrite Hvn. by apply tree_find_entries.
    + by left.
  - assert (Hk : k ∉ keys t) by (intros Hk; by apply Hbk in Hk).
    destruct (Inv_update_total m t k T_default HI)
      as (m' & t' & L1 & L2 & Eu & HI' & He' & _).
    rewrite (bind_Ok _ _ _ _ _ Eu).
    pose proof HI' as (HR' & _ & Hb').
    assert (Hin : (k, T_default) ∈ entries t') by (rewrite He'; set_solver).
    apply tree_find_entries in Hin as Hf; [|done].
    destruct (findNode_present _ _ _ _ HR' Hf) as (a & n & Ef & En & Hkn & Hvn).
    rewrite (bind_Ok _ _ _ _ _ Ef).
    exists a, n, m', t'. split_and!; try done.
    + unfold_m. simpl. by rewrite En.
    + by rewrite Hvn.
    + by right.
Qed.

(** Writing through a reference to the item of a node. *)
Lemma Inv_assign_total m t a n v :
  Inv m t → nodes m !! a = Some n →
  ∃ m' t', assign_item (Some a) v m = Ok (tt, m') ∧ Inv m' t'
           ∧ at_ (key n) m' = Ok (v, m') ∧ avlSize m' = avlSize m.
Proof.
  intros HI Hn. pose proof HI as (HR & _).
  destruct (Rep_position _ _ _ _ HR Hn) as (c & l & k & v0 & h & r & -> & ->).
  destruct (wp_set_item_focus _ _ _ _ _ _ _ _ v HR) as ([] & m' & E & HR').
  destruct (Inv_assign _ _ _ _ _ HI E) as (c' & l' & a' & k' & v' & h' & r' & _ & _ & HI').
  exists m'. eexists. split_and!; [done|by apply HI'| |].
  - simpl. eapply Inv_at.
    + split_and!; [exact HR'|..].
      * apply avl_plug. destruct HI as (_ & Ha & _). by apply avl_plug in Ha.
      * destruct HI as (_ & _ & Hb). unfold bst in *.
        rewrite entries_plug in *. simpl in *.
        rewrite <- !app_assoc in *. simpl in *.
        rewrite app_assoc in Hb |- *. by eapply bst_replace.
    + rewrite entries_plug. simpl. set_solver.
  - unfold assign_item, set_item in E. unfold_m. simpl in E.
    rewrite Hn in E. simpl in E. rewrite Hn in E. by simplify_eq.
Qed.

Lemma descend_present k t v :
  tree_find k t = Some v →
  ∃ c l a h r, descend k [] t = (c, Node l a k v h r)
               ∧ t = plug c (Node l a k v h r).
Proof.
  unfold tree_find. destruct (descend k [] t) as [c s] eqn:Ed. simpl.
  destruct s as [|l a k' v' h r]; [done|]. intros [= ->].
  pose proof (descend_found _ _ _ _ _ _ _ _ _ _ Ed) as ->.
  apply descend_plug in Ed as Hp. simpl in Hp. eauto 10.
Qed.

Lemma inodes_plug_node c l x k v h r :
  inodes (plug c (Node l x k v h r))
  = (ibefore c ++ inodes l) ++ (x, (k, v)) :: (inodes r ++ iafter c).
Proof. rewrite inodes_plug. simpl. by rewrite <- !app_assoc. Qed.

Lemma bst_inodes t : bst t → StronglySorted ilt (inodes t).
Proof.
  unfold bst. rewrite <- inodes_entries.
  induction (inodes t) as [|x L IH]; [constructor|].
  rewrite fmap_cons, !StronglySorted_cons, Forall_fmap. intros [HF HS].
  split; [|by apply IH]. eapply Forall_impl; [done|]. by intros y.
Qed.

(** In an ascending list of nodes a key stands at one place only. *)
Lemma sorted_key_inj (L : list (loc * (K * T))) x y :
  StronglySorted ilt L → x ∈ L → y ∈ L → x.2.1 = y.2.1 → x = y.
Proof.
  induction 1 as [|z L _ IH Hall]; intros Hx Hy E; [by apply elem_of_nil in Hx|].
  rewrite Forall_forall in Hall.
  apply elem_of_cons in Hx as [->|Hx]; apply elem_of_cons in Hy as [->|Hy].
  - done.
  - exfalso. specialize (Hall y Hy). unfold ilt in Hall. rewrite E in Hall.
    by apply klt_irrefl in Hall.
  - exfalso. specialize (Hall x Hx). unfold ilt in Hall. rewrite <- E in Hall.
    by apply klt_irrefl in Hall.
  - by apply IH.
Qed.

(** ** States of any size *)

Lemma reachable_exec_update m k v :
  reachable m → reachable (exec (update k v) m).
Proof.
  intros Hr. unfold exec.
  destruct (update k v m) as [[[] m']|e] eqn:E; [|done].
  by eapply reach_update.
Qed.

Lemma reachable_exec_remove m k :
  reachable m → reachable (exec (remove k) m).
Proof.
  intros Hr. unfold exec.
  destruct (remove k m) as [[[] m']|e] eqn:E; [|done].
  by eapply reach_remove.
Qed.

(** With keys [f 0], [f 1], ... all different, [n] calls of [update] from
    the empty map leave a map of [n] entries. *)
Lemma reachable_fill (f : nat → K) (v : T) :
  (∀ i j, f i = f j → i = j) →
  ∀ n, ∃ m t, reachable m ∧ Inv m t ∧ length (entries t) = n
              ∧ ∀ k, k ∈ keys t ↔ ∃ i, (i < n)%nat ∧ k = f i.
Proof.
  intros Hf. induction n as [|n (m & t & Hr & HI & Hlen & Hk)].
  - exists empty_map, Leaf. split_and!.
    + constructor.
    + unfold Inv. split_and!; [apply Rep_empty|done|constructor].
    + done.
    + intros k. split; [by intros ?%elem_of_nil|]. intros (i & ? & _). lia.
  - destruct (Inv_update_total m t (f n) v HI)
      as (m' & t' & L1 & L2 & Hu & HI' & He' & Hcase).
    assert (f n ∉ keys t) as Hnew.
    { intros (i & Hi & E)%Hk. apply Hf in E. lia. }
    destruct Hcase as [[He _]|[v0 He]]; last first.
    { exfalso. apply Hnew. unfold keys. rewrite He, fmap_app, fmap_cons.
      set_solver. }
    exists m', t'. split_and!.
    + by eapply reach_update.
    + done.
    + rewrite He'. rewrite He in Hlen. rewrite length_app in *. simpl. lia.
    + intros k. unfold keys in *. rewrite He', fmap_app, fmap_cons. simpl.
      rewrite elem_of_app, elem_of_cons.
      specialize (Hk k). rewrite He, fmap_app, elem_of_app in Hk.
      split.
      * intros [H1|[->|H2]]; [|exists n; split; [lia|done]|].
        -- destruct (proj1 Hk (or_introl H1)) as (i & ? & ->).
           exists i. split; [lia|done].
        -- destruct (proj1 Hk (or_intror H2)) as (i & ? & ->).
           exists i. split; [lia|done].
      * intros (i & Hi & ->). destruct (decide (i = n)) as [->|Hne].
        -- right. by left.
        -- assert (i < n)%nat as Hi' by lia.
           destruct (proj2 Hk (ex_intro _ i (conj Hi' eq_refl))); auto.
Qed.

(** ** The counter at 2^32 entries *)

(** A map of 2^32 entries reports size 0. *)
Lemma size_wraps (f : nat → K) (v : T) N :
  (∀ i j, f i = f j → i = j) → Z.of_nat N = UINT_MOD →
  ∃ m es, reachable m ∧ traverse m = Ok (es, m)
          ∧ Z.of_nat (length es) = UINT_MOD ∧ size_ m = Ok (0, m).
Proof.
  intros Hf HN.
  destruct (reachable_fill f v Hf N) as (m & t & Hr & HI & Hlen & _).
  exists m, (entries t). split_and!; [done|by apply Inv_traverse|by rewrite Hlen|].
  unfold size_. by rewrite (Inv_size _ _ HI), Hlen, HN, Z_mod_same_full.
Qed.

(** Removing an entry from a map of 2^32 entries takes the reported size
    from 0 to 2^32 - 1. *)
Lemma remove_wraps (f : nat → K) (v : T) N :
  (∀ i j, f i = f j → i = j) → Z.of_nat N = UINT_MOD →
  ∃ m m', reachable m ∧ hasKey (f O) m = Ok (true, m)
          ∧ remove (f O) m = Ok (tt, m')
          ∧ size_ m = Ok (0, m) ∧ size_ m' = Ok (UINT_MOD - 1, m').
Proof.
  intros Hf HN. pose proof UINT_MOD_eq as HU.
  destruct (reachable_fill f v Hf N) as (m & t & Hr & HI & Hlen & Hk).
  assert (f O ∈ keys t) as Hin.
  { apply Hk. exists O. split; [lia|done]. }
  destruct (Inv_remove_total m t (f O) HI Hin)
    as (m' & t' & L1 & v0 & L2 & Hrm & HI' & He & He').
  exists m, m'. split_and!; [done|by eapply Inv_hasKey_true|done| |].
  - unfold size_. by rewrite (Inv_size _ _ HI), Hlen, HN, Z_mod_same_full.
  - unfold size_. rewrite (Inv_size _ _ HI'), He'.
    rewrite He in Hlen. rewrite length_app in *. simpl in Hlen.
    replace (Z.of_nat (length L1 + length L2)) with (UINT_MOD - 1) by lia.
    rewrite Z.mod_small; [done|lia].
Qed.

(** [operator[]] on an absent key of a map of 2^32 - 1 entries takes the
    reported size from 2^32 - 1 to 0. *)
Lemma subscript_wraps (f : nat → K) N :
  (∀ i j, f i = f j → i = j) → Z.of_nat N = UINT_MOD - 1 →
  ∃ m p m', reachable m ∧ hasKey (f N) m = Ok (false, m)
            ∧ subscript (f N) m = Ok (p, m')
            ∧ size_ m = Ok (UINT_MOD - 1, m) ∧ size_ m' = Ok (0, m').
Proof.
  intros Hf HN. pose proof UINT_MOD_eq as HU.
  destruct (reachable_fill f T_default Hf N) as (m & t & Hr & HI & Hlen & Hk).
  assert (f N ∉ keys t) as Hout.
  { intros (i & Hi & E)%Hk. apply Hf in E. lia. }
  destruct (Inv_subscript m t (f N) HI)
    as (a & n & m' & t' & Hs & HI' & _ & _ & _ & [[Hin _]|(_ & Hu & _)]);
    [done|].
  assert (avlSize m = UINT_MOD - 1) as Hsz.
  { rewrite (Inv_size _ _ HI), Hlen, HN. rewrite Z.mod_small; [done|lia]. }
  exists m, (Some a), m'.
  split_and!; [done|by eapply Inv_hasKey_false|done| |].
  - unfold size_. by rewrite Hsz.
  - unfold size_.
    rewrite (Inv_update_absent_size _ _ _ _ _ HI Hout Hu), Hsz.
    unfold uint_incr. replace (UINT_MOD - 1 + 1) with UINT_MOD by lia.
    by rewrite Z_mod_same_full.
Qed.

(** [update] of an absent key in a map of 2^32 - 1 entries takes the
    reported size from 2^32 - 1 to 0, while the traversal grows by one
    entry. *)
Lemma update_wraps (f : nat → K) (v : T) N :
  (∀ i j, f i = f j → i = j) → Z.of_nat N = UINT_MOD - 1 →
  ∃ m m' es es',
    reachable m ∧ hasKey (f N) m = Ok (false, m)
    ∧ update (f N) v m = Ok (tt, m')
    ∧ traverse m = Ok (es, m) ∧ traverse m' = Ok (es', m')
    ∧ length es' = S (length es)
    ∧ size_ m = Ok (UINT_MOD - 1, m) ∧ size_ m' = Ok (0, m').
Proof.
  intros Hf HN. pose proof UINT_MOD_eq as HU.
  destruct (reachable_fill f v Hf N) as (m & t & Hr & HI & Hlen & Hk).
  assert (f N ∉ keys t) as Hout.
  { intros (i & Hi & E)%Hk. apply Hf in E. lia. }
  destruct (Inv_update_total m t (f N) v HI)
    as (m' & t' & L1 & L2 & Hu & HI' & He' & Hcase).
  destruct Hcase as [[He _]|[v0 He]]; last first.
  { exfalso. apply Hout. unfold keys. rewrite He, fmap_app, fmap_cons.
    set_solver. }
  assert (avlSize m = UINT_MOD - 1) as Hsz.
  { rewrite (Inv_size _ _ HI), Hlen, HN. rewrite Z.mod_small; [done|lia]. }
  exists m, m', (entries t), (entries t').
  split_and!; [done|by eapply Inv_hasKey_false|done|by apply Inv_traverse
              |by apply Inv_traverse| | |].
  - rewrite He', He, !length_app. simpl. lia.
  - unfold size_. by rewrite Hsz.
  - unfold size_.
    rewrite (Inv_update_absent_size _ _ _ _ _ HI Hout Hu), Hsz.
    unfold uint_incr. replace (UINT_MOD - 1 + 1) with UINT_MOD by lia.
    by rewrite Z_mod_same_full.
Qed.

(** * The claims *)

(** C1. In every state reachable from the empty map, every node is balanced
    (the heights of its two subtrees, -1 for a missing child, differ by at
    most 1) and records as its height 1 plus the larger of them. *)
Theorem C1_balance_and_heights m a n :
  reachable m → nodes m !! a = Some n →
  ∃ hl hr,
    subtree_height (nodes m) (left n) hl
    ∧ subtree_height (nodes m) (right n) hr
    ∧ Z.abs (hl - hr) ≤ 1
    ∧ height n = 1 + Z.max hl hr.
Proof.
  intros Hm Hn. destruct (reachable_Inv m Hm) as (t & HR & Ha & _).
  destruct (Rep_position _ _ _ _ HR Hn) as (c & l & k & v & h & r & -> & ->).
  apply avl_plug in Ha as [(Al & Ar & Hh & Hb) _].
  apply Rep_plug in HR as (_ & (_ & Hl & Hr) & _).
  exists (rheight l), (rheight r). simpl.
  split_and!; try done; by eapply tree_wf_height.
Qed.

(** C2. In every state reachable from the empty map, the in-order list of
    the tree under [root] has strictly ascending keys; and at every node the
    keys in the left subtree are smaller and those in the right subtree are
    greater than the node's key. *)
Theorem C2_search_tree_order m :
  reachable m →
  (∃ es, inorder (nodes m) (root m) es ∧ StronglySorted klt es.*1)
  ∧ (∀ a n b nb, nodes m !! a = Some n → nodes m !! b = Some nb →
       (reaches (nodes m) (left n) b → klt (key nb) (key n))
       ∧ (reaches (nodes m) (right n) b → klt (key n) (key nb))).
Proof.
  intros Hm. destruct (reachable_Inv m Hm) as (t & HR & _ & Hb). split.
  - exists (entries t). split.
    + rewrite (rep_root _ _ HR). eapply tree_wf_inorder, rep_wf; done.
    + by eapply StronglySorted_fmap; [|exact Hb].
  - intros a n b nb Hn Hnb.
    destruct (Rep_position _ _ _ _ HR Hn) as (c & l & k & v & h & r & -> & ->).
    unfold bst in Hb. rewrite entries_plug in Hb. simpl in Hb.
    apply StronglySorted_app in Hb as (_ & _ & Hb).
    apply StronglySorted_app in Hb as (_ & Hb & _).
    apply StronglySorted_app in Hb as (Hlt & _ & Hgt).
    apply StronglySorted_cons in Hgt as [Hgt _]. rewrite Forall_forall in Hgt.
    apply Rep_plug in HR as (_ & (_ & Hl & Hr) & _).
    split; intros Hreach; simpl in Hreach.
    + apply (tree_wf_reaches _ _ _ _ Hl) in Hreach.
      apply (Hlt (key nb, item nb) (k, v)); [|set_solver].
      by eapply tree_wf_entry.
    + apply (tree_wf_reaches _ _ _ _ Hr) in Hreach.
      apply (Hgt (key nb, item nb)). by eapply tree_wf_entry.
Qed.

(** C3, as the code has it.  In every reachable state [update(k, v)]
    returns; afterwards [at(k)] is [v] and [hasKey(k)] holds; the traversal
    then has exactly one entry for [k], holding [v].  If [k] was absent the
    map has exactly one entry more, and [avlSize], which [size()] returns,
    was incremented as an unsigned 32-bit counter: by exactly 1 while it was
    below 2^32 - 1.  If [k] was present the other entries and [avlSize] are
    unchanged. *)
Theorem C3_update m k v :
  reachable m →
  ∃ m' es L1 L2,
    update k v m = Ok (tt, m')
    ∧ at_ k m' = Ok (v, m')
    ∧ hasKey k m' = Ok (true, m')
    ∧ traverse m = Ok (es, m)
    ∧ traverse m' = Ok (L1 ++ (k, v) :: L2, m')
    ∧ (k ∉ (L1 ++ L2).*1)
    ∧ ((hasKey k m = Ok (false, m)
        ∧ es = L1 ++ L2
        ∧ length (L1 ++ (k, v) :: L2) = S (length es)
        ∧ avlSize m' = uint_incr (avlSize m)
        ∧ (avlSize m < UINT_MOD - 1 → avlSize m' = avlSize m + 1))
       ∨ (∃ v0, hasKey k m = Ok (true, m)
          ∧ es = L1 ++ (k, v0) :: L2
          ∧ length (L1 ++ (k, v) :: L2) = length es
          ∧ avlSize m' = avlSize m)).
Proof.
  intros Hm. destruct (reachable_Inv m Hm) as (t & HI).
  destruct (Inv_update_total m t k v HI) as (m' & t' & L1 & L2 & Eu & HI' & He' & Hcase).
  exists m', (entries t), L1, L2.
  assert (Hin : (k, v) ∈ entries t') by (rewrite He'; set_solver).
  split_and!; try done.
  - by eapply Inv_at.
  - eapply Inv_hasKey_true; [done|]. unfold keys.
    apply list_elem_of_fmap. by exists (k, v).
  - by apply Inv_traverse.
  - rewrite <- He'. by apply Inv_traverse.
  - eapply bst_keys_unique; [apply HI'|done].
  - destruct Hcase as [[He Hk]|[v0 He]]; [left|right; exists v0].
    + split_and!; try done.
      * eapply Inv_hasKey_false; [done|done].
      * rewrite He, !length_app. simpl. lia.
      * by eapply Inv_update_absent_size.
      * intros Hlt. rewrite (Inv_update_absent_size _ _ _ _ _ HI Hk Eu).
        apply uint_incr_small. pose proof (Inv_size_bound _ _ HI). lia.
    + split_and!; try done.
      * eapply Inv_hasKey_true; [done|]. unfold keys. rewrite He.
        apply list_elem_of_fmap. exists (k, v0). set_solver.
      * rewrite He, !length_app. simpl. lia.
      * rewrite (Inv_size _ _ HI), (Inv_size _ _ HI'), He', He. f_equal.
        rewrite !length_app. simpl. lia.
Qed.

(** C4, as the code has it.  In every reachable state [remove(k)] fails on
    its assertion exactly when [k] is absent.  When [k] is present it
    returns, [hasKey(k)] is then false, every other entry is still in the
    traversal, in its place, and [avlSize] was decremented as an unsigned
    32-bit counter: by exactly 1 whenever it was positive. *)
Theorem C4_remove m k :
  reachable m →
  (hasKey k m = Ok (false, m) ∧ remove k m = Err AssertRemove)
  ∨ (∃ m' L1 v0 L2,
       hasKey k m = Ok (true, m)
       ∧ remove k m = Ok (tt, m')
       ∧ hasKey k m' = Ok (false, m')
       ∧ traverse m = Ok (L1 ++ (k, v0) :: L2, m)
       ∧ traverse m' = Ok (L1 ++ L2, m')
       ∧ length (L1 ++ (k, v0) :: L2) = S (length (L1 ++ L2))
       ∧ avlSize m' = uint_decr (avlSize m)
       ∧ (0 < avlSize m → avlSize m' = avlSize m - 1)).
Proof.
  intros Hm. destruct (reachable_Inv m Hm) as (t & HI).
  destruct (Inv_hasKey m t k HI) as ([] & Eh & Hbk).
  - right. assert (Hk : k ∈ keys t) by by apply Hbk.
    destruct (Inv_remove_total m t k HI Hk) as (m' & t' & L1 & v0 & L2 & Er & HI' & He & He').
    exists m', L1, v0, L2.
    assert (Hsz : avlSize m' = uint_decr (avlSize m)).
    { rewrite (Inv_size _ _ HI), (Inv_size _ _ HI'), He, He'.
      unfold uint_decr. rewrite Zminus_mod_idemp_l. f_equal.
      rewrite !length_app. simpl. lia. }
    split_and!; try done.
    + eapply Inv_hasKey_false; [done|]. unfold keys. rewrite He'.
      eapply bst_keys_unique; [apply HI|done].
    + rewrite <- He. by apply Inv_traverse.
    + rewrite <- He'. by apply Inv_traverse.
    + rewrite !length_app. simpl. lia.
    + intros Hpos. rewrite Hsz. apply uint_decr_small.
      pose proof (Inv_size_bound _ _ HI). lia.
  - left. split; [done|]. eapply Inv_remove_absent; [done|].
    intros Hk. by apply Hbk in Hk.
Qed.

(** C6. In every reachable state neither [update] nor [remove] nor
    [operator[]] ends on the assertion of [fixUp]: at every node the loop
    visits the heights of the two children differ by at most 2.  [update]
    and [operator[]] return, and [remove] returns or fails on its own
    precondition. *)
Theorem C6_fixUp_assertion_unreachable m k v :
  reachable m →
  update k v m ≠ Err AssertFixUp
  ∧ remove k m ≠ Err AssertFixUp
  ∧ subscript k m ≠ Err AssertFixUp
  ∧ (∃ m', update k v m = Ok (tt, m'))
  ∧ (∃ p m', subscript k m = Ok (p, m'))
  ∧ ((∃ m', remove k m = Ok (tt, m')) ∨ remove k m = Err AssertRemove).
Proof.
  intros Hm. destruct (reachable_Inv m Hm) as (t & HI).
  destruct (Inv_update_total m t k v HI) as (m1 & ? & ? & ? & Eu & _).
  destruct (Inv_subscript m t k HI) as (a & ? & m2 & ? & Es & _).
  assert (Hr : (∃ m', remove k m = Ok (tt, m')) ∨ remove k m = Err AssertRemove).
  { destruct (Inv_hasKey m t k HI) as ([] & Eh & Hbk).
    - left. destruct (Inv_remove_total m t k HI) as (m3 & ? & ? & ? & ? & Er & _); eauto.
      by apply Hbk.
    - right. eapply Inv_remove_absent; [done|]. intros Hk. by apply Hbk in Hk. }
  split_and!; eauto; try congruence.
  destruct Hr as [[? Hr]|Hr]; congruence.
Qed.

(** C8, as the code has it.  In every reachable state [size()] is the number
    of nodes under [root], which is the number of entries a traversal
    visits, modulo 2^32; the two are equal while the map holds fewer than
    2^32 entries. *)
Theorem C8_size m :
  reachable m →
  size_ m = Ok (Z.of_nat (size (nodes m)) mod UINT_MOD, m)
  ∧ (∀ a, reaches (nodes m) (root m) a ↔ is_Some (nodes m !! a))
  ∧ (∃ es, traverse m = Ok (es, m) ∧ length es = size (nodes m))
  ∧ (Z.of_nat (size (nodes m)) < UINT_MOD → avlSize m = Z.of_nat (size (nodes m))).
Proof.
  intros Hm. destruct (reachable_Inv m Hm) as (t & HI).
  pose proof HI as (HR & _).
  pose proof (Rep_size _ _ HR) as Hsz. pose proof (rep_size _ _ HR) as Hs.
  rewrite <- Hsz in Hs. split_and!.
  - unfold size_. by rewrite Hs.
  - intros a. by eapply Rep_reaches.
  - exists (entries t). split; [by apply Inv_traverse|].
    by rewrite Hsz, count_entries.
  - intros Hlt. rewrite Hs. apply Z.mod_small. lia.
Qed.

(** C10. In every reachable state the observers return and leave the state
    as it was: [hasKey] for every key, [at] for a present key, [size],
    [begin], [end], [advance] from every node, and the comparison of
    iterators. *)
Theorem C10_observers_frame m k x i1 i2 :
  reachable m →
  (∃ b, hasKey k m = Ok (b, m))
  ∧ (hasKey k m = Ok (true, m) → ∃ v, at_ k m = Ok (v, m))
  ∧ size_ m = Ok (avlSize m, m)
  ∧ (∃ it, begin_ m = Ok (it, m))
  ∧ end_ m = Ok (None, m)
  ∧ (is_Some (nodes m !! x) → ∃ it, advance (Some x) m = Ok (it, m))
  ∧ iter_eq i1 i2 m = Ok (ptr_eqb i1 i2, m).
Proof.
  intros Hm. destruct (reachable_Inv m Hm) as (t & HI).
  pose proof HI as (HR & _ & Hb). split_and!; try done.
  - destruct (Inv_hasKey m t k HI) as (b & E & _). eauto.
  - intros Eh. destruct (Inv_hasKey m t k HI) as (b & E & Hbk).
    assert (k ∈ keys t) as Hk by (apply Hbk; congruence).
    apply tree_find_keys in Hk as [v Hv]; [|done].
    exists v. eapply Inv_at; [done|]. by apply tree_find_entries.
  - destruct (wp_begin _ _ HR) as (it & ? & E & -> & _). eauto.
  - intros [n Hn].
    destruct (Rep_position _ _ _ _ HR Hn) as (c & l & k' & v & h & r & -> & ->).
    destruct (wp_advance _ _ _ _ _ _ _ _ HR) as (it & ? & E & -> & _). eauto.
Qed.

(** C7, as the code has it.  In every reachable state [operator[](k)]
    returns a reference to the item of the node of [k]: an assignment through
    it is what [at(k)] reads afterwards.  When [k] is present the state is
    unchanged; when [k] is absent the entry is first created by
    [update(k, T())], which increments [avlSize] as an unsigned 32-bit
    counter: by exactly 1 while it is below 2^32 - 1.  [at(k)] fails on its
    assertion when [k] is absent, and when it returns the state is as it
    was. *)
Theorem C7_subscript_and_at m k :
  reachable m →
  ∃ a n m',
    subscript k m = Ok (Some a, m')
    ∧ nodes m' !! a = Some n ∧ key n = k
    ∧ at_ k m' = Ok (item n, m')
    ∧ (∀ v, ∃ m'', assign_item (Some a) v m' = Ok (tt, m'')
                   ∧ at_ k m'' = Ok (v, m'') ∧ avlSize m'' = avlSize m')
    ∧ ((hasKey k m = Ok (true, m) ∧ m' = m)
       ∨ (hasKey k m = Ok (false, m)
          ∧ at_ k m = Err AssertAt
          ∧ update k T_default m = Ok (tt, m')
          ∧ item n = T_default
          ∧ avlSize m' = uint_incr (avlSize m)
          ∧ (avlSize m < UINT_MOD - 1 → avlSize m' = avlSize m + 1))).
Proof.
  intros Hm. destruct (reachable_Inv m Hm) as (t & HI).
  destruct (Inv_subscript m t k HI) as (a & n & m' & t' & Es & HI' & En & Hk & Hin & Hcase).
  exists a, n, m'. split_and!; try done.
  - by eapply Inv_at.
  - intros v. destruct (Inv_assign_total m' t' a n v HI' En) as (m'' & t'' & Ea & _ & Hat & Hsz).
    exists m''. by rewrite <- Hk.
  - destruct Hcase as [(Hkt & -> & ->)|(Hkt & Eu & Hd)]; [left|right].
    + split; [|done]. by eapply Inv_hasKey_true.
    + split_and!; try done.
      * by eapply Inv_hasKey_false.
      * by eapply Inv_at_absent.
      * by eapply Inv_update_absent_size.
      * intros Hlt. rewrite (Inv_update_absent_size _ _ _ _ _ HI Hkt Eu).
        apply uint_incr_small. pose proof (Inv_size_bound _ _ HI). lia.
Qed.

(** C9, as the code has it.  In every reachable state with [k] present,
    [remove(k)] hands to [pluckNode] the removed node itself when that node
    has no left child (it may then have a right child), and otherwise the
    maximum of its left subtree: a node of that subtree whose key is greater
    than the key of every other node of the subtree, and which has no right
    child.  The left child of the node handed over, when there is one, is a
    leaf, so the assertion of [pluckNode] holds and [remove(k)] returns. *)
Theorem C9_pluck_target m k :
  reachable m → hasKey k m = Ok (true, m) →
  ∃ node nn pluck np,
    findNode k m = Ok (Some node, m) ∧ nodes m !! node = Some nn
    ∧ find_pluck (Some node) m = Ok (Some pluck, m) ∧ nodes m !! pluck = Some np
    ∧ (left nn = None → pluck = node)
    ∧ (left nn ≠ None →
       pluck ≠ node ∧ reaches (nodes m) (left nn) pluck ∧ right np = None
       ∧ ∀ b nb, reaches (nodes m) (left nn) b → nodes m !! b = Some nb →
                 b = pluck ∨ klt (key nb) (key np))
    ∧ (∀ c, left np = Some c →
         ∃ nc, nodes m !! c = Some nc ∧ left nc = None ∧ right nc = None)
    ∧ (∃ m', remove k m = Ok (tt, m')).
Proof.
  intros Hm Eh. destruct (reachable_Inv m Hm) as (t & HI).
  pose proof HI as (HR & Ha & Hb).
  destruct (Inv_hasKey m t k HI) as (b & Eh' & Hbk).
  assert (Hk : k ∈ keys t) by (apply Hbk; congruence).
  destruct (Inv_remove_total m t k HI Hk) as (m' & _ & _ & _ & _ & Er & _).
  apply tree_find_keys in Hk as [v Hf]; [|done].
  destruct (descend_present _ _ _ Hf) as (c & l & a & h & r & Ed & ->).
  destruct (wp_findNode _ _ k HR) as (? & ? & Ef & -> & ->).
  rewrite Ed in Ef. unfold found_ptr in Ef. simpl in Ef.
  destruct (wp_find_pluck _ _ _ _ _ _ _ _ HR) as (? & ? & Ep & -> & ->).
  pose proof HR as (_ & (En & Hwl & _) & _ & ((Hal & _) & _) & _)%Rep_plug.
  destruct l as [|ll la kl vl hl lr].
  - exists a. eexists. exists a. eexists. split_and!; try done; eauto.
  - set (l := Node ll la kl vl hl lr) in *.
    change (tree_wf (nodes m) (Some a) l) in Hwl.
    rewrite (descend_max_app (FL a k v h r :: c)) in Ep.
    pose proof (descend_max_plug [] l) as Hpl.
    pose proof (descend_max_eafter [] l) as Hea.
    destruct (descend_max_node [] ll la kl vl hl lr) as (pl & pa & pk & pv & ph & Hnode).
    fold l in Hnode. destruct (descend_max [] l) as [cs p].
    simpl in Hnode, Hpl, Hea, Ep. subst p.
    pose proof (bst_inodes _ Hb) as Hsorted.
    pose proof HR as HR0.
    assert (Hbl : bst l).
    { unfold bst in Hb |- *. rewrite entries_plug in Hb. simpl in Hb.
      apply StronglySorted_app in Hb as (_ & _ & Hb).
      apply StronglySorted_app in Hb as (_ & Hb & _).
      by apply StronglySorted_app in Hb as (_ & Hb & _). }
    assert (Hfocus : plug c (Node l a k v h r)
                     = plug (cs ++ FL a k v h r :: c) (Node pl pa pk pv ph Leaf)).
    { by rewrite plug_app, Hpl. }
    assert (Hpa : pa ∈ addrs l).
    { rewrite <- Hpl, addrs_plug. simpl. set_solver. }
    rewrite Hfocus in HR, Ha.
    pose proof HR as (_ & (Enp & Hwpl & _) & _)%Rep_plug.
    apply avl_plug in Ha as [(Apl & _ & _ & Hbal) _].
    exists a. eexists. exists pa. eexists. split_and!; try done; eauto.
    + intros _. split_and!; [set_solver| |done|].
      * by apply (tree_wf_reaches _ _ l _ Hwl).
      * intros x nx Hreach Enb. simpl.
        apply (tree_wf_reaches _ _ l _ Hwl) in Hreach.
        pose proof (tree_wf_entry _ _ l x nx Hwl Hreach Enb) as Hin.
        unfold bst in Hbl. rewrite <- Hpl, entries_plug, Hea in Hbl, Hin.
        simpl in Hbl, Hin. rewrite app_nil_r, app_assoc in Hbl, Hin.
        apply elem_of_app in Hin as [Hin|Hin].
        -- right. apply StronglySorted_app in Hbl as (Hlt & _ & _).
           apply (Hlt (key nx, item nx) (pk, pv) Hin). set_solver.
        -- left. apply list_elem_of_singleton in Hin.
           assert ((x, (key nx, item nx)) = (pa, (pk, pv))) as [= -> _ _];
             [|done].
           apply (sorted_key_inj _ _ _ Hsorted).
           ++ by eapply Rep_inodes.
           ++ replace (pk, pv) with (key (mkNode pk pv (root_ptr pl) None
                                           (cpar (cs ++ FL a k v h r :: c)) ph),
                                     item (mkNode pk pv (root_ptr pl) None
                                           (cpar (cs ++ FL a k v h r :: c)) ph))
                by done.
              eapply Rep_inodes; [exact HR0|exact Enp].
           ++ simpl. by injection Hin as -> _.
    + simpl. intros c0 Hc0.
      destruct pl as [|pll pla plk plv plh plr]; simplify_eq/=.
      destruct Apl as (Apll & Aplr & -> & _).
      pose proof (avl_rheight _ Apll). pose proof (avl_rheight _ Aplr).
      rewrite (avl_neg_leaf pll) in Hwpl; [|done|lia].
      rewrite (avl_neg_leaf plr) in Hwpl; [|done|lia].
      destruct Hwpl as (Ec0 & _). eauto.
Qed.

(** C5. In every reachable state [begin()] is [end()] when the map is empty
    and otherwise designates a node whose key is smaller than every other
    key; [advance] from a node moves to the node with the smallest key
    greater than its own, or to [end()] when no key is greater; and the
    traversal from [begin()] visits the stored entries, each once, in
    strictly ascending order of the keys, and ends on [end()]. *)
Theorem C5_iteration m :
  reachable m →
  (∃ it, begin_ m = Ok (it, m) ∧ end_ m = Ok (None, m)
     ∧ match it with
       | None => nodes m = ∅
       | Some a =>
           ∃ n, nodes m !! a = Some n
                ∧ ∀ b nb, nodes m !! b = Some nb → b = a ∨ klt (key n) (key nb)
       end)
  ∧ (∀ x nx, nodes m !! x = Some nx →
       ∃ it, advance (Some x) m = Ok (it, m)
         ∧ match it with
           | None => ∀ b nb, nodes m !! b = Some nb → ¬ klt (key nx) (key nb)
           | Some y =>
               ∃ ny, nodes m !! y = Some ny ∧ klt (key nx) (key ny)
                     ∧ ∀ b nb, nodes m !! b = Some nb → klt (key nx) (key nb) →
                               b = y ∨ klt (key ny) (key nb)
           end)
  ∧ (∃ es, traverse m = Ok (es, m)
       ∧ StronglySorted klt es.*1
       ∧ ∀ k v, (k, v) ∈ es ↔ ∃ a n, nodes m !! a = Some n ∧ key n = k ∧ item n = v).
Proof.
  intros Hm. destruct (reachable_Inv m Hm) as (t & HI).
  pose proof HI as (HR & _ & Hb). apply bst_inodes in Hb as Hs.
  split_and!.
  - destruct (wp_begin _ _ HR) as (it & ? & E & -> & ->).
    eexists. split_and!; [done|done|].
    destruct (inodes t) as [|[a [k v]] R] eqn:Hin; simpl.
    + apply dom_empty_iff_L. rewrite (rep_dom _ _ HR).
      destruct t; [done|]. simpl in Hin. by destruct (inodes t1).
    + destruct (inodes_Rep m t a (k, v) HR) as (n & En & Hk & _).
      { rewrite Hin. set_solver. }
      exists n. split; [done|]. intros b nb Enb.
      pose proof (Rep_inodes _ _ _ _ HR Enb) as Hbin. rewrite Hin in Hbin.
      apply elem_of_cons in Hbin as [?|Hbin]; [left; by simplify_eq|right].
      apply StronglySorted_cons in Hs as [Hs _]. rewrite Forall_forall in Hs.
      specialize (Hs _ Hbin). unfold ilt in Hs. simpl in *. by rewrite Hk.
  - intros x nx Ex.
    destruct (Rep_position _ _ _ _ HR Ex) as (c & l & k & v & h & r & -> & ->).
    destruct (wp_advance _ _ _ _ _ _ _ _ HR) as (it & ? & E & -> & ->).
    eexists. split; [done|]. simpl.
    rewrite inodes_plug_node in Hs.
    apply StronglySorted_app in Hs as (Hlt & _ & Hs).
    apply StronglySorted_cons in Hs as [Hgt Hs]. rewrite Forall_forall in Hgt.
    assert (Hall : ∀ b nb, nodes m !! b = Some nb → klt k (key nb) →
                           (b, (key nb, item nb)) ∈ inodes r ++ iafter c).
    { intros b nb Enb Hkb. pose proof (Rep_inodes _ _ _ _ HR Enb) as Hbin.
      rewrite inodes_plug_node in Hbin.
      apply elem_of_app in Hbin as [Hbin|Hbin].
      - specialize (Hlt _ (x, (k, v)) Hbin). unfold ilt in Hlt. simpl in Hlt.
        destruct (klt_irrefl k). eapply key_lt_trans; [exact Hkb|]. apply Hlt. set_solver.
      - apply elem_of_cons in Hbin as [?|?]; [|done]. simplify_eq.
        by destruct (klt_irrefl (key nb)). }
    destruct (inodes r ++ iafter c) as [|[y [ky vy]] R] eqn:Hin; simpl.
    + intros b nb Enb Hkb. specialize (Hall _ _ Enb Hkb). by apply elem_of_nil in Hall.
    + destruct (inodes_Rep m _ y (ky, vy) HR) as (ny & Eny & Hky & _).
      { rewrite inodes_plug_node, Hin. set_solver. }
      simpl in Hky. exists ny. split_and!; [done| |].
      * rewrite Hky. apply (Hgt (y, (ky, vy))). set_solver.
      * intros b nb Enb Hkb. specialize (Hall _ _ Enb Hkb).
        apply elem_of_cons in Hall as [?|Hall]; [left; by simplify_eq|right].
        apply StronglySorted_cons in Hs as [Hs _]. rewrite Forall_forall in Hs.
        specialize (Hs _ Hall). unfold ilt in Hs. simpl in Hs. by rewrite Hky.
  - exists (entries t). split_and!.
    + by apply Inv_traverse.
    + destruct HI as (_ & _ & Hb'). by eapply StronglySorted_fmap; [|exact Hb'].
    + intros k v. rewrite <- inodes_entries, list_elem_of_fmap. split.
      * intros ([a [k' v']] & Heq & Hin). simpl in Heq. simplify_eq.
        destruct (inodes_Rep m t a (k', v') HR Hin) as (n & En & Hk & Hv). eauto.
      * intros (a & n & En & <- & <-). exists (a, (key n, item n)).
        split; [done|]. by eapply Rep_inodes.
Qed.


(** * Further properties *)

(** ** Lookups against the traversal *)

Lemma Inv_at_Ok m t k v :
  Inv m t → at_ k m = Ok (v, m) → (k, v) ∈ entries t.
Proof.
  intros HI E. destruct HI as (HR & Ha & Hb).
  destruct (tree_find k t) as [v'|] eqn:F.
  - destruct (wp_at m t k v' HR F) as (x & m' & E' & -> & ->).
    rewrite E in E'. injection E' as ->. by apply tree_find_entries.
  - rewrite (at_absent m t k HR F) in E. done.
Qed.

Lemma Inv_at_Err m t k :
  Inv m t → at_ k m = Err AssertAt → k ∉ keys t.
Proof.
  intros HI E Hin. destruct HI as (HR & Ha & Hb).
  apply (tree_find_keys k t Hb) in Hin as [v F].
  destruct (wp_at m t k v HR F) as (x & m' & E' & _). by rewrite E in E'.
Qed.

(** Two states that list the same items for [k] answer [hasKey(k)] and
    [at(k)] alike. *)
Lemma Inv_lookup_agree m t m' t' k :
  Inv m t → Inv m' t' →
  (∀ x, (k, x) ∈ entries t ↔ (k, x) ∈ entries t') →
  (∀ b, hasKey k m = Ok (b, m) → hasKey k m' = Ok (b, m'))
  ∧ (∀ x, at_ k m = Ok (x, m) → at_ k m' = Ok (x, m'))
  ∧ (at_ k m = Err AssertAt → at_ k m' = Err AssertAt).
Proof.
  intros HI HI' Hsame.
  assert (k ∈ keys t ↔ k ∈ keys t') as Hk.
  { unfold keys. rewrite !list_elem_of_fmap.
    split; intros ([k0 x] & -> & Hin); exists (k0, x); split; try done;
      by apply Hsame. }
  split_and!.
  - intros b E. destruct (Inv_hasKey m t k HI) as (b0 & E0 & Hb0).
    rewrite E in E0. injection E0 as <-.
    destruct (Inv_hasKey m' t' k HI') as (b' & E' & Hb').
    rewrite E'. do 2 f_equal. destruct b, b'; try done.
    + destruct Hb' as [_ Hb']. by rewrite Hb'; [|apply Hk, Hb0].
    + destruct Hb0 as [_ Hb0]. by rewrite Hb0; [|apply Hk, Hb'].
  - intros x E. eapply Inv_at; [done|]. apply Hsame. by eapply Inv_at_Ok.
  - intros E. eapply Inv_at_absent; [done|]. rewrite <- Hk.
    by eapply Inv_at_Err.
Qed.

(** X1. In every reachable state [hasKey(k)] returns true exactly when the
    traversal lists the key [k]; [at(k)] returns [v] exactly when the
    traversal lists [k] with the item [v], and fails its assertion exactly
    when the traversal does not list [k]. *)
Theorem lookup_agrees_with_traversal m k :
  reachable m →
  ∃ es b,
    traverse m = Ok (es, m)
    ∧ hasKey k m = Ok (b, m) ∧ (b = true ↔ k ∈ es.*1)
    ∧ (∀ v, at_ k m = Ok (v, m) ↔ (k, v) ∈ es)
    ∧ (at_ k m = Err AssertAt ↔ k ∉ es.*1).
Proof.
  intros Hm. destruct (reachable_Inv m Hm) as (t & HI).
  destruct (Inv_hasKey m t k HI) as (b & Eb & Hb).
  exists (entries t), b. split_and!; try done.
  - by apply Inv_traverse.
  - intros v. split; [by apply Inv_at_Ok|by apply Inv_at].
  - split; [by apply Inv_at_Err|by apply Inv_at_absent].
Qed.

(** ** The other keys *)

Lemma elem_of_middle_ne (L1 L2 : list (K * T)) k v k' x :
  k' ≠ k → (k', x) ∈ L1 ++ (k, v) :: L2 ↔ (k', x) ∈ L1 ++ L2.
Proof.
  intros Hne. rewrite !elem_of_app, elem_of_cons.
  split; [intros [?|[[=]|?]]|intros [?|?]]; auto. done.
Qed.

(** X2. A returning [update(k, v)] from a reachable state leaves the answers
    of [hasKey] and [at] for every other key as they were. *)
Theorem update_other_keys m k v m' k' :
  reachable m → update k v m = Ok (tt, m') → k' ≠ k →
  (∀ b, hasKey k' m = Ok (b, m) → hasKey k' m' = Ok (b, m'))
  ∧ (∀ x, at_ k' m = Ok (x, m) → at_ k' m' = Ok (x, m'))
  ∧ (at_ k' m = Err AssertAt → at_ k' m' = Err AssertAt).
Proof.
  intros Hm Hu Hne. destruct (reachable_Inv m Hm) as (t & HI).
  destruct (Inv_update m t k v m' HI Hu) as (t' & L1 & L2 & HI' & He' & Hcase).
  apply (Inv_lookup_agree m t m' t' k' HI HI').
  intros x. rewrite He', (elem_of_middle_ne _ _ _ _ _ _ Hne).
  destruct Hcase as [[-> _]|[v0 ->]]; [done|].
  by rewrite (elem_of_middle_ne _ _ _ _ _ _ Hne).
Qed.

(** X3. A returning [remove(k)] from a reachable state leaves the answers of
    [hasKey] and [at] for every other key as they were. *)
Theorem remove_other_keys m k m' k' :
  reachable m → remove k m = Ok (tt, m') → k' ≠ k →
  (∀ b, hasKey k' m = Ok (b, m) → hasKey k' m' = Ok (b, m'))
  ∧ (∀ x, at_ k' m = Ok (x, m) → at_ k' m' = Ok (x, m'))
  ∧ (at_ k' m = Err AssertAt → at_ k' m' = Err AssertAt).
Proof.
  intros Hm Hr Hne. destruct (reachable_Inv m Hm) as (t & HI).
  destruct (Inv_remove m t k m' HI Hr) as (t' & L1 & v0 & L2 & HI' & He & He').
  apply (Inv_lookup_agree m t m' t' k' HI HI').
  intros x. by rewrite He, He', (elem_of_middle_ne _ _ _ _ _ _ Hne).
Qed.

(** ** Repeating and undoing an update *)

Lemma update_present m a n k v :
  findNode k m = Ok (Some a, m) → nodes m !! a = Some n → key n = k →
  update k v m = set_item (Some a) v m.
Proof.
  intros Hf Hn Hk. unfold update.
  rewrite (bind_Ok _ _ _ _ _ Hf).
  assert (deref (Some a) m = Ok (n, m)) as Hd by (unfold deref; by rewrite Hn).
  erewrite bind_Ok; last first.
  { erewrite bind_Ok; [|exact Hd]. reflexivity. }
  assert (key_neq (key n) k = false) as -> by by apply key_neq_false.
  done.
Qed.

(** X4. [update(k, v)] twice is [update(k, v)] once: from the state a
    returning [update(k, v)] leaves in a reachable state, the same call
    returns and leaves the state as it is. *)
Theorem update_idempotent m k v m' :
  reachable m → update k v m = Ok (tt, m') → update k v m' = Ok (tt, m').
Proof.
  intros Hm Hu. destruct (reachable_Inv m Hm) as (t & HI).
  destruct (Inv_update m t k v m' HI Hu) as (t' & L1 & L2 & HI' & He' & _).
  assert ((k, v) ∈ entries t') as Hin by (rewrite He'; set_solver).
  destruct HI' as (HR' & _ & Hb').
  apply (tree_find_entries k t' v Hb') in Hin.
  destruct (findNode_present m' t' k v HR' Hin) as (a & n & Hf & Hn & Hk & Hv).
  rewrite (update_present m' a n k v Hf Hn Hk).
  unfold set_item.
  assert (deref (Some a) m' = Ok (n, m')) as Hd by (unfold deref; by rewrite Hn).
  rewrite (bind_Ok _ _ _ _ _ Hd). unfold store. rewrite Hn.
  destruct m' as [h rt sz]. simpl in *. do 3 f_equal.
  destruct n as [kn vn ln rn pn hn]. simpl in *. subst vn.
  unfold with_item. simpl. by apply insert_id.
Qed.

Lemma split_unique (L1 L2 L1' L2' : list (K * T)) k v v' :
  k ∉ L1.*1 → k ∉ L1'.*1 →
  L1 ++ (k, v) :: L2 = L1' ++ (k, v') :: L2' →
  L1 = L1' ∧ v = v' ∧ L2 = L2'.
Proof.
  revert L1'. induction L1 as [|[k1 v1] L1 IH]; intros [|[k1' v1'] L1'] H1 H1' E;
    simpl in *.
  - by injection E as -> ->.
  - injection E as -> -> _. set_solver.
  - injection E as -> -> _. set_solver.
  - injection E as -> -> E.
    destruct (IH L1') as (-> & -> & ->); [set_solver|set_solver|done|done].
Qed.

(** X5. Adding a key and removing it again gives the map back: when [k] is
    absent from a reachable state, [remove(k)] after [update(k, v)] returns,
    and the traversal and [avlSize] are then what they were before the
    two calls. *)
Theorem update_remove_roundtrip m k v m1 :
  reachable m → hasKey k m = Ok (false, m) → update k v m = Ok (tt, m1) →
  ∃ m2 es,
    remove k m1 = Ok (tt, m2)
    ∧ traverse m = Ok (es, m)
    ∧ traverse m2 = Ok (es, m2)
    ∧ avlSize m2 = avlSize m.
Proof.
  intros Hm Hh Hu. destruct (reachable_Inv m Hm) as (t & HI).
  assert (k ∉ keys t) as Habs.
  { intros Hin. rewrite (Inv_hasKey_true m t k HI Hin) in Hh. done. }
  destruct (Inv_update m t k v m1 HI Hu) as (t1 & L1 & L2 & HI1 & He1 & Hcase).
  destruct Hcase as [[He _]|[v0 He]]; last first.
  { exfalso. apply Habs. unfold keys. rewrite He, fmap_app, fmap_cons. set_solver. }
  assert (k ∈ keys t1) as Hin1.
  { unfold keys. rewrite He1, fmap_app, fmap_cons. set_solver. }
  destruct (Inv_remove_total m1 t1 k HI1 Hin1)
    as (m2 & t2 & L1' & v0 & L2' & Hr & HI2 & He1' & He2).
  assert (L1 = L1' ∧ v = v0 ∧ L2 = L2') as (<- & <- & <-).
  { apply (split_unique _ _ _ _ k).
    - unfold keys in Habs. rewrite He, fmap_app in Habs. set_solver.
    - destruct HI1 as (_ & _ & Hb1). unfold bst in Hb1. rewrite He1' in Hb1.
      apply bst_key_unique in Hb1. rewrite fmap_app in Hb1. set_solver.
    - by rewrite <- He1, <- He1'. }
  exists m2, (entries t). split_and!; [done|by apply Inv_traverse| |].
  - rewrite He, <- He2. by apply Inv_traverse.
  - by rewrite (Inv_size _ _ HI), (Inv_size _ _ HI2), He, He2.
Qed.

(** ** The order of two updates *)

Lemma sorted_NoDup (L : list (K * T)) : StronglySorted elt L → NoDup L.
Proof.
  induction 1 as [|e L _ IH Hall]; constructor; [|done].
  intros Hin. rewrite Forall_forall in Hall. specialize (Hall e Hin).
  unfold elt in Hall. by apply klt_irrefl in Hall.
Qed.

(** Two ascending lists with the same entries are the same list. *)
Lemma sorted_ext (L L' : list (K * T)) :
  StronglySorted elt L → StronglySorted elt L' →
  (∀ e, e ∈ L ↔ e ∈ L') → L = L'.
Proof.
  intros HL HL' Hsame.
  apply (StronglySorted_unique_strong elt); [|done|done|].
  - intros x1 x2 _ _ H12 H21. unfold elt in *.
    exfalso. apply (klt_irrefl x1.1). unfold klt in *. by eapply key_lt_trans.
  - apply NoDup_Permutation; [by apply sorted_NoDup|by apply sorted_NoDup|done].
Qed.

Lemma Inv_update_elem m t k v m' :
  Inv m t → update k v m = Ok (tt, m') →
  ∃ t', Inv m' t'
    ∧ ∀ k' x, (k', x) ∈ entries t'
              ↔ (k' = k ∧ x = v) ∨ (k' ≠ k ∧ (k', x) ∈ entries t).
Proof.
  intros HI Hu.
  destruct (Inv_update m t k v m' HI Hu) as (t' & L1 & L2 & HI' & He' & Hcase).
  exists t'. split; [done|]. intros k' x.
  assert (k ∉ (L1 ++ L2).*1) as Huniq.
  { destruct HI' as (_ & _ & Hb'). unfold bst in Hb'. rewrite He' in Hb'.
    by apply bst_key_unique in Hb'. }
  assert ((k', x) ∈ L1 ++ L2 → k' ≠ k) as Hother.
  { intros Hin ->. apply Huniq. apply list_elem_of_fmap. by exists (k, x). }
  assert (k' ≠ k → (k', x) ∈ entries t ↔ (k', x) ∈ L1 ++ L2) as Hold.
  { intros Hne. destruct Hcase as [[-> _]|[v0 ->]]; [done|].
    by apply elem_of_middle_ne. }
  rewrite He'. split.
  - rewrite elem_of_app, elem_of_cons. intros [H1|[[= -> ->]|H2]].
    + right. assert ((k', x) ∈ L1 ++ L2) as Hin by set_solver.
      split; [by apply Hother|]. by apply Hold; [apply Hother|].
    + by left.
    + right. assert ((k', x) ∈ L1 ++ L2) as Hin by set_solver.
      split; [by apply Hother|]. by apply Hold; [apply Hother|].
  - intros [[-> ->]|[Hne Hin]]; [set_solver|].
    apply elem_of_middle_ne; [done|]. by apply Hold.
Qed.

(** X6. Updates of two different keys commute for what the map shows: from a
    reachable state, [update(k1, v1)] then [update(k2, v2)], and
    [update(k2, v2)] then [update(k1, v1)], all return, and the two final
    states have the same traversal and the same [avlSize]. *)
Theorem update_commute m k1 v1 k2 v2 :
  reachable m → k1 ≠ k2 →
  ∃ m1 m12 m2 m21 es,
    update k1 v1 m = Ok (tt, m1) ∧ update k2 v2 m1 = Ok (tt, m12)
    ∧ update k2 v2 m = Ok (tt, m2) ∧ update k1 v1 m2 = Ok (tt, m21)
    ∧ traverse m12 = Ok (es, m12) ∧ traverse m21 = Ok (es, m21)
    ∧ avlSize m12 = avlSize m21.
Proof.
  intros Hm Hne. destruct (reachable_Inv m Hm) as (t & HI).
  destruct (Inv_update_total m t k1 v1 HI) as (m1 & t1' & ? & ? & Hu1 & HI1' & _).
  destruct (Inv_update_elem m t k1 v1 m1 HI Hu1) as (t1 & HI1 & H1).
  destruct (Inv_update_total m1 t1 k2 v2 HI1) as (m12 & ? & ? & ? & Hu12 & _).
  destruct (Inv_update_elem m1 t1 k2 v2 m12 HI1 Hu12) as (t12 & HI12 & H12).
  destruct (Inv_update_total m t k2 v2 HI) as (m2 & ? & ? & ? & Hu2 & _).
  destruct (Inv_update_elem m t k2 v2 m2 HI Hu2) as (t2 & HI2 & H2).
  destruct (Inv_update_total m2 t2 k1 v1 HI2) as (m21 & ? & ? & ? & Hu21 & _).
  destruct (Inv_update_elem m2 t2 k1 v1 m21 HI2 Hu21) as (t21 & HI21 & H21).
  assert (entries t12 = entries t21) as He.
  { apply sorted_ext; [apply HI12|apply HI21|].
    intros [k' x']. rewrite H12, H21, H1, H2. naive_solver. }
  exists m1, m12, m2, m21, (entries t12). split_and!; try done.
  - by apply Inv_traverse.
  - rewrite He. by apply Inv_traverse.
  - by rewrite (Inv_size _ _ HI12), (Inv_size _ _ HI21), He.
Qed.

(** ** The parent pointers *)

Lemma croot_in c p : c ≠ [] → ∃ b, croot c p = Some b ∧ b ∈ caddrs c.
Proof.
  revert p. induction c as [|f c IH]; intros p Hne; [done|]. simpl.
  destruct c as [|f' c].
  - exists (faddr f). simpl. split; [done|set_solver].
  - destruct (IH (Some (faddr f))) as (b & E & Hb); [done|].
    exists b. split; [done|]. set_solver.
Qed.

(** X7. In every reachable state the [parent] pointers mirror the child
    pointers: a child of a node has that node as its parent, the nodes
    without parent are exactly the root, and a node with a parent is the left
    or the right child of it. *)
Theorem parent_links m a n :
  reachable m → nodes m !! a = Some n →
  (∀ c, left n = Some c → ∃ nc, nodes m !! c = Some nc ∧ parent nc = Some a)
  ∧ (∀ c, right n = Some c → ∃ nc, nodes m !! c = Some nc ∧ parent nc = Some a)
  ∧ (parent n = None ↔ root m = Some a)
  ∧ (∀ p, parent n = Some p →
       ∃ np, nodes m !! p = Some np ∧ (left np = Some a ∨ right np = Some a)).
Proof.
  intros Hm Hn. destruct (reachable_Inv m Hm) as (t & HR & _ & _).
  destruct (Rep_position _ _ _ _ HR Hn) as (c & l & k & v & h & r & -> & ->).
  apply Rep_plug in HR as (Hc & (_ & Hl & Hr) & Hroot & (_ & _ & Hdisj) & _).
  simpl in *. split_and!.
  - intros b Hb. destruct l as [|ll b' kl vl hl lr]; simplify_eq/=.
    destruct Hl as (E & _). eauto.
  - intros b Hb. destruct r as [|rl b' kr vr hr rr]; simplify_eq/=.
    destruct Hr as (E & _). eauto.
  - destruct c as [|f c]; simpl in *; [done|]. split; [done|].
    intros E. exfalso.
    destruct (croot_in (f :: c) (Some a)) as (b & Eb & Hb); [done|].
    simpl in Eb. rewrite Hroot, Eb in E. injection E as ->.
    simpl in Hb. set_solver.
  - intros p Hp. destruct c as [|f c]; simplify_eq/=.
    destruct Hc as (Hf & _). destruct f; simpl in *; destruct Hf as (E & _); eauto.
Qed.

(** ** The height of the tree *)

Lemma avl_count_bound t :
  avl t → -1 ≤ rheight t ∧ 2 ^ ((rheight t + 2) / 2) ≤ Z.of_nat (count t) + 1.
Proof.
  induction t as [|l IHl a k v h r IHr]; intros Ha; simpl in *.
  - split; [lia|]. by change ((-1 + 2) / 2) with 0.
  - destruct Ha as (Hl & Hr & -> & Hbal).
    destruct (IHl Hl) as [Hl0 Hlc]. destruct (IHr Hr) as [Hr0 Hrc].
    set (hl := rheight l) in *. set (hr := rheight r) in *.
    set (h := 1 + hl `max` hr).
    assert (0 ≤ h) as Hh by lia. split; [lia|].
    assert ((h + 2) / 2 = h / 2 + 1) as ->.
    { replace (h + 2) with (h + 1 * 2) by lia. by rewrite Z.div_add. }
    assert (0 ≤ h / 2) as Hh2 by (apply Z.div_pos; lia).
    rewrite Z.pow_add_r by lia. change (2 ^ 1) with 2.
    assert (2 ^ (h / 2) ≤ 2 ^ ((hl + 2) / 2)) as Hpl.
    { apply Z.pow_le_mono_r; [lia|]. apply Z.div_le_mono; lia. }
    assert (2 ^ (h / 2) ≤ 2 ^ ((hr + 2) / 2)) as Hpr.
    { apply Z.pow_le_mono_r; [lia|]. apply Z.div_le_mono; lia. }
    lia.
Qed.

(** X8. The tree of a reachable state is of logarithmic height: with [h]
    the height of the tree under [root] (-1 for the empty tree) and [n] the
    number of nodes, 2 ^ ((h + 2) / 2) <= n + 1. *)
Theorem height_logarithmic m h :
  reachable m → subtree_height (nodes m) (root m) h →
  2 ^ ((h + 2) / 2) ≤ Z.of_nat (size (nodes m)) + 1.
Proof.
  intros Hm Hh. destruct (reachable_Inv m Hm) as (t & HR & Ha & _).
  pose proof (tree_wf_height _ _ _ (rep_wf _ _ HR) Ha) as Ht.
  rewrite <- (rep_root _ _ HR) in Ht.
  rewrite (subtree_height_unique _ _ _ _ Hh Ht), (Rep_size _ _ HR).
  by apply avl_count_bound.
Qed.

(** ** Assignment through an item reference *)

(** X9. An assignment through the reference that [operator[]] or
    [AVLIterator::item()] gives for a node of a reachable state returns and
    changes the item of that entry only: the traversal lists the same keys
    with the same items, but for the item assigned, and [avlSize] is as it
    was. *)
Theorem assign_item_frame m a n v :
  reachable m → nodes m !! a = Some n →
  ∃ m' L1 L2,
    assign_item (Some a) v m = Ok (tt, m')
    ∧ traverse m = Ok (L1 ++ (key n, item n) :: L2, m)
    ∧ traverse m' = Ok (L1 ++ (key n, v) :: L2, m')
    ∧ avlSize m' = avlSize m.
Proof.
  intros Hm Hn. destruct (reachable_Inv m Hm) as (t & HI).
  destruct (Inv_assign_total m t a n v HI Hn) as (m' & _ & Ha & _ & _ & Hsz).
  destruct (Inv_assign m t (Some a) v m' HI Ha)
    as (c & l & a' & k & v0 & h & r & [= <-] & -> & HI').
  assert (n = mkNode k v0 (root_ptr l) (root_ptr r) (cpar c) h) as ->.
  { destruct HI as (HR & _). apply Rep_plug in HR as (_ & (E & _) & _).
    simpl in E. congruence. }
  exists m', (ebefore c ++ entries l), (entries r ++ eafter c).
  split_and!; [done| | |done].
  - rewrite (Inv_traverse m _ HI), entries_plug. simpl.
    by rewrite <- !app_assoc.
  - rewrite (Inv_traverse m' _ HI'), entries_plug. simpl.
    by rewrite <- !app_assoc.
Qed.

(** ** What findNode returns *)

(** X10. In every reachable state [findNode(k)] returns, leaving the state
    as it is: [NULL] when the map is empty; the node that holds [k] when [k]
    is present; and otherwise the node a new node for [k] belongs under,
    which has no left child when [k] is below its key, and no right child
    when [k] is above it. *)
Theorem findNode_contract m k :
  reachable m →
  ∃ p, findNode k m = Ok (p, m)
    ∧ match p with
      | None => nodes m = ∅
      | Some a =>
          ∃ n, nodes m !! a = Some n
            ∧ ((key n = k ∧ hasKey k m = Ok (true, m))
               ∨ (hasKey k m = Ok (false, m)
                  ∧ ((klt k (key n) ∧ left n = None)
                     ∨ (klt (key n) k ∧ right n = None))))
      end.
Proof.
  intros Hm. destruct (reachable_Inv m Hm) as (t & HI).
  pose proof HI as (HR & _ & Hb).
  destruct (wp_findNode m t k HR) as (p & m' & Hf & -> & ->).
  exists (found_ptr (descend k [] t)). split; [done|].
  destruct (descend k [] t) as [c s] eqn:Hd. unfold found_ptr. simpl.
  pose proof (descend_plug _ _ _ _ _ Hd) as Hpl. simpl in Hpl. subst t.
  destruct s as [|l a k' v h r].
  - destruct c as [|f c]; simpl.
    + apply dom_empty_iff_L. by rewrite (rep_dom _ _ HR).
    + pose proof (descend_leaf_frame _ _ _ _ Hd) as Hg.
      destruct (descend_leaf_absent _ _ _ Hb Hd) as (_ & Habs & _).
      pose proof (Inv_hasKey_false _ _ _ HI Habs) as Hh.
      apply Rep_plug in HR as ((Hfw & _) & _).
      destruct f as [a k' v h r|l a k' v h]; simpl in *;
        destruct Hfw as (E & _); destruct Hg as (Hne & Hlt);
        eexists; (split; [exact E|]); right; (split; [done|]); simpl.
      * by left.
      * right. split; [|done]. by apply klt_not_lt.
  - pose proof (descend_found _ _ _ _ _ _ _ _ _ _ Hd) as ->.
    pose proof HR as HR'.
    apply Rep_plug in HR' as (_ & (E & _) & _). simpl in E.
    eexists. split; [exact E|]. left. split; [done|].
    apply (Inv_hasKey_true _ _ _ HI). unfold keys. rewrite entries_plug. simpl.
    rewrite !fmap_app, fmap_cons. set_solver.
Qed.

(** ** The rotations *)

Lemma Rep_avlSize_entries m t m' t' :
  Rep m t → Rep m' t' → entries t' = entries t → avlSize m' = avlSize m.
Proof.
  intros HR HR' He.
  by rewrite (rep_size _ _ HR), (rep_size _ _ HR'), !count_entries, He.
Qed.

(** X11. [rotateRight] on a node of a reachable state that has a left child
    returns that child, which then has the node as its right child, and the
    traversal and [avlSize] are as they were. *)
Theorem rotateRight_keeps_order m a n l :
  reachable m → nodes m !! a = Some n → left n = Some l →
  ∃ m' es nl na,
    rotateRight (Some a) m = Ok (Some l, m')
    ∧ traverse m = Ok (es, m) ∧ traverse m' = Ok (es, m')
    ∧ avlSize m' = avlSize m
    ∧ nodes m' !! l = Some nl ∧ right nl = Some a ∧ parent nl = parent n
    ∧ nodes m' !! a = Some na ∧ parent na = Some l ∧ right na = right n.
Proof.
  intros Hm Hn Hl. destruct (reachable_Inv m Hm) as (t & HR & _ & _).
  destruct (Rep_position _ _ _ _ HR Hn) as (c & tl & k & v & h & r & -> & ->).
  destruct tl as [|ll la kl vl hl lr]; simplify_eq/=.
  set (s := Node (Node ll l kl vl hl lr) a k v h r) in *.
  destruct (rot_right s) as [s'|] eqn:Hrot; [|done].
  destruct (wp_rotateRight m c s s' HR Hrot) as (p & m' & E & -> & HR').
  pose proof (rot_right_entries _ _ Hrot) as He.
  destruct (wp_traverse m _ HR) as (es & ? & Et & -> & ->).
  destruct (wp_traverse m' _ HR') as (es' & ? & Et' & -> & ->).
  unfold s in Hrot. simpl in Hrot. injection Hrot as <-.
  pose proof HR' as HR2.
  apply Rep_plug in HR2 as (_ & (El & _ & (Ea & _)) & _). simpl in El, Ea.
  eexists m', _, _, _. split_and!; try done.
  - rewrite Et'. by rewrite !entries_plug, He.
  - eapply Rep_avlSize_entries; [done|done|]. by rewrite !entries_plug, He.
Qed.

(** X12. [rotateLeft] on a node of a reachable state that has a right child
    returns that child, which then has the node as its left child, and the
    traversal and [avlSize] are as they were. *)
Theorem rotateLeft_keeps_order m a n r :
  reachable m → nodes m !! a = Some n → right n = Some r →
  ∃ m' es nr na,
    rotateLeft (Some a) m = Ok (Some r, m')
    ∧ traverse m = Ok (es, m) ∧ traverse m' = Ok (es, m')
    ∧ avlSize m' = avlSize m
    ∧ nodes m' !! r = Some nr ∧ left nr = Some a ∧ parent nr = parent n
    ∧ nodes m' !! a = Some na ∧ parent na = Some r ∧ left na = left n.
Proof.
  intros Hm Hn Hr. destruct (reachable_Inv m Hm) as (t & HR & _ & _).
  destruct (Rep_position _ _ _ _ HR Hn) as (c & l & k & v & h & tr & -> & ->).
  destruct tr as [|rl ra kr vr hr rr]; simplify_eq/=.
  set (s := Node l a k v h (Node rl r kr vr hr rr)) in *.
  destruct (rot_left s) as [s'|] eqn:Hrot; [|done].
  destruct (wp_rotateLeft m c s s' HR Hrot) as (p & m' & E & -> & HR').
  pose proof (rot_left_entries _ _ Hrot) as He.
  destruct (wp_traverse m _ HR) as (es & ? & Et & -> & ->).
  destruct (wp_traverse m' _ HR') as (es' & ? & Et' & -> & ->).
  unfold s in Hrot. simpl in Hrot. injection Hrot as <-.
  pose proof HR' as HR2.
  apply Rep_plug in HR2 as (_ & (Er & (Ea & _) & _) & _). simpl in Er, Ea.
  eexists m', _, _, _. split_and!; try done.
  - rewrite Et'. by rewrite !entries_plug, He.
  - eapply Rep_avlSize_entries; [done|done|]. by rewrite !entries_plug, He.
Qed.

Lemma deref_then_null {B} a m (f : unit → M B) q :
  is_Some (nodes m !! a) →
  (n ← deref (Some a); set_parent None (q n) ≫= f) m = Err NullDeref.
Proof.
  intros [n E]. unfold mbind, M_bind, bind, deref. rewrite E. done.
Qed.

Lemma rotateRight_null m a n :
  reachable m → nodes m !! a = Some n → left n = None →
  rotateRight (Some a) m = Err NullDeref.
Proof.
  intros Hm Hn Hl. destruct (reachable_Inv m Hm) as (t & HR & _ & _).
  destruct (Rep_position _ _ _ _ HR Hn) as (c & tl & k & v & h & r & -> & ->).
  destruct tl as [|ll la kl vl hl lr]; simplify_eq/=.
  assert (deref (Some a) m = Ok (mkNode k v None (root_ptr r) (cpar c) h, m)) as Hd
    by (unfold deref; by rewrite Hn).
  unfold rotateRight.
  rewrite (bind_Ok _ _ _ _ _ Hd). cbn [left].
  rewrite (bind_Ok _ _ _ _ _ Hd). cbn [parent].
  apply wp_Err.
  eapply (wp_conseq _ _ (λ _ m', is_Some (nodes m' !! a))); last first.
  { intros _ m' Hs. by apply (deref_then_null a m' _ parent). }
  destruct c as [|f c]; simpl.
  { wp_step. by simpl. }
  assert (∃ nf, nodes m !! faddr f = Some nf) as [nf Hf].
  { apply Rep_plug in HR as ((Hfw & _) & _).
    destruct f; simpl in *; destruct Hfw as (E & _); eauto. }
  wp_step. wp_step. wp_step. wp_step.
  assert (∀ nf', is_Some (<[faddr f := nf']> (nodes m) !! a)) as Hins.
  { intros nf'. destruct (decide (faddr f = a)) as [->|Hne].
    - rewrite lookup_insert_eq. eauto.
    - rewrite lookup_insert_ne by done. eauto. }
  destruct (ptr_eqb (Some a) (left nf)).
  - wp_step. wp_step. wp_step. wp_step. wp_step. wp_step. simpl. apply Hins.
  - wp_step. wp_step. wp_step. wp_step. wp_step. wp_step. simpl. apply Hins.
Qed.

Lemma rotateLeft_null m a n :
  reachable m → nodes m !! a = Some n → right n = None →
  rotateLeft (Some a) m = Err NullDeref.
Proof.
  intros Hm Hn Hl. destruct (reachable_Inv m Hm) as (t & HR & _ & _).
  destruct (Rep_position _ _ _ _ HR Hn) as (c & l & k & v & h & r & -> & ->).
  destruct r as [|rl ra kr vr hr rr]; simplify_eq/=.
  assert (deref (Some a) m = Ok (mkNode k v (root_ptr l) None (cpar c) h, m)) as Hd
    by (unfold deref; by rewrite Hn).
  unfold rotateLeft.
  rewrite (bind_Ok _ _ _ _ _ Hd). cbn [right].
  rewrite (bind_Ok _ _ _ _ _ Hd). cbn [parent].
  apply wp_Err.
  eapply (wp_conseq _ _ (λ _ m', is_Some (nodes m' !! a))); last first.
  { intros _ m' Hs. by apply (deref_then_null a m' _ parent). }
  destruct c as [|f c]; simpl.
  { wp_step. by simpl. }
  assert (∃ nf, nodes m !! faddr f = Some nf) as [nf Hf].
  { apply Rep_plug in HR as ((Hfw & _) & _).
    destruct f; simpl in *; destruct Hfw as (E & _); eauto. }
  wp_step. wp_step. wp_step. wp_step.
  assert (∀ nf', is_Some (<[faddr f := nf']> (nodes m) !! a)) as Hins.
  { intros nf'. destruct (decide (faddr f = a)) as [->|Hne].
    - rewrite lookup_insert_eq. eauto.
    - rewrite lookup_insert_ne by done. eauto. }
  destruct (ptr_eqb (Some a) (left nf)).
  - wp_step. wp_step. wp_step. wp_step. wp_step. wp_step. simpl. apply Hins.
  - wp_step. wp_step. wp_step. wp_step. wp_step. wp_step. simpl. apply Hins.
Qed.

(** X13. A rotation of a node that lacks the child to lift ends on a null
    dereference: [rotateRight] on a node of a reachable state without left
    child, and [rotateLeft] on one without right child.  The
    [assert(left != NULL)] of the source does not test the node. *)
Theorem rotate_without_child m a n :
  reachable m → nodes m !! a = Some n →
  (left n = None → rotateRight (Some a) m = Err NullDeref)
  ∧ (right n = None → rotateLeft (Some a) m = Err NullDeref).
Proof.
  intros Hm Hn. split; intros Hc.
  - by eapply rotateRight_null.
  - by eapply rotateLeft_null.
Qed.

(** ** References across an update *)

Lemma bind_inv {A B} (c : M A) (f : A → M B) m b m' :
  (x ← c; f x) m = Ok (b, m') → ∃ a m1, c m = Ok (a, m1) ∧ f a m1 = Ok (b, m').
Proof.
  unfold mbind, M_bind, bind. destruct (c m) as [[a m1]|e]; [|done]. eauto.
Qed.

Lemma keeps_refl m : keeps_data m m.
Proof. intros a n E. eauto. Qed.

Lemma keeps_trans m1 m2 m3 : keeps_data m1 m2 → keeps_data m2 m3 → keeps_data m1 m3.
Proof.
  intros H12 H23 a n E. destruct (H12 a n E) as (n2 & E2 & Hk2 & Hi2).
  destruct (H23 a n2 E2) as (n3 & E3 & Hk3 & Hi3). exists n3.
  split_and!; [done|congruence|congruence].
Qed.

Lemma safe_bind {A B} (c : M A) (f : A → M B) :
  data_safe c → (∀ a, data_safe (f a)) → data_safe (x ← c; f x).
Proof.
  intros Hc Hf m b m' E. apply bind_inv in E as (a & m1 & E1 & E2).
  eapply keeps_trans; [by eapply Hc|by eapply Hf].
Qed.

Lemma safe_ret {A} (a : A) : data_safe (mret a).
Proof. intros m b m' [= <- <-]. apply keeps_refl. Qed.

Lemma safe_fail {A} e : data_safe (@fail A e).
Proof. intros m b m' [=]. Qed.

Lemma safe_assert b e : data_safe (assert b e).
Proof. destruct b; [apply safe_ret|apply safe_fail]. Qed.

Lemma safe_deref p : data_safe (deref p).
Proof.
  intros m n m' E. unfold deref in E. destruct p as [a|]; [|done].
  destruct (nodes m !! a); simplify_eq. apply keeps_refl.
Qed.

Lemma safe_get_root : data_safe get_root.
Proof. intros m n m' [= <- <-]. apply keeps_refl. Qed.

Lemma safe_loop_fuel : data_safe loop_fuel.
Proof. intros m n m' [= <- <-]. apply keeps_refl. Qed.

Lemma safe_set_root q : data_safe (set_root q).
Proof. intros m [] m' [= <-]. intros a na E. simpl. eauto. Qed.

Lemma safe_incr_size : data_safe incr_size.
Proof. intros m [] m' [= <-]. intros a na E. simpl. eauto. Qed.

Lemma safe_new_node k v l r p h : data_safe (new_node k v l r p h).
Proof.
  intros m q m' [= <- <-]. intros a na E. simpl.
  rewrite lookup_insert_ne; [eauto|]. intros <-. by rewrite alloc_fresh in E.
Qed.

(** A store that rewrites a node with its own key and item. *)
Lemma safe_update_node p (g : AVLNode → AVLNode) :
  (∀ n, key (g n) = key n ∧ item (g n) = item n) →
  data_safe (n ← deref p; store p (g n)).
Proof.
  intros Hg m [] m' E. apply bind_inv in E as (n & m1 & E1 & E2).
  unfold deref in E1. destruct p as [a|]; [|done].
  destruct (nodes m !! a) as [n0|] eqn:Ea; [|done].
  injection E1 as <- <-.
  unfold store in E2. rewrite Ea in E2. injection E2 as <-.
  intros b nb Eb. simpl. destruct (decide (a = b)) as [->|Hne].
  - rewrite lookup_insert_eq. rewrite Ea in Eb. injection Eb as <-.
    destruct (Hg n0). eauto.
  - rewrite lookup_insert_ne by done. eauto.
Qed.

Lemma safe_set_left p q : data_safe (set_left p q).
Proof. by apply safe_update_node. Qed.
Lemma safe_set_right p q : data_safe (set_right p q).
Proof. by apply safe_update_node. Qed.
Lemma safe_set_parent p q : data_safe (set_parent p q).
Proof. by apply safe_update_node. Qed.
Lemma safe_set_height p h : data_safe (set_height p h).
Proof. by apply safe_update_node. Qed.

(** Take a computation apart into the steps known to keep the nodes. *)
Ltac safe_tac :=
  repeat first
    [ apply safe_ret | apply safe_fail | apply safe_assert | apply safe_deref
    | apply safe_get_root | apply safe_loop_fuel | apply safe_set_root
    | apply safe_incr_size | apply safe_new_node
    | apply safe_set_left | apply safe_set_right | apply safe_set_parent
    | apply safe_set_height
    | assumption
    | apply safe_bind; [|intros ?]
    | match goal with
      | |- data_safe (match ?x with Some _ => _ | None => _ end) => destruct x
      | |- data_safe (if ?b then _ else _) => destruct b
      | |- data_safe (let '(_, _) := ?x in _) => destruct x
      | |- data_safe (match ?x with (_, _) => _ end) => destruct x
      end ].

Lemma safe_childHeights p : data_safe (childHeights p).
Proof. unfold childHeights. safe_tac. Qed.

Lemma safe_recalcHeight p : data_safe (recalcHeight p).
Proof. unfold recalcHeight. safe_tac; try apply safe_childHeights. Qed.

Lemma safe_rotateRight p : data_safe (rotateRight p).
Proof. unfold rotateRight. safe_tac; try apply safe_recalcHeight. Qed.

Lemma safe_rotateLeft p : data_safe (rotateLeft p).
Proof. unfold rotateLeft. safe_tac; try apply safe_recalcHeight. Qed.

Lemma safe_fixUp_body p : data_safe (fixUp_body p).
Proof.
  unfold fixUp_body. safe_tac.
Qed.

Lemma safe_fixUp_loop fuel : ∀ p, data_safe (fixUp_loop fuel p).
Proof.
  induction fuel as [|fuel IH]; intros p; simpl; safe_tac;
    first [apply safe_fixUp_body|apply IH].
Qed.

Lemma safe_fixUp p : data_safe (fixUp p).
Proof. unfold fixUp. safe_tac. apply safe_fixUp_loop. Qed.

Lemma safe_findNode_loop fuel : ∀ k node par, data_safe (findNode_loop fuel k node par).
Proof.
  induction fuel as [|fuel IH]; intros k node par; simpl; safe_tac; apply IH.
Qed.

Lemma safe_findNode k : data_safe (findNode k).
Proof. unfold findNode. safe_tac. apply safe_findNode_loop. Qed.

(** X14. [update] never moves an entry: when [update(k, v)] returns, every
    node allocated before the call is still allocated at the same address
    and holds the same key, and the same item unless its key is [k].
    References and iterators obtained before the call stay valid. *)
Theorem update_keeps_nodes m k v m' a n :
  update k v m = Ok (tt, m') → nodes m !! a = Some n →
  ∃ n', nodes m' !! a = Some n' ∧ key n' = key n
        ∧ (key n ≠ k → item n' = item n).
Proof.
  intros Hu Hn. unfold update in Hu.
  apply bind_inv in Hu as (node & m1 & Hf & Hu).
  pose proof (safe_findNode k _ _ _ Hf) as H1.
  apply bind_inv in Hu as (absent & m2 & Ha & Hu).
  destruct (H1 a n Hn) as (n1 & E1 & Hk1 & Hi1).
  destruct absent.
  - assert (keeps_data m1 m2) as H2.
    { refine ((_ : data_safe _) _ _ _ Ha). safe_tac. }
    assert (keeps_data m2 m') as H3.
    { refine ((_ : data_safe _) _ _ _ Hu). safe_tac. apply safe_fixUp_loop. }
    destruct (H2 a n1 E1) as (n2 & E2 & Hk2 & Hi2).
    destruct (H3 a n2 E2) as (n3 & E3 & Hk3 & Hi3).
    exists n3. split_and!; [done|congruence|intros _; congruence].
  - destruct node as [b|]; [|by injection Ha].
    apply bind_inv in Ha as (nb & m1' & Hd & Hr).
    injection Hr as Hneq <-.
    unfold deref in Hd. destruct (nodes m1 !! b) as [nb'|] eqn:Eb; [|done].
    injection Hd as -> <-.
    apply key_neq_false in Hneq.
    unfold set_item in Hu. apply bind_inv in Hu as (nb2 & m1' & Hd & Hs).
    unfold deref in Hd. rewrite Eb in Hd. injection Hd as <- <-.
    unfold store in Hs. rewrite Eb in Hs. injection Hs as <-. simpl.
    destruct (decide (b = a)) as [->|Hne].
    + rewrite lookup_insert_eq. eexists. split; [done|]. simpl.
      rewrite E1 in Eb. injection Eb as <-. split; [done|]. intros Hk. congruence.
    + rewrite lookup_insert_ne by done. exists n1. split_and!; [done|done|done].
Qed.

(** ** The destructors *)

Lemma tree_wf_agree h h' par s :
  (∀ b, b ∈ addrs s → h' !! b = h !! b) → tree_wf h par s → tree_wf h' par s.
Proof.
  revert par. induction s as [|l IHl a k v ht r IHr]; intros par Hag Hwf; [done|].
  simpl in *. destruct Hwf as (E & Hl & Hr). split_and!.
  - rewrite Hag; [done|set_solver].
  - apply IHl; [|done]. intros b Hb. apply Hag. set_solver.
  - apply IHr; [|done]. intros b Hb. apply Hag. set_solver.
Qed.

Lemma wp_AVLNode_delete s : ∀ fuel m par,
  tree_wf (nodes m) par s → distinct s → (depth s ≤ fuel)%nat → s ≠ Leaf →
  wp (AVLNode_delete fuel (root_ptr s)) m
     (λ _ m', root m' = root m ∧ avlSize m' = avlSize m
              ∧ ∀ b, nodes m' !! b = if decide (b ∈ addrs s) then None
                                     else nodes m !! b).
Proof.
  induction s as [|l IHl a k v ht r IHr]; intros fuel m par Hwf Hd Hfuel Hne;
    [done|].
  destruct fuel as [|fuel]; [simpl in Hfuel; lia|].
  simpl in Hwf, Hd, Hfuel. destruct Hwf as (Ea & Hl & Hr).
  destruct Hd as (Hal & Har & Hlr & Hdl & Hdr).
  cbn [AVLNode_delete root_ptr].
  wp_step. wp_step. wp_step.
  eapply (wp_conseq _ _ (λ _ m1, root m1 = root m ∧ avlSize m1 = avlSize m
            ∧ ∀ b, nodes m1 !! b = if decide (b ∈ addrs l) then None
                                   else nodes m !! b)).
  { destruct l as [|ll la kl vl hl lr]; wp_simpl.
    - wp_step. split_and!; [done|done|]. intros b. by rewrite decide_False by set_solver.
    - wp_step. wp_step.
      apply (IHl fuel m (Some a)); [done|done|simpl in *; lia|done]. }
  intros _ m1 (Hrt1 & Hsz1 & Hn1).
  assert (nodes m1 !! a = nodes m !! a) as Ea1.
  { rewrite Hn1. by rewrite decide_False. }
  wp_step. eapply wp_deref; [by rewrite Ea1|]. wp_simpl. wp_step.
  eapply (wp_conseq _ _ (λ _ m2, root m2 = root m ∧ avlSize m2 = avlSize m
            ∧ ∀ b, nodes m2 !! b = if decide (b ∈ addrs l ∪ addrs r) then None
                                   else nodes m !! b)).
  { destruct r as [|rl ra kr vr hr rr]; wp_simpl.
    - wp_step. split_and!; [done|done|]. intros b. rewrite Hn1.
      simpl. repeat case_decide; set_solver.
    - wp_step. eapply wp_deref; [by rewrite Ea1|]. wp_simpl.
      eapply wp_conseq.
      { apply (IHr fuel m1 (Some a)); [|done|simpl in *; lia|done].
        eapply tree_wf_agree; [|exact Hr]. intros b Hb. rewrite Hn1.
        rewrite decide_False; [done|set_solver]. }
      intros _ m2 (Hrt2 & Hsz2 & Hn2). split_and!; [congruence|congruence|].
      intros b. rewrite Hn2, Hn1. repeat case_decide; set_solver. }
  intros _ m2 (Hrt2 & Hsz2 & Hn2).
  assert (nodes m2 !! a = nodes m !! a) as Ea2.
  { rewrite Hn2. rewrite decide_False; [done|set_solver]. }
  eapply wp_delete_node; [by rewrite Ea2|].
  simpl. split_and!; [done|done|]. intros b.
  destruct (decide (b = a)) as [->|Hba].
  - rewrite lookup_delete_eq. rewrite decide_True; [done|set_solver].
  - rewrite lookup_delete_ne by done. rewrite Hn2.
    repeat case_decide; set_solver.
Qed.

Lemma wp_AVLMap_destroy m t :
  Rep m t → AVLMap_destroy m = Ok (tt, empty_map).
Proof.
  intros HR. unfold AVLMap_destroy.
  assert (get_root m = Ok (root m, m)) as Hg by done.
  rewrite (bind_Ok _ _ _ _ _ Hg). rewrite (rep_root _ _ HR).
  destruct t as [|l a k v h r].
  - simpl. destruct m as [hp rt sz]. unfold empty_map.
    pose proof (rep_dom _ _ HR) as Hd. pose proof (rep_root _ _ HR) as Hr.
    pose proof (rep_size _ _ HR) as Hs. simpl in *.
    apply dom_empty_iff_L in Hd. subst. done.
  - cbn [root_ptr].
    assert (wp (fuel ← loop_fuel; rt ← get_root;
                AVLNode_delete fuel rt;; set_root None;; set_size 0) m
              (λ _ m', m' = empty_map)) as (u & m' & E & ->).
    { wp_step. wp_step. wp_step. wp_step. wp_step.
      rewrite (rep_root _ _ HR).
      eapply wp_conseq.
      { apply (wp_AVLNode_delete (Node l a k v h r) _ m None);
          [apply HR|apply HR| |done].
        rewrite (Rep_size _ _ HR). pose proof (depth_count (Node l a k v h r)). lia. }
      intros _ m1 (Hrt & Hsz & Hn). wp_step. wp_step.
      eexists tt, _. split; [done|]. unfold empty_map. simpl. f_equal.
      apply map_eq. intros b. rewrite Hn, lookup_empty. case_decide; [done|].
      apply not_elem_of_dom. by rewrite (rep_dom _ _ HR). }
    by destruct u.
Qed.

(** X15. [AVLMap::~AVLMap] on a reachable state returns and leaves nothing
    allocated: every node is deleted, once, [root] is [NULL] and [avlSize]
    is 0. *)
Theorem destructor_frees_all m :
  reachable m → AVLMap_destroy m = Ok (tt, empty_map).
Proof.
  intros Hm. destruct (reachable_Inv m Hm) as (t & HR & _).
  by eapply wp_AVLMap_destroy.
Qed.

(** ** The driver *)

Lemma io_bind_call {A B} (c : M A) (f : A → IO B) m a m' :
  c m = Ok (a, m') → (x ← call c; f x) m = f a m'.
Proof.
  intros E. unfold mbind, IO_bind, io_bind, call. rewrite E.
  by destruct (f a m').
Qed.

Lemma io_bind_call_Err {A B} (c : M A) (f : A → IO B) m e :
  c m = Err e → (x ← call c; f x) m = ([], Err e).
Proof. intros E. unfold mbind, IO_bind, io_bind, call. by rewrite E. Qed.

Lemma io_bind_print {B} o (f : unit → IO B) m :
  (print o ≫= f) m = (o :: (f tt m).1, (f tt m).2).
Proof. unfold mbind, IO_bind, io_bind, print. by destruct (f tt m). Qed.

Lemma io_bind_Ok {A B} (c : IO A) (f : A → IO B) m o a m' :
  c m = (o, Ok (a, m')) → (x ← c; f x) m = (o ++ (f a m').1, (f a m').2).
Proof.
  intros E. unfold mbind, IO_bind, io_bind. rewrite E. by destruct (f a m').
Qed.

Lemma printTree_loop_unfold fuel iter :
  printTree_loop fuel iter =
  (e ← call end_;
   b ← call (iter_neq iter e);
   if b : bool then
     match fuel with
     | O => call (fail OutOfFuel)
     | S fuel' =>
         k ← call (iter_key iter);
         v ← call (iter_item iter);
         print (OutEntry k v);;
         iter ← call (iter_incr iter);
         printTree_loop fuel' iter
     end
   else mret tt).
Proof. by destruct fuel. Qed.

(** The loop of [printTree] prints what the traversal collects. *)
Lemma printTree_loop_traverse fuel : ∀ it m es m',
  traverse_loop fuel it m = Ok (es, m') →
  printTree_loop fuel it m = (uncurry OutEntry <$> es, Ok (tt, m')).
Proof.
  induction fuel as [|fuel IH]; intros it m es m' E;
    rewrite traverse_loop_unfold in E; rewrite printTree_loop_unfold;
    apply bind_inv in E as (e & m1 & Ee & E);
    rewrite (io_bind_call _ _ _ _ _ Ee);
    apply bind_inv in E as (b & m2 & Eb & E);
    injection Eb as <- <-;
    (erewrite io_bind_call; [|reflexivity]);
    destruct (ptr_eqb it e); simpl in *.
  - by injection E as <- <-.
  - done.
  - by injection E as <- <-.
  - apply bind_inv in E as (k & m2 & Ek & E).
    rewrite (io_bind_call _ _ _ _ _ Ek).
    apply bind_inv in E as (v & m3 & Ev & E).
    rewrite (io_bind_call _ _ _ _ _ Ev).
    apply bind_inv in E as (it' & m4 & Ea & E).
    apply bind_inv in E as (rest & m5 & Er & E).
    injection E as <- <-.
    rewrite io_bind_print.
    unfold iter_incr. rewrite (io_bind_call _ _ _ _ _ Ea).
    rewrite (IH _ _ _ _ Er). done.
Qed.

Lemma Inv_printTree m t :
  Inv m t →
  printTree m = ((uncurry OutEntry <$> entries t) ++ [OutEndl], Ok (tt, m)).
Proof.
  intros HI. pose proof (Inv_traverse m t HI) as Ht.
  unfold traverse in Ht.
  apply bind_inv in Ht as (fuel & m1 & Ef & Ht).
  apply bind_inv in Ht as (it & m2 & Eb & Ht).
  unfold printTree.
  rewrite (io_bind_call _ _ _ _ _ Ef), (io_bind_call _ _ _ _ _ Eb).
  erewrite io_bind_Ok; [|by apply printTree_loop_traverse].
  done.
Qed.

Lemma Inv_subscript_present m t k v :
  Inv m t → (k, v) ∈ entries t →
  ∃ a, subscript k m = Ok (Some a, m) ∧ iter_item (Some a) m = Ok (v, m).
Proof.
  intros HI Hin.
  destruct (Inv_subscript m t k HI)
    as (a & n & m' & t' & Hs & HI' & Hn & Hk & Hit & [(_ & -> & ->)|(Habs & _)]).
  - exists a. split; [done|]. unfold iter_item.
    assert (deref (Some a) m = Ok (n, m)) as Hd by (unfold deref; by rewrite Hn).
    rewrite (bind_Ok _ _ _ _ _ Hd).
    destruct HI as (_ & _ & Hb).
    apply (tree_find_entries k t _ Hb) in Hit.
    apply (tree_find_entries k t _ Hb) in Hin.
    rewrite Hit in Hin. by injection Hin as ->.
  - exfalso. apply Habs. unfold keys. apply list_elem_of_fmap. by exists (k, v).
Qed.

Lemma main_step_P m t :
  Inv m t →
  main_step InP m
  = (OutPrinting :: (uncurry OutEntry <$> entries t) ++ [OutEndl], Ok (false, m)).
Proof.
  intros HI. unfold main_step. rewrite io_bind_print.
  erewrite io_bind_Ok; [|by apply Inv_printTree]. simpl.
  by rewrite app_nil_r.
Qed.

Lemma main_step_F_present m t name v :
  Inv m t → (name, v) ∈ entries t →
  main_step (InF name) m = ([OutFound name v], Ok (false, m)).
Proof.
  intros HI Hin. unfold main_step.
  assert (name ∈ keys t) as Hk.
  { unfold keys. apply list_elem_of_fmap. by exists (name, v). }
  rewrite (io_bind_call _ _ _ _ _ (Inv_hasKey_true m t name HI Hk)).
  destruct (Inv_subscript_present m t name v HI Hin) as (a & Hs & Hi).
  erewrite io_bind_Ok; last first.
  { rewrite (io_bind_call _ _ _ _ _ Hs), (io_bind_call _ _ _ _ _ Hi). done. }
  done.
Qed.

Lemma main_step_F_absent m t name :
  Inv m t → name ∉ keys t →
  main_step (InF name) m = ([OutNotFound name], Ok (false, m)).
Proof.
  intros HI Hk. unfold main_step.
  by rewrite (io_bind_call _ _ _ _ _ (Inv_hasKey_false m t name HI Hk)).
Qed.

Lemma main_step_R_absent m t name :
  Inv m t → name ∉ keys t →
  main_step (InR name) m = ([OutNotFound name], Err AssertRemove).
Proof.
  intros HI Hk. unfold main_step.
  rewrite (io_bind_call _ _ _ _ _ (Inv_hasKey_false m t name HI Hk)). simpl.
  rewrite io_bind_print.
  by rewrite (io_bind_call_Err _ _ _ _ (Inv_remove_absent m t name HI Hk)).
Qed.

Lemma main_step_R_present m t name m' :
  Inv m t → name ∈ keys t → remove name m = Ok (tt, m') →
  main_step (InR name) m = ([], Ok (false, m')).
Proof.
  intros HI Hk Hr. unfold main_step.
  rewrite (io_bind_call _ _ _ _ _ (Inv_hasKey_true m t name HI Hk)). simpl.
  unfold mbind at 1, IO_bind at 1, io_bind at 1. simpl.
  by rewrite (io_bind_call _ _ _ _ _ Hr).
Qed.

Lemma main_step_U m name grade p m1 m2 :
  subscript name m = Ok (p, m1) → assign_item p grade m1 = Ok (tt, m2) →
  main_step (InU name grade) m = ([], Ok (false, m2)).
Proof.
  intros Hs Ha. unfold main_step.
  by rewrite (io_bind_call _ _ _ _ _ Hs), (io_bind_call _ _ _ _ _ Ha).
Qed.

Lemma hasKey_cases m t k :
  Inv m t → k ∈ keys t ∨ k ∉ keys t.
Proof.
  intros HI. destruct (Inv_hasKey m t k HI) as ([] & _ & Hb).
  - left. by apply Hb.
  - right. intros Hin. apply Hb in Hin. done.
Qed.

Lemma main_step_U_spec m name grade :
  reachable m →
  ∃ m' t', main_step (InU name grade) m = ([], Ok (false, m'))
           ∧ reachable m' ∧ Inv m' t' ∧ (name, grade) ∈ entries t'.
Proof.
  intros Hm. destruct (reachable_Inv m Hm) as (t & HI).
  destruct (Inv_subscript m t name HI)
    as (a & n & m1 & t1 & Hs & HI1 & Hn & Hk & _).
  destruct (Inv_assign_total m1 t1 a n grade HI1 Hn)
    as (m2 & t2 & Ha & HI2 & Hat & _).
  exists m2, t2. split_and!.
  - by eapply main_step_U.
  - eapply reach_assign; [|exact Ha]. by eapply reach_subscript.
  - done.
  - apply (Inv_at_Ok m2 t2 name grade HI2). by rewrite <- Hk.
Qed.

(** One iteration of the loop of [main] from a reachable state: it goes on
    in a reachable state, or stops on [Q], or ends on the assertion of
    [remove] after it printed that the name was not found. *)
Lemma main_step_safe m i :
  reachable m →
  ∃ o r, main_step i m = (o, r)
    ∧ match r with
      | Ok (b, m') =>
          reachable m' ∧ (if b : bool then o = [OutStopping] else True)
      | Err e => e = AssertRemove ∧ ∃ name, o = [OutNotFound name]
      end.
Proof.
  intros Hm. destruct (reachable_Inv m Hm) as (t & HI).
  destruct i as [|name grade|name|name| | |].
  - eexists _, _. split; [reflexivity|]. by simpl.
  - destruct (main_step_U_spec m name grade Hm) as (m' & t' & E & Hm' & _).
    eexists _, _. split; [exact E|]. by simpl.
  - destruct (hasKey_cases m t name HI) as [Hin|Hout].
    + unfold keys in Hin. apply list_elem_of_fmap in Hin as ([k v] & -> & Hin).
      eexists _, _. split; [by eapply main_step_F_present|]. by simpl.
    + eexists _, _. split; [by eapply main_step_F_absent|]. by simpl.
  - destruct (hasKey_cases m t name HI) as [Hin|Hout].
    + destruct (Inv_remove_total m t name HI Hin) as (m' & ? & ? & ? & ? & Hr & _).
      eexists _, _. split; [by eapply main_step_R_present|]. simpl.
      split; [|done]. by eapply reach_remove.
    + eexists _, _. split; [by eapply main_step_R_absent|]. simpl. eauto.
  - eexists _, _. split; [by eapply main_step_P|]. by simpl.
  - eexists _, _. split; [reflexivity|]. by simpl.
  - eexists _, _. split; [reflexivity|]. by simpl.
Qed.

Lemma main_loop_safe ins : ∀ m,
  reachable m →
  ∃ out r, main_loop ins m = (out, r)
    ∧ match r with
      | Exited m' => m' = empty_map ∧ ∃ out', out = out' ++ [OutStopping]
      | Undefined m' => reachable m'
      | Aborted e =>
          e = AssertRemove ∧ ∃ out' name, out = out' ++ [OutNotFound name]
      end.
Proof.
  induction ins as [|i ins IH]; intros m Hm; simpl.
  - eexists _, _. split; [done|]. done.
  - destruct (main_step_safe m i Hm) as (o & r & -> & Hr).
    destruct r as [[[] m']|e].
    + destruct Hr as (Hm' & ->).
      destruct (reachable_Inv m' Hm') as (t' & HR' & _).
      rewrite (wp_AVLMap_destroy m' t' HR').
      eexists _, _. split; [done|]. split; [done|]. by exists [].
    + destruct Hr as (Hm' & _).
      destruct (IH m' Hm') as (out & r & -> & Hr).
      eexists _, _. split; [done|].
      destruct r as [m''|e|m'']; [| |done].
      * destruct Hr as (-> & out' & ->). split; [done|].
        exists (o ++ out'). by rewrite app_assoc.
      * destruct Hr as (-> & out' & name & ->). split; [done|].
        exists (o ++ out'), name. by rewrite app_assoc.
    + destruct Hr as (-> & name & ->).
      eexists _, _. split; [done|]. split; [done|]. by exists [], name.
Qed.

(** X16. The command [P] from a reachable state prints [Printing], then
    the entries of the map in strictly ascending order of the keys, then the
    empty line, and leaves the map as it is. *)
Theorem main_print m :
  reachable m →
  ∃ es, traverse m = Ok (es, m) ∧ StronglySorted klt es.*1
    ∧ main_step InP m
      = (OutPrinting :: (uncurry OutEntry <$> es) ++ [OutEndl], Ok (false, m)).
Proof.
  intros Hm. destruct (reachable_Inv m Hm) as (t & HI).
  exists (entries t). split_and!.
  - by apply Inv_traverse.
  - destruct HI as (_ & _ & Hb). by eapply StronglySorted_fmap; [|exact Hb].
  - by apply main_step_P.
Qed.

(** X17. The command [F name] from a reachable state leaves the map as it
    is, also when [name] is missing: it prints the grade the traversal lists
    for [name], or that [name] was not found when the traversal does not list
    it. *)
Theorem main_find m name :
  reachable m →
  ∃ es, traverse m = Ok (es, m)
    ∧ ((∃ grade, (name, grade) ∈ es
          ∧ main_step (InF name) m = ([OutFound name grade], Ok (false, m)))
       ∨ ((name ∉ es.*1)
          ∧ main_step (InF name) m = ([OutNotFound name], Ok (false, m)))).
Proof.
  intros Hm. destruct (reachable_Inv m Hm) as (t & HI).
  exists (entries t). split; [by apply Inv_traverse|].
  destruct (hasKey_cases m t name HI) as [Hin|Hout].
  - left. unfold keys in Hin. apply list_elem_of_fmap in Hin as ([k v] & -> & Hin).
    exists v. split; [done|]. by eapply main_step_F_present.
  - right. split; [done|]. by eapply main_step_F_absent.
Qed.

(** X18. The command [R name] from a reachable state: when [name] is
    present the entry is removed and the loop goes on; when [name] is missing
    the driver prints that it was not found, calls [remove] all the same, and
    the run ends on the assertion of [remove]. *)
Theorem main_remove m name :
  reachable m →
  (hasKey name m = Ok (true, m)
   ∧ ∃ m', remove name m = Ok (tt, m')
           ∧ main_step (InR name) m = ([], Ok (false, m')))
  ∨ (hasKey name m = Ok (false, m)
     ∧ main_step (InR name) m = ([OutNotFound name], Err AssertRemove)).
Proof.
  intros Hm. destruct (reachable_Inv m Hm) as (t & HI).
  destruct (hasKey_cases m t name HI) as [Hin|Hout].
  - left. split; [by eapply Inv_hasKey_true|].
    destruct (Inv_remove_total m t name HI Hin) as (m' & ? & ? & ? & ? & Hr & _).
    exists m'. split; [done|]. by eapply main_step_R_present.
  - right. split; [by eapply Inv_hasKey_false|]. by eapply main_step_R_absent.
Qed.

(** X19. The command [U name grade] from a reachable state returns without
    output, and [F name] then prints [grade]: whether [name] was present or
    not. *)
Theorem main_update_then_find m name grade :
  reachable m →
  ∃ m', main_step (InU name grade) m = ([], Ok (false, m'))
    ∧ at_ name m' = Ok (grade, m')
    ∧ main_step (InF name) m' = ([OutFound name grade], Ok (false, m')).
Proof.
  intros Hm.
  destruct (main_step_U_spec m name grade Hm) as (m' & t' & E & _ & HI' & Hin).
  exists m'. split_and!; [done|by eapply Inv_at|by eapply main_step_F_present].
Qed.

(** X20. A run of [main] from the empty map, on an input whose extractions
    deliver the commands [ins] and then fail, as far as the source
    determines it: it returns on [Q], after the destructor released every
    node, the last output being [stopping]; or it is aborted, and then by
    the assertion of [remove], the last output being that a name was not
    found; or all of [ins] is executed and the failing extraction is
    reached in a reachable state, from where the run is undefined.  Up to
    that point no other assertion fails, no null pointer is dereferenced and
    no loop runs out of fuel. *)
Theorem main_safe ins :
  ∃ out r, main ins = (out, r)
    ∧ match r with
      | Exited m' => m' = empty_map ∧ ∃ out', out = out' ++ [OutStopping]
      | Undefined m' => reachable m'
      | Aborted e =>
          e = AssertRemove ∧ ∃ out' name, out = out' ++ [OutNotFound name]
      end.
Proof. apply main_loop_safe. constructor. Qed.

(** ** The node that remove releases *)

Lemma rot_right_inodes s s' : rot_right s = Some s' → inodes s' = inodes s.
Proof.
  unfold rot_right. destruct s as [|[|ll la kl vl hl lr] a k v h r]; intros; simplify_eq/=.
  by rewrite <- app_assoc.
Qed.

Lemma rot_left_inodes s s' : rot_left s = Some s' → inodes s' = inodes s.
Proof.
  unfold rot_left. destruct s as [|l a k v h [|rl ra kr vr hr rr]]; intros; simplify_eq/=.
  by rewrite <- app_assoc.
Qed.

Lemma fix_tree_inodes s s' : fix_tree s = Some s' → inodes s' = inodes s.
Proof.
  unfold fix_tree. destruct s as [|l a k v h r]; [done|].
  repeat case_match; try done; intros Hs; simplify_option_eq;
    repeat match goal with
    | Hx : rot_right _ = Some _ |- _ => apply rot_right_inodes in Hx
    | Hx : rot_left _ = Some _ |- _ => apply rot_left_inodes in Hx
    end; simpl in *; congruence.
Qed.

Lemma fixup_tree_inodes c : ∀ s t,
  fixup_tree c s = Some t → inodes t = inodes (plug c s).
Proof.
  induction c as [|f c IH]; intros s t; unfold fixup_tree; fold fixup_tree;
    destruct (fix_tree s) as [s'|] eqn:Hs; simpl; try done;
    apply fix_tree_inodes in Hs.
  - by intros [= <-].
  - intros Ht. rewrite (IH _ _ Ht), !inodes_plug.
    destruct f; simpl; by rewrite Hs.
Qed.

Lemma fixup_above_inodes c s t :
  fixup_above c s = Some t → inodes t = inodes (plug c s).
Proof.
  destruct c as [|f c]; unfold fixup_above; [by intros [= <-]|].
  apply (fixup_tree_inodes c (plug_frame f s)).
Qed.

Lemma descend_max_iafter c t : iafter (descend_max c t).1 = iafter c.
Proof.
  revert c. induction t as [|l IHl a k v h r IHr]; intros c; [done|].
  simpl. destruct r as [|rl ra kr vr hr rr]; [done|]. by rewrite IHr.
Qed.

(** What [remove] does to the nodes in order: the node of [k] goes when it
    has no left child; otherwise the node before it goes, and leaves its
    entry in the node of [k]. *)
Lemma remove_tree_inodes k t t' :
  remove_tree k t = Some t' →
  ∃ c l a v h r,
    t = plug c (Node l a k v h r)
    ∧ ((l = Leaf ∧ inodes t' = ibefore c ++ inodes r ++ iafter c)
       ∨ (∃ I0 pa kp vp,
            inodes l = I0 ++ [(pa, (kp, vp))]
            ∧ inodes t' = (ibefore c ++ I0) ++ (a, (kp, vp)) :: inodes r ++ iafter c)).
Proof.
  unfold remove_tree. destruct (descend k [] t) as [c s] eqn:Ed.
  destruct s as [|l a k' v0 h r]; [done|].
  pose proof (descend_found _ _ _ _ _ _ _ _ _ _ Ed) as ->.
  apply descend_plug in Ed. simpl in Ed. subst t.
  intros Ht.
  exists c, l, a, v0, h, r. split; [done|].
  destruct l as [|ll la kl vl hl lr].
  - simpl in Ht. apply fixup_above_inodes in Ht. left. split; [done|].
    by rewrite Ht, inodes_plug.
  - set (l := Node ll la kl vl hl lr) in *.
    pose proof (descend_max_plug [] l) as Hpl.
    pose proof (descend_max_iafter [] l) as Hia.
    destruct (descend_max_node [] ll la kl vl hl lr) as (pl & pa & pk & pv & ph & Hnode).
    fold l in Hnode. fold l in Ht.
    destruct (descend_max [] l) as [cs p]. simpl in *. subst p.
    right.
    destruct (pluck_tree (Node pl pa pk pv ph Leaf)) as [s'|] eqn:Hp; [|done].
    assert (s' = pl) as ->.
    { destruct pl as [|pll pla plk plv plh [|]]; simpl in Hp; by simplify_eq. }
    simpl in Ht. apply fixup_above_inodes in Ht.
    exists (ibefore cs ++ inodes pl), pa, pk, pv. split.
    + change (inodes l = (ibefore cs ++ inodes pl) ++ [(pa, (pk, pv))]).
      rewrite <- Hpl, inodes_plug, Hia. simpl. by rewrite app_nil_r, app_assoc.
    + rewrite Ht, inodes_plug, ibefore_app, iafter_app, Hia. simpl.
      by rewrite <- !app_assoc.
Qed.

Lemma sorted_pivot_before (P R : list (loc * (K * T))) x y :
  StronglySorted ilt (P ++ x :: R) → y ∈ P → klt y.2.1 x.2.1.
Proof.
  intros Hs Hy. apply StronglySorted_app in Hs as (Hlt & _ & _).
  apply (Hlt y x Hy). set_solver.
Qed.

Lemma sorted_pivot_key (P R : list (loc * (K * T))) x y :
  StronglySorted ilt (P ++ x :: R) → y ∈ P ++ R → y.2.1 ≠ x.2.1.
Proof.
  intros Hs Hy E. apply elem_of_app in Hy as [Hy|Hy].
  - pose proof (sorted_pivot_before P R x y Hs Hy) as Hlt.
    rewrite E in Hlt. by apply klt_irrefl in Hlt.
  - apply StronglySorted_app in Hs as (_ & _ & Hs).
    apply StronglySorted_cons in Hs as [Hall _].
    rewrite Forall_forall in Hall. specialize (Hall y Hy). unfold ilt in Hall.
    rewrite E in Hall. by apply klt_irrefl in Hall.
Qed.

(** Two places of the nodes in order with the same address hold the same
    key. *)
Lemma Rep_inodes_key m t b e e' :
  Rep m t → (b, e) ∈ inodes t → (b, e') ∈ inodes t → e.1 = e'.1.
Proof.
  intros HR H1 H2.
  destruct (inodes_Rep m t b e HR H1) as (n1 & E1 & K1 & _).
  destruct (inodes_Rep m t b e' HR H2) as (n2 & E2 & K2 & _).
  congruence.
Qed.

(** X21. A returning [remove(k)] from a reachable state releases exactly one
    node and leaves every node but the one that held [k] with its key and
    item.  When the node of [k] has no left child, it is the node released.
    When it has one, the node released is another one, with a smaller key,
    and the node of [k] stays allocated and takes over the key and the item
    of the node released: an iterator or a reference to that entry no
    longer designates an allocated node. *)
Theorem remove_releases_one_node m k m' :
  reachable m → remove k m = Ok (tt, m') →
  ∃ a n gone ng,
    nodes m !! a = Some n ∧ key n = k
    ∧ nodes m !! gone = Some ng ∧ nodes m' !! gone = None
    ∧ (left n = None → gone = a)
    ∧ (left n ≠ None →
       gone ≠ a ∧ klt (key ng) k
       ∧ ∃ n', nodes m' !! a = Some n' ∧ key n' = key ng ∧ item n' = item ng)
    ∧ (∀ b nb, nodes m !! b = Some nb → b ≠ a → b ≠ gone →
         ∃ nb', nodes m' !! b = Some nb' ∧ key nb' = key nb ∧ item nb' = item nb).
Proof.
  intros Hm Hr. destruct (reachable_Inv m Hm) as (t & HI).
  pose proof HI as (HR & Ha & Hb).
  destruct (hasKey_cases m t k HI) as [Hin|Hout]; last first.
  { rewrite (Inv_remove_absent m t k HI Hout) in Hr. done. }
  destruct (remove_tree_spec k t Ha Hb Hin) as (t' & _ & _ & _ & Hrt & _ & Hb' & _).
  destruct (wp_remove m t k t' HR Hrt) as ([] & m'' & Hr' & HR').
  rewrite Hr in Hr'. injection Hr' as <-.
  destruct (remove_tree_inodes k t t' Hrt) as (c & l & a & v & h & r & -> & Hcase).
  pose proof (bst_inodes _ Hb) as Hs. 
  pose proof HR as HR0.
  apply Rep_plug in HR0 as (_ & (Ea & _) & _). simpl in Ea.
  assert (∀ b nb, nodes m !! b = Some nb →
            (b, (key nb, item nb)) ∈ inodes (plug c (Node l a k v h r))) as Hall.
  { intros b nb Eb. by eapply Rep_inodes. }
  assert (∀ b e, (b, e) ∈ inodes t' →
            ∃ nb', nodes m' !! b = Some nb' ∧ key nb' = e.1 ∧ item nb' = e.2) as Hall'.
  { intros b e He. by eapply inodes_Rep. }
  rewrite inodes_plug_node in Hs, Hall.
  destruct Hcase as [[-> Ht']|(I0 & pa & kp & vp & Hl & Ht')].
  - simpl in Hs, Hall. rewrite app_nil_r in Hs, Hall.
    eexists a, _, a, _. split_and!; [exact Ea|done|exact Ea| |done|done|].
    + destruct (nodes m' !! a) as [x|] eqn:Ex; [exfalso|done].
      pose proof (Rep_inodes m' t' a x HR' Ex) as Hx. rewrite Ht' in Hx.
      apply (sorted_pivot_key _ _ _ _ Hs Hx). simpl.
      apply (Rep_inodes_key m _ a (key x, item x) (k, v) HR);
        rewrite inodes_plug_node; simpl; rewrite app_nil_r; set_solver.
    + intros b nb Eb Hba _. apply (Hall' b (key nb, item nb)). rewrite Ht'.
      specialize (Hall b nb Eb). set_solver.
  - rewrite Hl in Hs, Hall.
    assert ((pa, (kp, vp)) ∈ inodes (plug c (Node l a k v h r))) as Hpa.
    { rewrite inodes_plug_node, Hl. set_solver. }
    destruct (inodes_Rep m _ pa (kp, vp) HR Hpa) as (np & Epa & Hkp & Hvp).
    simpl in Hkp, Hvp.
    assert (klt kp k) as Hlt.
    { apply (sorted_pivot_before _ _ _ (pa, (kp, vp)) Hs). set_solver. }
    assert (pa ≠ a) as Hne.
    { intros ->. rewrite Ea in Epa. injection Epa as <-. simpl in Hkp. subst kp.
      by apply klt_irrefl in Hlt. }
    assert (l ≠ Leaf) as Hl0 by (intros ->; by destruct I0).
    eexists a, _, pa, np. split_and!; [exact Ea|done|exact Epa| | | |].
    + destruct (nodes m' !! pa) as [x|] eqn:Ex; [exfalso|done].
      pose proof (Rep_inodes m' t' pa x HR' Ex) as Hx. rewrite Ht' in Hx.
      assert ((pa, (key x, item x)) ∈ (ibefore c ++ I0) ++ inodes r ++ iafter c) as Hx'.
      { set_solver. }
      assert (StronglySorted ilt
                ((ibefore c ++ I0) ++ (pa, (kp, vp))
                   :: (a, (k, v)) :: inodes r ++ iafter c)) as Hs2.
      { rewrite <- !app_assoc in Hs. simpl in Hs. by rewrite <- !app_assoc. }
      apply (sorted_pivot_key _ _ _ (pa, (key x, item x)) Hs2); [set_solver|]. simpl.
      apply (Rep_inodes_key m _ pa (key x, item x) (kp, vp) HR); [|done].
      rewrite inodes_plug_node, Hl. set_solver.
    + simpl. intros E. destruct l; [done|done].
    + intros _. split_and!; [done|by rewrite Hkp|].
      destruct (Hall' a (kp, vp)) as (n' & En' & Hk' & Hv').
      { rewrite Ht'. set_solver. }
      simpl in Hk', Hv'. exists n'. split_and!; [done|congruence|congruence].
    + intros b nb Eb Hba Hbp. apply (Hall' b (key nb, item nb)). rewrite Ht'.
      specialize (Hall b nb Eb). set_solver.
Qed.
End AVL.

(** * The template at integer keys and items

    [AVLMap<K, T>] with integers for [K] and [T], [T()] being 0, on the
    allocator [next_loc]. *)

Lemma Z_KeyLaws : KeyLaws Z.
Proof.
  split; unfold key_neq, key_lt; simpl.
  - intros a b. rewrite negb_false_iff. apply Z.eqb_eq.
  - intros a. apply Z.ltb_irrefl.
  - intros a b c H1%Z.ltb_lt H2%Z.ltb_lt. apply Z.ltb_lt. lia.
  - intros a b. rewrite !Z.ltb_lt. lia.
Qed.

Lemma next_loc_fresh {A} (h : gmap loc A) : h !! next_loc h = None.
Proof. apply not_elem_of_dom, is_fresh. Qed.

Lemma uint_mod_nat : ∃ N, Z.of_nat N = UINT_MOD.
Proof.
  exists (Z.to_nat UINT_MOD). apply Z2Nat.id. rewrite UINT_MOD_eq. lia.
Qed.

Lemma uint_max_nat : ∃ N, Z.of_nat N = UINT_MOD - 1.
Proof.
  exists (Z.to_nat (UINT_MOD - 1)). apply Z2Nat.id. rewrite UINT_MOD_eq. lia.
Qed.

(** The map after [update(10, 1)], [update(20, 2)], [update(30, 3)]: the
    third call rotates, and the node of 20, at address 2, is the root. *)
Local Abbreviation sample :=
  (exec (update next_loc 30 3)
     (exec (update next_loc 20 2)
        (exec (update next_loc 10 1) empty_map))).

(** The map after [update(10, 1)], [update(20, 2)]: the node of 10 is the
    root and has a right child only. *)
Local Abbreviation sample2 :=
  (exec (update next_loc 20 2) (exec (update next_loc 10 1) empty_map)).

Lemma sample_reachable : reachable 0 next_loc sample.
Proof. repeat apply reachable_exec_update. apply reach_empty. Qed.

Lemma sample2_reachable : reachable 0 next_loc sample2.
Proof. repeat apply reachable_exec_update. apply reach_empty. Qed.

(** ** Instances of the claims *)

(** C1 at the root of [sample]. *)
Lemma C1_balance_and_heights_witness :
  let n := mkNode 20 2 (Some 1%positive) (Some 3%positive) None 1 in
  reachable 0 next_loc sample
  ∧ nodes sample !! 2%positive = Some n
  ∧ ∃ hl hr,
      subtree_height (nodes sample) (left n) hl
      ∧ subtree_height (nodes sample) (right n) hr
      ∧ Z.abs (hl - hr) ≤ 1
      ∧ height n = 1 + Z.max hl hr.
Proof.
  intros n.
  split; [exact sample_reachable|]. split; [vm_compute; reflexivity|].
  apply (C1_balance_and_heights 0 next_loc (@next_loc_fresh _) (KL := Z_KeyLaws)
           sample 2%positive n);
    [exact sample_reachable|vm_compute; reflexivity].
Defined.

(** C2 on [sample]. *)
Lemma C2_search_tree_order_witness :
  reachable 0 next_loc sample
  ∧ ((∃ es, inorder (nodes sample) (root sample) es ∧ StronglySorted klt es.*1)
  ∧ (∀ a n b nb, nodes sample !! a = Some n → nodes sample !! b = Some nb →
       (reaches (nodes sample) (left n) b → klt (key nb) (key n))
       ∧ (reaches (nodes sample) (right n) b → klt (key n) (key nb)))).
Proof.
  split; [exact sample_reachable|].
  apply (C2_search_tree_order 0 next_loc (@next_loc_fresh _) (KL := Z_KeyLaws)
           sample);
    [exact sample_reachable].
Defined.

(** C3 on [sample], overwriting the item of 20. *)
Lemma C3_update_witness :
  let k := 20 in
  let v := 7 in
  reachable 0 next_loc sample
  ∧ (∃ m' es L1 L2,
    update next_loc k v sample = Ok (tt, m')
    ∧ at_ k m' = Ok (v, m')
    ∧ hasKey k m' = Ok (true, m')
    ∧ traverse sample = Ok (es, sample)
    ∧ traverse m' = Ok (L1 ++ (k, v) :: L2, m')
    ∧ (k ∉ (L1 ++ L2).*1)
    ∧ ((hasKey k sample = Ok (false, sample)
        ∧ es = L1 ++ L2
        ∧ length (L1 ++ (k, v) :: L2) = S (length es)
        ∧ avlSize m' = uint_incr (avlSize sample)
        ∧ (avlSize sample < UINT_MOD - 1 → avlSize m' = avlSize sample + 1))
       ∨ (∃ v0, hasKey k sample = Ok (true, sample)
          ∧ es = L1 ++ (k, v0) :: L2
          ∧ length (L1 ++ (k, v) :: L2) = length es
          ∧ avlSize m' = avlSize sample))).
Proof.
  intros k v.
  split; [exact sample_reachable|].
  apply (C3_update 0 next_loc (@next_loc_fresh _) (KL := Z_KeyLaws)
           sample k v);
    [exact sample_reachable].
Defined.

(** C4 on [sample], removing 20. *)
Lemma C4_remove_witness :
  let k := 20 in
  reachable 0 next_loc sample
  ∧ ((hasKey k sample = Ok (false, sample) ∧ remove k sample = Err AssertRemove)
  ∨ (∃ m' L1 v0 L2,
       hasKey k sample = Ok (true, sample)
       ∧ remove k sample = Ok (tt, m')
       ∧ hasKey k m' = Ok (false, m')
       ∧ traverse sample = Ok (L1 ++ (k, v0) :: L2, sample)
       ∧ traverse m' = Ok (L1 ++ L2, m')
       ∧ length (L1 ++ (k, v0) :: L2) = S (length (L1 ++ L2))
       ∧ avlSize m' = uint_decr (avlSize sample)
       ∧ (0 < avlSize sample → avlSize m' = avlSize sample - 1))).
Proof.
  intros k.
  split; [exact sample_reachable|].
  apply (C4_remove 0 next_loc (@next_loc_fresh _) (KL := Z_KeyLaws)
           sample k);
    [exact sample_reachable].
Defined.

(** C5 on [sample]. *)
Lemma C5_iteration_witness :
  reachable 0 next_loc sample
  ∧ ((∃ it, begin_ sample = Ok (it, sample) ∧ end_ sample = Ok (None, sample)
     ∧ match it with
       | None => nodes sample = ∅
       | Some a =>
           ∃ n, nodes sample !! a = Some n
                ∧ ∀ b nb, nodes sample !! b = Some nb → b = a ∨ klt (key n) (key nb)
       end)
  ∧ (∀ x nx, nodes sample !! x = Some nx →
       ∃ it, advance (Some x) sample = Ok (it, sample)
         ∧ match it with
           | None => ∀ b nb, nodes sample !! b = Some nb → ¬ klt (key nx) (key nb)
           | Some y =>
               ∃ ny, nodes sample !! y = Some ny ∧ klt (key nx) (key ny)
                     ∧ ∀ b nb, nodes sample !! b = Some nb → klt (key nx) (key nb) →
                               b = y ∨ klt (key ny) (key nb)
           end)
  ∧ (∃ es, traverse sample = Ok (es, sample)
       ∧ StronglySorted klt es.*1
       ∧ ∀ k v, (k, v) ∈ es ↔ ∃ a n, nodes sample !! a = Some n ∧ key n = k ∧ item n = v)).
Proof.
  split; [exact sample_reachable|].
  apply (C5_iteration 0 next_loc (@next_loc_fresh _) (KL := Z_KeyLaws)
           sample);
    [exact sample_reachable].
Defined.

(** C6 on [sample], with key 40. *)
Lemma C6_fixUp_assertion_unreachable_witness :
  let k := 40 in
  let v := 4 in
  reachable 0 next_loc sample
  ∧ (update next_loc k v sample ≠ Err AssertFixUp
  ∧ remove k sample ≠ Err AssertFixUp
  ∧ subscript 0 next_loc k sample ≠ Err AssertFixUp
  ∧ (∃ m', update next_loc k v sample = Ok (tt, m'))
  ∧ (∃ p m', subscript 0 next_loc k sample = Ok (p, m'))
  ∧ ((∃ m', remove k sample = Ok (tt, m')) ∨ remove k sample = Err AssertRemove)).
Proof.
  intros k v.
  split; [exact sample_reachable|].
  apply (C6_fixUp_assertion_unreachable 0 next_loc (@next_loc_fresh _) (KL := Z_KeyLaws)
           sample k v);
    [exact sample_reachable].
Defined.

(** C7 on [sample], at the absent key 40. *)
Lemma C7_subscript_and_at_witness :
  let k := 40 in
  reachable 0 next_loc sample
  ∧ (∃ a n m',
    subscript 0 next_loc k sample = Ok (Some a, m')
    ∧ nodes m' !! a = Some n ∧ key n = k
    ∧ at_ k m' = Ok (item n, m')
    ∧ (∀ v, ∃ m'', assign_item (Some a) v m' = Ok (tt, m'')
                   ∧ at_ k m'' = Ok (v, m'') ∧ avlSize m'' = avlSize m')
    ∧ ((hasKey k sample = Ok (true, sample) ∧ m' = sample)
       ∨ (hasKey k sample = Ok (false, sample)
          ∧ at_ k sample = Err AssertAt
          ∧ update next_loc k 0 sample = Ok (tt, m')
          ∧ item n = 0
          ∧ avlSize m' = uint_incr (avlSize sample)
          ∧ (avlSize sample < UINT_MOD - 1 → avlSize m' = avlSize sample + 1)))).
Proof.
  intros k.
  split; [exact sample_reachable|].
  apply (C7_subscript_and_at 0 next_loc (@next_loc_fresh _) (KL := Z_KeyLaws)
           sample k);
    [exact sample_reachable].
Defined.

(** C8 on [sample]. *)
Lemma C8_size_witness :
  reachable 0 next_loc sample
  ∧ (size_ sample = Ok (Z.of_nat (size (nodes sample)) mod UINT_MOD, sample)
  ∧ (∀ a, reaches (nodes sample) (root sample) a ↔ is_Some (nodes sample !! a))
  ∧ (∃ es, traverse sample = Ok (es, sample) ∧ length es = size (nodes sample))
  ∧ (Z.of_nat (size (nodes sample)) < UINT_MOD → avlSize sample = Z.of_nat (size (nodes sample)))).
Proof.
  split; [exact sample_reachable|].
  apply (C8_size 0 next_loc (@next_loc_fresh _) (KL := Z_KeyLaws)
           sample);
    [exact sample_reachable].
Defined.

(** C9 on [sample], removing the root. *)
Lemma C9_pluck_target_witness :
  let k := 20 in
  reachable 0 next_loc sample
  ∧ hasKey k sample = Ok (true, sample)
  ∧ (∃ node nn pluck np,
    findNode k sample = Ok (Some node, sample) ∧ nodes sample !! node = Some nn
    ∧ find_pluck (Some node) sample = Ok (Some pluck, sample) ∧ nodes sample !! pluck = Some np
    ∧ (left nn = None → pluck = node)
    ∧ (left nn ≠ None →
       pluck ≠ node ∧ reaches (nodes sample) (left nn) pluck ∧ right np = None
       ∧ ∀ b nb, reaches (nodes sample) (left nn) b → nodes sample !! b = Some nb →
                 b = pluck ∨ klt (key nb) (key np))
    ∧ (∀ c, left np = Some c →
         ∃ nc, nodes sample !! c = Some nc ∧ left nc = None ∧ right nc = None)
    ∧ (∃ m', remove k sample = Ok (tt, m'))).
Proof.
  intros k.
  split; [exact sample_reachable|].
  split; [vm_compute; reflexivity|].
  apply (C9_pluck_target 0 next_loc (@next_loc_fresh _) (KL := Z_KeyLaws)
           sample k);
    [exact sample_reachable|vm_compute; reflexivity].
Defined.

(** C10 on [sample]. *)
Lemma C10_observers_frame_witness :
  let k := 20 in
  let x := 1%positive in
  let i1 := Some 1%positive in
  let i2 := @None loc in
  reachable 0 next_loc sample
  ∧ ((∃ b, hasKey k sample = Ok (b, sample))
  ∧ (hasKey k sample = Ok (true, sample) → ∃ v, at_ k sample = Ok (v, sample))
  ∧ size_ sample = Ok (avlSize sample, sample)
  ∧ (∃ it, begin_ sample = Ok (it, sample))
  ∧ end_ sample = Ok (None, sample)
  ∧ (is_Some (nodes sample !! x) → ∃ it, advance (Some x) sample = Ok (it, sample))
  ∧ iter_eq i1 i2 sample = Ok (ptr_eqb i1 i2, sample)).
Proof.
  intros k x i1 i2.
  split; [exact sample_reachable|].
  apply (C10_observers_frame 0 next_loc (@next_loc_fresh _) (KL := Z_KeyLaws)
           sample k x i1 i2);
    [exact sample_reachable].
Defined.

(** ** Where the claims as worded fail *)

(** C3 as worded: "if k was absent the entry count increases by exactly
    1".  On a map of 2^32 - 1 entries [update] of an absent key returns and
    the traversal has one entry more, but [size()] is 2^32 - 1 before the
    call and 0 after it. *)
Lemma C3_update_counterexample :
  ∃ (m m' : AVLMap) (k v : Z) (es es' : list (Z * Z)),
    reachable 0 next_loc m
    ∧ hasKey k m = Ok (false, m)
    ∧ update next_loc k v m = Ok (tt, m')
    ∧ traverse m = Ok (es, m) ∧ traverse m' = Ok (es', m')
    ∧ length es' = S (length es)
    ∧ size_ m = Ok (4294967295, m)
    ∧ size_ m' = Ok (0, m').
Proof.
  destruct uint_max_nat as [N HN].
  destruct (update_wraps 0 next_loc (@next_loc_fresh _) (KL := Z_KeyLaws)
              Z.of_nat 0 N Nat2Z.inj HN)
    as (m & m' & es & es' & Hr & Hh & Hu & Ht & Ht' & Hl & Hs & Hs').
  exists m, m', (Z.of_nat N), 0, es, es'. split_and!; done.
Qed.

(** C4 as worded: "when k is present, remove(k) ... decreases size() by
    exactly 1".  On a map of 2^32 entries [size()] is 0 before the call and
    2^32 - 1 after it. *)
Lemma C4_remove_counterexample :
  ∃ (m m' : AVLMap) (k : Z),
    reachable 0 next_loc m
    ∧ hasKey k m = Ok (true, m)
    ∧ remove k m = Ok (tt, m')
    ∧ size_ m = Ok (0, m)
    ∧ size_ m' = Ok (4294967295, m').
Proof.
  destruct uint_mod_nat as [N HN].
  destruct (remove_wraps 0 next_loc (@next_loc_fresh _) (KL := Z_KeyLaws)
              Z.of_nat 0 N Nat2Z.inj HN) as (m & m' & Hr & Hh & Hrm & Hs & Hs').
  exists m, m', (Z.of_nat 0). split_and!; done.
Qed.

(** C7 as worded: "operator[](k) ... creating the entry ... (and increasing
    size() by 1) when k is absent".  On a map of 2^32 - 1 entries [size()]
    is 2^32 - 1 before the call and 0 after it. *)
Lemma C7_subscript_and_at_counterexample :
  ∃ (m m' : AVLMap) (k : Z) (p : ptr),
    reachable 0 next_loc m
    ∧ hasKey k m = Ok (false, m)
    ∧ subscript 0 next_loc k m = Ok (p, m')
    ∧ size_ m = Ok (4294967295, m)
    ∧ size_ m' = Ok (0, m').
Proof.
  destruct uint_max_nat as [N HN].
  destruct (subscript_wraps 0 next_loc (@next_loc_fresh _) (KL := Z_KeyLaws)
              Z.of_nat N Nat2Z.inj HN) as (m & p & m' & Hr & Hh & Hsub & Hs & Hs').
  exists m, m', (Z.of_nat N), p. split_and!; done.
Qed.

(** C8 as worded: "size() equals the number of nodes reachable from the root
    (the number of entries visited by a full traversal)".  On a map of 2^32
    entries the traversal visits 2^32 entries and [size()] is 0. *)
Lemma C8_size_counterexample :
  ∃ (m : AVLMap) (es : list (Z * Z)),
    reachable 0 next_loc m
    ∧ traverse m = Ok (es, m)
    ∧ Z.of_nat (length es) = 4294967296
    ∧ size_ m = Ok (0, m).
Proof.
  destruct uint_mod_nat as [N HN].
  destruct (size_wraps 0 next_loc (@next_loc_fresh _) (KL := Z_KeyLaws)
              Z.of_nat 0 N Nat2Z.inj HN) as (m & es & Hr & Ht & Hl & Hs).
  exists m, es. split_and!; done.
Qed.

(** C9 as worded: "P has no right child".  In [sample2], [remove(10)] hands
    to [pluckNode] the node of 10 itself, which has no left child and has
    the node of 20 as its right child; the call returns. *)
Lemma C9_pluck_target_counterexample :
  ∃ node nn,
    reachable 0 next_loc sample2
    ∧ hasKey 10 sample2 = Ok (true, sample2)
    ∧ findNode 10 sample2 = Ok (Some node, sample2)
    ∧ nodes sample2 !! node = Some nn
    ∧ find_pluck (Some node) sample2 = Ok (Some node, sample2)
    ∧ left nn = None
    ∧ right nn = Some 2%positive
    ∧ ∃ m', remove 10 sample2 = Ok (tt, m').
Proof.
  exists 1%positive, (mkNode 10 1 None (Some 2%positive) None 1).
  split; [exact sample2_reachable|].
  split_and!; try (vm_compute; reflexivity).
  eexists. vm_compute. reflexivity.
Qed.

(** * The template at string keys *)

Lemma string_KeyLaws : KeyLaws string.
Proof.
  split; unfold key_neq, key_lt; simpl.
  - intros a b. rewrite negb_false_iff. apply String.eqb_eq.
  - intros a.
    destruct (OrdersEx.String_as_OT.compare a a) eqn:E; try done.
    exfalso. by apply (irreflexivity OrdersEx.String_as_OT.lt a).
  - intros a b c Hab Hbc.
    destruct (OrdersEx.String_as_OT.compare a b) eqn:Eab; try done.
    destruct (OrdersEx.String_as_OT.compare b c) eqn:Ebc; try done.
    assert (OrdersEx.String_as_OT.lt a c) as Hac
      by (by apply (transitivity (R := OrdersEx.String_as_OT.lt) Eab Ebc)).
    unfold OrdersEx.String_as_OT.lt in Hac. by rewrite Hac.
  - intros a b.
    destruct (OrdersEx.String_as_OT.compare_spec a b) as [E|E|E].
    + right. by left.
    + by left.
    + right. right. unfold OrdersEx.String_as_OT.lt in E. by rewrite E.
Qed.

(** The map of [main] after [U Ann 15] and [U Zac 20]. *)
Local Abbreviation names :=
  (exec (update next_loc "Zac"%string 20)
     (exec (update next_loc "Ann"%string 15) empty_map)).

Lemma names_reachable : reachable 0 next_loc names.
Proof. repeat apply reachable_exec_update. apply reach_empty. Qed.

Lemma sample_height : subtree_height (nodes sample) (root sample) 1.
Proof.
  assert (root sample = Some 2%positive) as -> by (vm_compute; reflexivity).
  apply (sh_node _ 2%positive
           (mkNode 20 2 (Some 1%positive) (Some 3%positive) None 1) 0 0);
    [vm_compute; reflexivity| |].
  - apply (sh_node _ 1%positive (mkNode 10 1 None None (Some 2%positive) 0) (-1) (-1));
      [vm_compute; reflexivity|constructor|constructor].
  - apply (sh_node _ 3%positive (mkNode 30 3 None None (Some 2%positive) 0) (-1) (-1));
      [vm_compute; reflexivity|constructor|constructor].
Qed.

(** ** Instances of the further properties *)

(** The lookups of 20 in [sample]. *)
Lemma lookup_agrees_with_traversal_witness :
  let m := sample in
  let k := 20 in
  reachable 0 next_loc m
  ∧ (∃ es b,
    traverse m = Ok (es, m)
    ∧ hasKey k m = Ok (b, m) ∧ (b = true ↔ k ∈ es.*1)
    ∧ (∀ v, at_ k m = Ok (v, m) ↔ (k, v) ∈ es)
    ∧ (at_ k m = Err AssertAt ↔ k ∉ es.*1)).
Proof.
  intros m k.
  assert (reachable 0 next_loc m) as H0 by (exact sample_reachable).
  exact (conj H0 
    (lookup_agrees_with_traversal 0 next_loc (@next_loc_fresh _) (KL := Z_KeyLaws)
           m k H0)).
Defined.

(** An update of 40 in [sample], and the key 20. *)
Lemma update_other_keys_witness :
  let m := sample in
  let k := 40 in
  let v := 4 in
  let m' := exec (update next_loc 40 4) sample in
  let k' := 20 in
  reachable 0 next_loc m
  ∧ update next_loc k v m = Ok (tt, m')
  ∧ (k' ≠ k)
  ∧ ((∀ b, hasKey k' m = Ok (b, m) → hasKey k' m' = Ok (b, m'))
  ∧ (∀ x, at_ k' m = Ok (x, m) → at_ k' m' = Ok (x, m'))
  ∧ (at_ k' m = Err AssertAt → at_ k' m' = Err AssertAt)).
Proof.
  intros m k v m' k'.
  assert (reachable 0 next_loc m) as H0 by (exact sample_reachable).
  assert (update next_loc k v m = Ok (tt, m')) as H1 by (vm_compute; reflexivity).
  assert (k' ≠ k) as H2 by (done).
  exact (conj H0 (conj H1 (conj H2 
    (update_other_keys 0 next_loc (@next_loc_fresh _) (KL := Z_KeyLaws)
           m k v m' k' H0 H1 H2)))).
Defined.

(** The removal of 10 from [sample], and the key 20. *)
Lemma remove_other_keys_witness :
  let m := sample in
  let k := 10 in
  let m' := exec (remove 10) sample in
  let k' := 20 in
  reachable 0 next_loc m
  ∧ remove k m = Ok (tt, m')
  ∧ (k' ≠ k)
  ∧ ((∀ b, hasKey k' m = Ok (b, m) → hasKey k' m' = Ok (b, m'))
  ∧ (∀ x, at_ k' m = Ok (x, m) → at_ k' m' = Ok (x, m'))
  ∧ (at_ k' m = Err AssertAt → at_ k' m' = Err AssertAt)).
Proof.
  intros m k m' k'.
  assert (reachable 0 next_loc m) as H0 by (exact sample_reachable).
  assert (remove k m = Ok (tt, m')) as H1 by (vm_compute; reflexivity).
  assert (k' ≠ k) as H2 by (done).
  exact (conj H0 (conj H1 (conj H2 
    (remove_other_keys 0 next_loc (@next_loc_fresh _) (KL := Z_KeyLaws)
           m k m' k' H0 H1 H2)))).
Defined.

(** An update of 40 in [sample], twice. *)
Lemma update_idempotent_witness :
  let m := sample in
  let k := 40 in
  let v := 4 in
  let m' := exec (update next_loc 40 4) sample in
  reachable 0 next_loc m
  ∧ update next_loc k v m = Ok (tt, m')
  ∧ (update next_loc k v m' = Ok (tt, m')).
Proof.
  intros m k v m'.
  assert (reachable 0 next_loc m) as H0 by (exact sample_reachable).
  assert (update next_loc k v m = Ok (tt, m')) as H1 by (vm_compute; reflexivity).
  exact (conj H0 (conj H1 
    (update_idempotent 0 next_loc (@next_loc_fresh _) (KL := Z_KeyLaws)
           m k v m' H0 H1))).
Defined.

(** The key 40 added to [sample] and removed again. *)
Lemma update_remove_roundtrip_witness :
  let m := sample in
  let k := 40 in
  let v := 4 in
  let m1 := exec (update next_loc 40 4) sample in
  reachable 0 next_loc m
  ∧ hasKey k m = Ok (false, m)
  ∧ update next_loc k v m = Ok (tt, m1)
  ∧ (∃ m2 es,
    remove k m1 = Ok (tt, m2)
    ∧ traverse m = Ok (es, m)
    ∧ traverse m2 = Ok (es, m2)
    ∧ avlSize m2 = avlSize m).
Proof.
  intros m k v m1.
  assert (reachable 0 next_loc m) as H0 by (exact sample_reachable).
  assert (hasKey k m = Ok (false, m)) as H1 by (vm_compute; reflexivity).
  assert (update next_loc k v m = Ok (tt, m1)) as H2 by (vm_compute; reflexivity).
  exact (conj H0 (conj H1 (conj H2 
    (update_remove_roundtrip 0 next_loc (@next_loc_fresh _) (KL := Z_KeyLaws)
           m k v m1 H0 H1 H2)))).
Defined.

(** Updates of 40 and 50 in [sample], in both orders. *)
Lemma update_commute_witness :
  let m := sample in
  let k1 := 40 in
  let v1 := 4 in
  let k2 := 50 in
  let v2 := 5 in
  reachable 0 next_loc m
  ∧ (k1 ≠ k2)
  ∧ (∃ m1 m12 m2 m21 es,
    update next_loc k1 v1 m = Ok (tt, m1) ∧ update next_loc k2 v2 m1 = Ok (tt, m12)
    ∧ update next_loc k2 v2 m = Ok (tt, m2) ∧ update next_loc k1 v1 m2 = Ok (tt, m21)
    ∧ traverse m12 = Ok (es, m12) ∧ traverse m21 = Ok (es, m21)
    ∧ avlSize m12 = avlSize m21).
Proof.
  intros m k1 v1 k2 v2.
  assert (reachable 0 next_loc m) as H0 by (exact sample_reachable).
  assert (k1 ≠ k2) as H1 by (done).
  exact (conj H0 (conj H1 
    (update_commute 0 next_loc (@next_loc_fresh _) (KL := Z_KeyLaws)
           m k1 v1 k2 v2 H0 H1))).
Defined.

(** The links of the root of [sample]. *)
Lemma parent_links_witness :
  let m := sample in
  let a := 2%positive in
  let n := mkNode 20 2 (Some 1%positive) (Some 3%positive) None 1 in
  reachable 0 next_loc m
  ∧ nodes m !! a = Some n
  ∧ ((∀ c, left n = Some c → ∃ nc, nodes m !! c = Some nc ∧ parent nc = Some a)
  ∧ (∀ c, right n = Some c → ∃ nc, nodes m !! c = Some nc ∧ parent nc = Some a)
  ∧ (parent n = None ↔ root m = Some a)
  ∧ (∀ p, parent n = Some p →
       ∃ np, nodes m !! p = Some np ∧ (left np = Some a ∨ right np = Some a))).
Proof.
  intros m a n.
  assert (reachable 0 next_loc m) as H0 by (exact sample_reachable).
  assert (nodes m !! a = Some n) as H1 by (vm_compute; reflexivity).
  exact (conj H0 (conj H1 
    (parent_links 0 next_loc (@next_loc_fresh _) (KL := Z_KeyLaws)
           m a n H0 H1))).
Defined.

(** The height of [sample]: 1, with 3 nodes. *)
Lemma height_logarithmic_witness :
  let m := sample in
  let h := 1 in
  reachable 0 next_loc m
  ∧ subtree_height (nodes m) (root m) h
  ∧ (2 ^ ((h + 2) / 2) ≤ Z.of_nat (size (nodes m)) + 1).
Proof.
  intros m h.
  assert (reachable 0 next_loc m) as H0 by (exact sample_reachable).
  assert (subtree_height (nodes m) (root m) h) as H1 by (apply sample_height).
  exact (conj H0 (conj H1 
    (height_logarithmic 0 next_loc (@next_loc_fresh _) (KL := Z_KeyLaws)
           m h H0 H1))).
Defined.

(** An assignment to the item of 10 in [sample]. *)
Lemma assign_item_frame_witness :
  let m := sample in
  let a := 1%positive in
  let n := mkNode 10 1 None None (Some 2%positive) 0 in
  let v := 9 in
  reachable 0 next_loc m
  ∧ nodes m !! a = Some n
  ∧ (∃ m' L1 L2,
    assign_item (Some a) v m = Ok (tt, m')
    ∧ traverse m = Ok (L1 ++ (key n, item n) :: L2, m)
    ∧ traverse m' = Ok (L1 ++ (key n, v) :: L2, m')
    ∧ avlSize m' = avlSize m).
Proof.
  intros m a n v.
  assert (reachable 0 next_loc m) as H0 by (exact sample_reachable).
  assert (nodes m !! a = Some n) as H1 by (vm_compute; reflexivity).
  exact (conj H0 (conj H1 
    (assign_item_frame 0 next_loc (@next_loc_fresh _) (KL := Z_KeyLaws)
           m a n v H0 H1))).
Defined.

(** [findNode(25)] in [sample]. *)
Lemma findNode_contract_witness :
  let m := sample in
  let k := 25 in
  reachable 0 next_loc m
  ∧ (∃ p, findNode k m = Ok (p, m)
    ∧ match p with
      | None => nodes m = ∅
      | Some a =>
          ∃ n, nodes m !! a = Some n
            ∧ ((key n = k ∧ hasKey k m = Ok (true, m))
               ∨ (hasKey k m = Ok (false, m)
                  ∧ ((klt k (key n) ∧ left n = None)
                     ∨ (klt (key n) k ∧ right n = None))))
      end).
Proof.
  intros m k.
  assert (reachable 0 next_loc m) as H0 by (exact sample_reachable).
  exact (conj H0 
    (findNode_contract 0 next_loc (@next_loc_fresh _) (KL := Z_KeyLaws)
           m k H0)).
Defined.

(** [rotateRight] at the root of [sample]. *)
Lemma rotateRight_keeps_order_witness :
  let m := sample in
  let a := 2%positive in
  let n := mkNode 20 2 (Some 1%positive) (Some 3%positive) None 1 in
  let l := 1%positive in
  reachable 0 next_loc m
  ∧ nodes m !! a = Some n
  ∧ left n = Some l
  ∧ (∃ m' es nl na,
    rotateRight (Some a) m = Ok (Some l, m')
    ∧ traverse m = Ok (es, m) ∧ traverse m' = Ok (es, m')
    ∧ avlSize m' = avlSize m
    ∧ nodes m' !! l = Some nl ∧ right nl = Some a ∧ parent nl = parent n
    ∧ nodes m' !! a = Some na ∧ parent na = Some l ∧ right na = right n).
Proof.
  intros m a n l.
  assert (reachable 0 next_loc m) as H0 by (exact sample_reachable).
  assert (nodes m !! a = Some n) as H1 by (vm_compute; reflexivity).
  assert (left n = Some l) as H2 by (reflexivity).
  exact (conj H0 (conj H1 (conj H2 
    (rotateRight_keeps_order 0 next_loc (@next_loc_fresh _) (KL := Z_KeyLaws)
           m a n l H0 H1 H2)))).
Defined.

(** [rotateLeft] at the root of [sample]. *)
Lemma rotateLeft_keeps_order_witness :
  let m := sample in
  let a := 2%positive in
  let n := mkNode 20 2 (Some 1%positive) (Some 3%positive) None 1 in
  let r := 3%positive in
  reachable 0 next_loc m
  ∧ nodes m !! a = Some n
  ∧ right n = Some r
  ∧ (∃ m' es nr na,
    rotateLeft (Some a) m = Ok (Some r, m')
    ∧ traverse m = Ok (es, m) ∧ traverse m' = Ok (es, m')
    ∧ avlSize m' = avlSize m
    ∧ nodes m' !! r = Some nr ∧ left nr = Some a ∧ parent nr = parent n
    ∧ nodes m' !! a = Some na ∧ parent na = Some r ∧ left na = left n).
Proof.
  intros m a n r.
  assert (reachable 0 next_loc m) as H0 by (exact sample_reachable).
  assert (nodes m !! a = Some n) as H1 by (vm_compute; reflexivity).
  assert (right n = Some r) as H2 by (reflexivity).
  exact (conj H0 (conj H1 (conj H2 
    (rotateLeft_keeps_order 0 next_loc (@next_loc_fresh _) (KL := Z_KeyLaws)
           m a n r H0 H1 H2)))).
Defined.

(** The rotations at the node of 10 in [sample], a leaf. *)
Lemma rotate_without_child_witness :
  let m := sample in
  let a := 1%positive in
  let n := mkNode 10 1 None None (Some 2%positive) 0 in
  reachable 0 next_loc m
  ∧ nodes m !! a = Some n
  ∧ ((left n = None → rotateRight (Some a) m = Err NullDeref)
  ∧ (right n = None → rotateLeft (Some a) m = Err NullDeref)).
Proof.
  intros m a n.
  assert (reachable 0 next_loc m) as H0 by (exact sample_reachable).
  assert (nodes m !! a = Some n) as H1 by (vm_compute; reflexivity).
  exact (conj H0 (conj H1 
    (rotate_without_child 0 next_loc (@next_loc_fresh _) (KL := Z_KeyLaws)
           m a n H0 H1))).
Defined.

(** The node of 10 across an update of 40 in [sample]. *)
Lemma update_keeps_nodes_witness :
  let m := sample in
  let k := 40 in
  let v := 4 in
  let m' := exec (update next_loc 40 4) sample in
  let a := 1%positive in
  let n := mkNode 10 1 None None (Some 2%positive) 0 in
  update next_loc k v m = Ok (tt, m')
  ∧ nodes m !! a = Some n
  ∧ (∃ n', nodes m' !! a = Some n' ∧ key n' = key n
        ∧ (key n ≠ k → item n' = item n)).
Proof.
  intros m k v m' a n.
  assert (update next_loc k v m = Ok (tt, m')) as H0 by (vm_compute; reflexivity).
  assert (nodes m !! a = Some n) as H1 by (vm_compute; reflexivity).
  exact (conj H0 (conj H1 
    (update_keeps_nodes next_loc (@next_loc_fresh _) (KL := Z_KeyLaws)
           m k v m' a n H0 H1))).
Defined.

(** The destructor on [sample]. *)
Lemma destructor_frees_all_witness :
  let m := sample in
  reachable 0 next_loc m
  ∧ (AVLMap_destroy m = Ok (tt, empty_map)).
Proof.
  intros m.
  assert (reachable 0 next_loc m) as H0 by (exact sample_reachable).
  exact (conj H0 
    (destructor_frees_all 0 next_loc (@next_loc_fresh _) (KL := Z_KeyLaws)
           m H0)).
Defined.

(** The command [P] on [names]. *)
Lemma main_print_witness :
  let m := names in
  reachable 0 next_loc m
  ∧ (∃ es, traverse m = Ok (es, m) ∧ StronglySorted klt es.*1
    ∧ main_step 0 next_loc InP m
      = (OutPrinting :: (uncurry OutEntry <$> es) ++ [OutEndl], Ok (false, m))).
Proof.
  intros m.
  assert (reachable 0 next_loc m) as H0 by (exact names_reachable).
  exact (conj H0 
    (main_print 0 next_loc (@next_loc_fresh _) (KL := string_KeyLaws)
           m H0)).
Defined.

(** The command [F Zac] on [names]. *)
Lemma main_find_witness :
  let m := names in
  let name := "Zac"%string in
  reachable 0 next_loc m
  ∧ (∃ es, traverse m = Ok (es, m)
    ∧ ((∃ grade, (name, grade) ∈ es
          ∧ main_step 0 next_loc (InF name) m = ([OutFound name grade], Ok (false, m)))
       ∨ ((name ∉ es.*1)
          ∧ main_step 0 next_loc (InF name) m = ([OutNotFound name], Ok (false, m))))).
Proof.
  intros m name.
  assert (reachable 0 next_loc m) as H0 by (exact names_reachable).
  exact (conj H0 
    (main_find 0 next_loc (@next_loc_fresh _) (KL := string_KeyLaws)
           m name H0)).
Defined.

(** The command [R Bob] on [names], where Bob is missing. *)
Lemma main_remove_witness :
  let m := names in
  let name := "Bob"%string in
  reachable 0 next_loc m
  ∧ ((hasKey name m = Ok (true, m)
   ∧ ∃ m', remove name m = Ok (tt, m')
           ∧ main_step 0 next_loc (InR name) m = ([], Ok (false, m')))
  ∨ (hasKey name m = Ok (false, m)
     ∧ main_step 0 next_loc (InR name) m = ([OutNotFound name], Err AssertRemove))).
Proof.
  intros m name.
  assert (reachable 0 next_loc m) as H0 by (exact names_reachable).
  exact (conj H0 
    (main_remove 0 next_loc (@next_loc_fresh _) (KL := string_KeyLaws)
           m name H0)).
Defined.

(** The commands [U Bob 17] and [F Bob] on [names]. *)
Lemma main_update_then_find_witness :
  let m := names in
  let name := "Bob"%string in
  let grade := 17 in
  reachable 0 next_loc m
  ∧ (∃ m', main_step 0 next_loc (InU name grade) m = ([], Ok (false, m'))
    ∧ at_ name m' = Ok (grade, m')
    ∧ main_step 0 next_loc (InF name) m' = ([OutFound name grade], Ok (false, m'))).
Proof.
  intros m name grade.
  assert (reachable 0 next_loc m) as H0 by (exact names_reachable).
  exact (conj H0 
    (main_update_then_find 0 next_loc (@next_loc_fresh _) (KL := string_KeyLaws)
           m name grade H0)).
Defined.

(** A run of [main] that is aborted on the removal of a missing name. *)
Lemma main_safe_witness :
  let ins := [InU "Zac"%string 20; InF "Zac"%string; InS; InP; InR "Bob"%string; InQ] in
  ∃ out r, main 0 next_loc ins = (out, r)
    ∧ match r with
      | Exited m' => m' = empty_map ∧ ∃ out', out = out' ++ [OutStopping]
      | Undefined m' => reachable 0 next_loc m'
      | Aborted e =>
          e = AssertRemove ∧ ∃ out' name, out = out' ++ [OutNotFound name]
      end.
Proof.
  intros ins.
  exact (main_safe 0 next_loc (@next_loc_fresh _) (KL := string_KeyLaws)
           ins).
Defined.

(** The removal of the root of [sample]. *)
Lemma remove_releases_one_node_witness :
  let m := sample in
  let k := 20 in
  let m' := exec (remove 20) sample in
  reachable 0 next_loc m
  ∧ remove k m = Ok (tt, m')
  ∧ (∃ a n gone ng,
    nodes m !! a = Some n ∧ key n = k
    ∧ nodes m !! gone = Some ng ∧ nodes m' !! gone = None
    ∧ (left n = None → gone = a)
    ∧ (left n ≠ None →
       gone ≠ a ∧ klt (key ng) k
       ∧ ∃ n', nodes m' !! a = Some n' ∧ key n' = key ng ∧ item n' = item ng)
    ∧ (∀ b nb, nodes m !! b = Some nb → b ≠ a → b ≠ gone →
         ∃ nb', nodes m' !! b = Some nb' ∧ key nb' = key nb ∧ item nb' = item nb)).
Proof.
  intros m k m'.
  assert (reachable 0 next_loc m) as H0 by (exact sample_reachable).
  assert (remove k m = Ok (tt, m')) as H1 by (vm_compute; reflexivity).
  exact (conj H0 (conj H1 
    (remove_releases_one_node 0 next_loc (@next_loc_fresh _) (KL := Z_KeyLaws)
           m k m' H0 H1))).
Defined.
